(** * DeepDive-AI: the conversation tree, its layout, viewport and
      context linearizer

    A shallow embedding of [src/App.tsx] (tree store, layout engine, viewport
    controller), of [buildHistoryForColumn] in services/geminiService.ts
    (the second file of [src/unnamed/part_001]: the context linearizer) and
    of the selection handlers of the message bubble with the custom prompt
    ([src/unnamed/part_002], the version [ChatColumn.tsx] calls), with the
    types of [src/unnamed/part_000].

    Conventions of the embedding:
    - JavaScript numbers are exact rationals ([Q]); equations between
      coordinates are stated with [==].
    - A JavaScript string is the sequence of its UTF-16 code units; the
      embedding takes the strings whose code units are below 256, one
      [ascii] per code unit, so that lengths and indices are those of
      JavaScript.  A string is truthy when it is not empty.
    - [Map<string, V>] is [gmap string V]; arrays are lists.
    - React state is an explicit record; a handler is a function from the
      state it closes over to the next state.  [uuidv4()] and [Date.now()]
      are inputs of the handlers that call them. *)

From Stdlib Require Import Ascii String QArith Qminmax Qabs Lqa.
From stdpp Require Import gmap strings list fin_maps.

Local Open Scope string_scope.
Local Open Scope list_scope.

(** ** types.ts *)

Inductive Role := user | model.

#[global] Instance Role_eq_dec : EqDecision Role.
Proof. solve_decision. Defined.

Module Message.
Record t := mk {
  id : string;
  role : Role;
  text : string;
  timestamp : Z
}.
End Message.

Module Column.
Record t := mk {
  id : string;
  title : string;
  parentId : option string;
  parentMessageId : option string;
  contextSnippet : option string;
  messages : list Message.t;
  inputValue : string;
  isThinking : bool;
  isCollapsed : bool
}.
End Column.

(** ** JavaScript helpers *)

(** Truthiness of a string: every string but the empty one. *)
Definition truthy (s : string) : bool :=
  match s with EmptyString => false | String _ _ => true end.

(** Truthiness of a [string | null]. *)
Definition truthy_opt (o : option string) : bool :=
  match o with Some s => truthy s | None => false end.

(** [a === b] for [string | null] operands. *)
Definition strict_eq (a b : option string) : bool := bool_decide (a = b).

(** [arr.find(pred)]. *)
Fixpoint find {A} (pred : A → bool) (arr : list A) : option A :=
  match arr with
  | [] => None
  | a :: rest => if pred a then Some a else find pred rest
  end.

(** [arr.findIndex(pred)], [None] standing for [-1]. *)
Fixpoint findIndex {A} (pred : A → bool) (arr : list A) : option nat :=
  match arr with
  | [] => None
  | a :: rest => if pred a then Some 0%nat else S <$> findIndex pred rest
  end.

(** [arr.slice(0, n)]. *)
Definition slice0 {A} (n : nat) (arr : list A) : list A := take n arr.

(** The white space and line terminators that [String.prototype.trim]
    removes, among the code units below 256: U+0009 to U+000D, U+0020 and
    the no-break space U+00A0.  The others ([U+1680], [U+2000] to [U+200A],
    [U+2028], [U+2029], [U+202F], [U+205F], [U+3000], [U+FEFF]) are code
    units from 256 on and occur in no string of the embedding. *)
Definition is_space (c : ascii) : bool :=
  let n := nat_of_ascii c in
  ((9 <=? n) && (n <=? 13) || (n =? 32) || (n =? 160))%nat.

Fixpoint trim_start (s : string) : string :=
  match s with
  | EmptyString => EmptyString
  | String c rest => if is_space c then trim_start rest else s
  end.

Definition string_rev (s : string) : string :=
  string_of_list_ascii (rev (list_ascii_of_string s)).

Definition trim (s : string) : string :=
  string_rev (trim_start (string_rev (trim_start s))).

Definition find_col (columnId : string) (columns : list Column.t) :=
  find (λ c, String.eqb (Column.id c) columnId) columns.

Definition ids (columns : list Column.t) : list string :=
  Column.id <$> columns.

(** ** App.tsx: tree-store mutations *)

Definition set_messages (col : Column.t) (msgs : list Message.t) (t : string) :=
  Column.mk (Column.id col) t (Column.parentId col)
    (Column.parentMessageId col) (Column.contextSnippet col) msgs
    (Column.inputValue col) (Column.isThinking col) (Column.isCollapsed col).

Definition set_isThinking (col : Column.t) (b : bool) :=
  Column.mk (Column.id col) (Column.title col) (Column.parentId col)
    (Column.parentMessageId col) (Column.contextSnippet col)
    (Column.messages col) (Column.inputValue col) b (Column.isCollapsed col).

Definition set_isCollapsed (col : Column.t) (b : bool) :=
  Column.mk (Column.id col) (Column.title col) (Column.parentId col)
    (Column.parentMessageId col) (Column.contextSnippet col)
    (Column.messages col) (Column.inputValue col) (Column.isThinking col) b.

Definition handleToggleCollapse (columnId : string) (prev : list Column.t) :=
  (λ col, if String.eqb (Column.id col) columnId
          then set_isCollapsed col (negb (Column.isCollapsed col))
          else col) <$> prev.

Definition addMessageToColumn (columnId : string) (message : Message.t)
    (prev : list Column.t) : list Column.t :=
  (λ col,
     if String.eqb (Column.id col) columnId then
       set_messages col (Column.messages col ++ [message])
         (if (length (Column.messages col) =? 0)%nat
             && bool_decide (Message.role message = user)
             && negb (truthy_opt (Column.parentId col))
          then if (30 <? String.length (Message.text message))%nat
               then substring 0 30 (Message.text message) +:+ "..."
               else Message.text message
          else Column.title col)
     else col) <$> prev.

Definition append_text (m : Message.t) (chunk : string) : Message.t :=
  Message.mk (Message.id m) (Message.role m) (Message.text m +:+ chunk)
    (Message.timestamp m).

Definition updateLastMessage (columnId textChunk : string)
    (prev : list Column.t) : list Column.t :=
  (λ col,
     if String.eqb (Column.id col) columnId then
       let msgs := Column.messages col in
       let lastIdx := (length msgs - 1)%nat in
       let msgs' :=
         match msgs !! lastIdx with
         | Some m =>
             if (0 <? length msgs)%nat && bool_decide (Message.role m = model)
             then <[lastIdx := append_text m textChunk]> msgs
             else msgs
         | None => msgs
         end in
       set_messages col msgs' (Column.title col)
     else col) <$> prev.

Definition setThinking (columnId : string) (isThinking : bool)
    (prev : list Column.t) : list Column.t :=
  (λ col, if String.eqb (Column.id col) columnId
          then set_isThinking col isThinking else col) <$> prev.

(** ** App.tsx: layout engine *)

Module Pos.
Record t := mk { x : Q; y : Q; height : Q }.
End Pos.

Module Vec.
Record t := mk { x : Q; y : Q }.
End Vec.

Definition NODE_WIDTH : Q := 450.
Definition NODE_GAP_X : Q := 150.
Definition NODE_GAP_Y : Q := 50.
Definition NODE_DEFAULT_HEIGHT : Q := 200.

(** [v || d] for [v : number | undefined]: zero and [undefined] are falsy. *)
Definition num_or (v : option Q) (d : Q) : Q :=
  match v with
  | Some h => if Qeq_bool h 0 then d else h
  | None => d
  end.

Definition getChildren (columns : list Column.t) (parentId : option string) :=
  filter (λ c, Column.parentId c = parentId) columns.

(** The two [forEach] loops of the layout ([children.forEach] and
    [roots.forEach]) have one shape: place the node at the running top and
    move the running top below what was placed, plus the gap. *)
Definition stack
    (place : gmap string Pos.t → string → Q → Q → option (Q * gmap string Pos.t))
    (nodes : list Column.t) (x : Q) (top : Q) (newLayout : gmap string Pos.t)
    : option (Q * gmap string Pos.t) :=
  foldl (λ acc child,
           '(currentTopY, lay) ← acc;
           '(subtreeBottom, lay') ← place lay (Column.id child) x currentTopY;
           Some ((subtreeBottom + NODE_GAP_Y)%Q, lay'))
        (Some (top, newLayout)) nodes.

(** [positionNode]: the layout map is threaded through; the result is the
    bottom of the subtree rooted at [nodeId].  [None]: out of fuel. *)
Fixpoint positionNode (fuel : nat) (columns : list Column.t)
    (nodeHeights : gmap string Q) (newLayout : gmap string Pos.t)
    (nodeId : string) (x startY : Q) : option (Q * gmap string Pos.t) :=
  match fuel with
  | O => None
  | S fuel' =>
      let currentHeight := num_or (nodeHeights !! nodeId) NODE_DEFAULT_HEIGHT in
      let nodeCenterY := (startY + currentHeight / 2)%Q in
      let newLayout := <[nodeId := Pos.mk x nodeCenterY currentHeight]> newLayout in
      let children := getChildren columns (Some nodeId) in
      if (length children =? 0)%nat then Some ((startY + currentHeight)%Q, newLayout)
      else
        '(currentChildTopY, newLayout) ←
          stack (positionNode fuel' columns nodeHeights) children
                (x + NODE_WIDTH + NODE_GAP_X)%Q startY newLayout;
        let lastChildBottom := (currentChildTopY - NODE_GAP_Y)%Q in
        let myBottom := (startY + currentHeight)%Q in
        Some (Qmax myBottom lastChildBottom, newLayout)
  end.

Definition calculateLayout (fuel : nat) (columns : list Column.t)
    (nodeHeights : gmap string Q) : option (gmap string Pos.t) :=
  snd <$> stack (positionNode fuel columns nodeHeights)
                (getChildren columns None) 0 0 ∅.

(** The nodes layer of the render: a column without a layout entry renders
    nothing. *)
Definition renderedColumns (columns : list Column.t)
    (layout : gmap string Pos.t) : list Column.t :=
  filter (λ c, is_Some (layout !! Column.id c)) columns.

(** Top and bottom edge of a laid-out rectangle. *)
Definition rect_top (p : Pos.t) : Q := (Pos.y p - Pos.height p / 2)%Q.
Definition rect_bottom (p : Pos.t) : Q := (Pos.y p + Pos.height p / 2)%Q.

(** ** Tree vocabulary over the flat column list *)

(** The id reached from [k] after [e] steps along [parentId]. *)
Fixpoint ancestor_at (columns : list Column.t) (e : nat) (k : string)
    : option string :=
  match e with
  | O => Some k
  | S e' =>
      match find_col k columns with
      | Some c =>
          match Column.parentId c with
          | Some p => ancestor_at columns e' p
          | None => None
          end
      | None => None
      end
  end.

(** [k] is [a] or a descendant of [a]. *)
Definition in_subtree (columns : list Column.t) (a k : string) : Prop :=
  ∃ e, ancestor_at columns e k = Some a.

(** [k] is a column whose parent chain ends, after [d] steps, at a root. *)
Definition reaches_root (columns : list Column.t) (k : string) (d : nat) : Prop :=
  ∃ r c, ancestor_at columns d k = Some r ∧ find_col r columns = Some c ∧
         Column.parentId c = None.

(** Neither node is the other or an ancestor of the other. *)
Definition unrelated (columns : list Column.t) (a b : string) : Prop :=
  ¬ in_subtree columns a b ∧ ¬ in_subtree columns b a.

(** Every non-null [parentId] names a column of the list. *)
Definition parents_exist (columns : list Column.t) : Prop :=
  ∀ c p, c ∈ columns → Column.parentId c = Some p → p ∈ ids columns.

(** No column is its own ancestor. *)
Definition acyclic (columns : list Column.t) : Prop :=
  ∀ k e, (0 < e)%nat → ancestor_at columns e k ≠ Some k.

(** ** App.tsx: application state *)

Inductive DragType := canvas | node.

Module Drag.
Record t := mk {
  type : DragType;
  startX : Q;
  startY : Q;
  targetId : option string;
  initialPan : option Vec.t;
  initialNodeOffset : option Vec.t
}.
End Drag.

Module App.
Record t := mk {
  hasStarted : bool;
  columns : list Column.t;
  selectedColumnId : string;
  globalInput : string;
  nodeHeights : gmap string Q;
  pan : Vec.t;
  scale : Q;
  dragRef : option Drag.t;
  nodeOffsets : gmap string Vec.t
}.
End App.

Definition setColumns (st : App.t) (v : list Column.t) : App.t :=
  App.mk (App.hasStarted st) v (App.selectedColumnId st) (App.globalInput st)
    (App.nodeHeights st) (App.pan st) (App.scale st) (App.dragRef st)
    (App.nodeOffsets st).

Definition setSelectedColumnId (st : App.t) (v : string) : App.t :=
  App.mk (App.hasStarted st) (App.columns st) v (App.globalInput st)
    (App.nodeHeights st) (App.pan st) (App.scale st) (App.dragRef st)
    (App.nodeOffsets st).

Definition setGlobalInput (st : App.t) (v : string) : App.t :=
  App.mk (App.hasStarted st) (App.columns st) (App.selectedColumnId st) v
    (App.nodeHeights st) (App.pan st) (App.scale st) (App.dragRef st)
    (App.nodeOffsets st).

Definition setNodeHeights (st : App.t) (v : gmap string Q) : App.t :=
  App.mk (App.hasStarted st) (App.columns st) (App.selectedColumnId st)
    (App.globalInput st) v (App.pan st) (App.scale st) (App.dragRef st)
    (App.nodeOffsets st).

Definition setPan (st : App.t) (v : Vec.t) : App.t :=
  App.mk (App.hasStarted st) (App.columns st) (App.selectedColumnId st)
    (App.globalInput st) (App.nodeHeights st) v (App.scale st) (App.dragRef st)
    (App.nodeOffsets st).

Definition setScale (st : App.t) (v : Q) : App.t :=
  App.mk (App.hasStarted st) (App.columns st) (App.selectedColumnId st)
    (App.globalInput st) (App.nodeHeights st) (App.pan st) v (App.dragRef st)
    (App.nodeOffsets st).

Definition setDragRef (st : App.t) (v : option Drag.t) : App.t :=
  App.mk (App.hasStarted st) (App.columns st) (App.selectedColumnId st)
    (App.globalInput st) (App.nodeHeights st) (App.pan st) (App.scale st) v
    (App.nodeOffsets st).

Definition setNodeOffsets (st : App.t) (v : gmap string Vec.t) : App.t :=
  App.mk (App.hasStarted st) (App.columns st) (App.selectedColumnId st)
    (App.globalInput st) (App.nodeHeights st) (App.pan st) (App.scale st)
    (App.dragRef st) v.

(** ** App.tsx: viewport controller *)

Module MouseEvent.
Record t := mk { clientX : Q; clientY : Q }.
End MouseEvent.

Module WheelEvent.
Record t := mk { deltaY : Q; clientX : Q; clientY : Q }.
End WheelEvent.

(** [nodeOffsets.get(id) || {x: 0, y: 0}]. *)
Definition offset_or_zero (nodeOffsets : gmap string Vec.t) (columnId : string) :=
  default (Vec.mk 0 0) (nodeOffsets !! columnId).

Definition handleNodeDragStart (st : App.t) (e : MouseEvent.t)
    (columnId : string) : App.t :=
  let currentOffset := offset_or_zero (App.nodeOffsets st) columnId in
  setDragRef st
    (Some (Drag.mk node (MouseEvent.clientX e) (MouseEvent.clientY e)
             (Some columnId) None (Some currentOffset))).

(** [button] is [e.button]; [onColumn] tells whether the event target lies
    inside a [.chat-column-container]. *)
Definition handleMouseDown (st : App.t) (e : MouseEvent.t) (button : Z)
    (onColumn : bool) : App.t :=
  if ((button =? 0)%Z || (button =? 1)%Z) then
    if onColumn then st
    else setDragRef st
           (Some (Drag.mk canvas (MouseEvent.clientX e) (MouseEvent.clientY e)
                    None (Some (App.pan st)) None))
  else st.

Definition zoomSensitivity : Q := 0.001.

Definition handleWheel (st : App.t) (e : WheelEvent.t) : App.t :=
  if negb (App.hasStarted st) then st
  else
    let scale := App.scale st in
    let pan := App.pan st in
    let newScale :=
      Qmin (Qmax 0.1 (scale - WheelEvent.deltaY e * zoomSensitivity)) 3 in
    let mouseX := WheelEvent.clientX e in
    let mouseY := WheelEvent.clientY e in
    let worldX := ((mouseX - Vec.x pan) / scale)%Q in
    let worldY := ((mouseY - Vec.y pan) / scale)%Q in
    let newPanX := (mouseX - worldX * newScale)%Q in
    let newPanY := (mouseY - worldY * newScale)%Q in
    setPan (setScale st newScale) (Vec.mk newPanX newPanY).

Definition handleMouseMove (st : App.t) (e : MouseEvent.t) : App.t :=
  match App.dragRef st with
  | None => st
  | Some drag =>
      let dx := (MouseEvent.clientX e - Drag.startX drag)%Q in
      let dy := (MouseEvent.clientY e - Drag.startY drag)%Q in
      match Drag.type drag, Drag.initialPan drag,
            Drag.targetId drag, Drag.initialNodeOffset drag with
      | canvas, Some initialPan, _, _ =>
          setPan st (Vec.mk (Vec.x initialPan + dx) (Vec.y initialPan + dy))
      | node, _, Some targetId, Some initialNodeOffset =>
          if truthy targetId then
            let worldDx := (dx / App.scale st)%Q in
            let worldDy := (dy / App.scale st)%Q in
            let newOffset :=
              Vec.mk (Vec.x initialNodeOffset + worldDx)
                     (Vec.y initialNodeOffset + worldDy) in
            setNodeOffsets st (<[targetId := newOffset]> (App.nodeOffsets st))
          else st
      | _, _, _, _ => st
      end
  end.

Definition handleMouseUp (st : App.t) : App.t := setDragRef st None.

(** The header's [-] and [+] buttons. *)
Definition zoomOutClick (st : App.t) : App.t :=
  setScale st (Qmax 0.1 (App.scale st - 0.1)).

Definition zoomInClick (st : App.t) : App.t :=
  setScale st (Qmin 3 (App.scale st + 0.1)).

(** The content container's transform, [translate(pan) scale(scale)] with
    its origin at the top left: where a world point lands on screen. *)
Definition toScreen (pan : Vec.t) (scale : Q) (world : Vec.t) : Vec.t :=
  Vec.mk (Vec.x world * scale + Vec.x pan) (Vec.y world * scale + Vec.y pan).

(** The world point shown at a screen position. *)
Definition toWorld (pan : Vec.t) (scale : Q) (screen : Vec.t) : Vec.t :=
  Vec.mk ((Vec.x screen - Vec.x pan) / scale) ((Vec.y screen - Vec.y pan) / scale).

Definition Vec_eq (a b : Vec.t) : Prop :=
  Vec.x a == Vec.x b ∧ Vec.y a == Vec.y b.

Definition clamp (lo hi v : Q) : Q := Qmin (Qmax lo v) hi.

(** ** App.tsx: close, submit, branch *)

(** A handler either returns or throws a [TypeError] (reading a property of
    [undefined]). *)
Inductive Completion (A : Type) :=
  | Normal (a : A)
  | TypeError.
Arguments Normal {A} a.
Arguments TypeError {A}.

(** [getDescendants] of [handleCloseColumn].  [None]: out of fuel. *)
Fixpoint getDescendants (fuel : nat) (columns : list Column.t) (id : string)
    : option (list string) :=
  match fuel with
  | O => None
  | S fuel' =>
      let children := filter (λ c, Column.parentId c = Some id) columns in
      below ← mapM (λ c, getDescendants fuel' columns (Column.id c)) children;
      Some (id :: concat below)
  end.

(** [toDelete.forEach(id => next.delete(id))]. *)
Definition delete_all {V} (toDelete : gset string) (prev : gmap string V) :=
  foldr (λ id next, delete id next) prev (elements toDelete).

Definition handleCloseColumn (fuel : nat) (st : App.t) (columnId : string)
    : option (Completion App.t) :=
  let columns := App.columns st in
  desc ← getDescendants fuel columns columnId;
  let toDelete : gset string := list_to_set desc in
  let st1 := setColumns st (filter (λ c, Column.id c ∉ toDelete) columns) in
  let st2 := setNodeHeights st1 (delete_all toDelete (App.nodeHeights st1)) in
  let st3 := setNodeOffsets st2 (delete_all toDelete (App.nodeOffsets st2)) in
  if bool_decide (App.selectedColumnId st ∈ toDelete) then
    let first_column :=
      match columns with
      | c0 :: _ => Normal (setSelectedColumnId st3 (Column.id c0))
      | [] => TypeError
      end in
    match find_col columnId columns with
    | Some col =>
        match Column.parentId col with
        | Some p => if truthy p then Some (Normal (setSelectedColumnId st3 p))
                    else Some first_column
        | None => Some first_column
        end
    | None => Some first_column
    end
  else Some (Normal st3).

(** The nodes layer hands [handleCloseColumn] to a column only when the
    column has a parent: [onClose={col.parentId ? handleCloseColumn : undefined}]. *)
Definition onClose_offered (col : Column.t) : bool :=
  truthy_opt (Column.parentId col).

(** What a [setTimeout] callback of the submit and branch handlers will do:
    append the empty model message, then stream into it with the history
    built from the column list the handler closed over. *)
Module Deferred.
Record t := mk {
  columnId : string;
  modelMsg : Message.t;
  userText : string;
  columnsSeen : list Column.t
}.
End Deferred.

Definition handleGlobalSubmit (st : App.t) (uuid1 uuid2 : string) (now1 now2 : Z)
    : App.t * option Deferred.t :=
  let selectedColumnId := App.selectedColumnId st in
  if negb (truthy (trim (App.globalInput st))) || negb (truthy selectedColumnId)
  then (st, None)
  else
    match find_col selectedColumnId (App.columns st) with
    | None => (st, None)
    | Some targetCol =>
        if Column.isThinking targetCol then (st, None)
        else
          let text := App.globalInput st in
          let st1 := setGlobalInput st EmptyString in
          let userMsg := Message.mk uuid1 user text now1 in
          let st2 := setColumns st1
                       (addMessageToColumn selectedColumnId userMsg (App.columns st1)) in
          let st3 := setColumns st2
                       (setThinking selectedColumnId true (App.columns st2)) in
          let st4 := if Column.isCollapsed targetCol
                     then setColumns st3
                            (handleToggleCollapse selectedColumnId (App.columns st3))
                     else st3 in
          let modelMsg := Message.mk uuid2 model EmptyString now2 in
          (st4, Some (Deferred.mk selectedColumnId modelMsg text (App.columns st)))
    end.

Definition dquote : string := String (ascii_of_nat 34) EmptyString.

Definition handleBranch (st : App.t) (newColId : string)
    (sourceColumnId sourceMessageId selectedText : string)
    (customPrompt : option string) : App.t * string :=
  let newColumn :=
    Column.mk newColId
      (if truthy_opt customPrompt then default EmptyString customPrompt
       else substring 0 20 selectedText +:+ "...")
      (Some sourceColumnId) (Some sourceMessageId) (Some selectedText)
      [] EmptyString false false in
  let st1 := setColumns st (App.columns st ++ [newColumn]) in
  let st2 := setSelectedColumnId st1 newColId in
  let initialPrompt :=
    if truthy_opt customPrompt then default EmptyString customPrompt
    else "Tell me more about " +:+ dquote +:+ selectedText +:+ dquote
         +:+ " in the context of our previous conversation." in
  (st2, initialPrompt).

(** ** components/MessageBubble.tsx and ChatColumn.tsx: the branch request *)

Module Selection.
Record t := mk { x : Q; y : Q; text : string }.
End Selection.

(** What the handler reads from [window.getSelection()]. *)
Module WindowSelection.
Record t := mk {
  rangeCount : nat;
  toString : string;
  anchorInText : bool;
  rectLeft : Q;
  rectTop : Q;
  rectWidth : Q
}.
End WindowSelection.

Module Bubble.
Record t := mk {
  selection : option Selection.t;
  inputMode : bool;
  customQuery : string
}.
End Bubble.

(** [onBranch] as [ChatColumn] wires it to [handleBranch]:
    column id, message id, text, custom prompt. *)
Module BranchRequest.
Record t := mk {
  sourceColumnId : string;
  sourceMessageId : string;
  selectedText : string;
  customPrompt : option string
}.
End BranchRequest.

Definition bubble_handleMouseUp (b : Bubble.t) (ws : option WindowSelection.t)
    : Bubble.t :=
  match ws with
  | None => b
  | Some ws =>
      if (WindowSelection.rangeCount ws =? 0)%nat then b
      else
        let text := trim (WindowSelection.toString ws) in
        if (0 <? String.length text)%nat && WindowSelection.anchorInText ws then
          Bubble.mk
            (Some (Selection.mk
                     (WindowSelection.rectLeft ws + WindowSelection.rectWidth ws / 2)
                     (WindowSelection.rectTop ws) text))
            false EmptyString
        else b
  end.

Definition clearSelection (b : Bubble.t) (insideTooltip : bool) : Bubble.t :=
  if insideTooltip then b
  else Bubble.mk None (Bubble.inputMode b) (Bubble.customQuery b).

Definition handleDeepDive (b : Bubble.t) (columnId : string) (message : Message.t)
    : Bubble.t * option BranchRequest.t :=
  match Bubble.selection b with
  | Some sel =>
      (Bubble.mk None (Bubble.inputMode b) (Bubble.customQuery b),
       Some (BranchRequest.mk columnId (Message.id message) (Selection.text sel) None))
  | None => (b, None)
  end.

Definition handleCustomAskSubmit (b : Bubble.t) (columnId : string)
    (message : Message.t) : Bubble.t * option BranchRequest.t :=
  match Bubble.selection b with
  | Some sel =>
      if truthy (trim (Bubble.customQuery b)) then
        (Bubble.mk None (Bubble.inputMode b) (Bubble.customQuery b),
         Some (BranchRequest.mk columnId (Message.id message) (Selection.text sel)
                 (Some (Bubble.customQuery b))))
      else (b, None)
  | None => (b, None)
  end.


(** The states a message bubble can be in: it starts without a selection and
    changes through its handlers only. *)
Inductive bubble_reachable : Bubble.t → Prop :=
  | br_init : bubble_reachable (Bubble.mk None false EmptyString)
  | br_mouseUp b ws :
      bubble_reachable b → bubble_reachable (bubble_handleMouseUp b ws)
  | br_clear b inside :
      bubble_reachable b → bubble_reachable (clearSelection b inside)
  | br_inputMode b v :
      bubble_reachable b →
      bubble_reachable (Bubble.mk (Bubble.selection b) v (Bubble.customQuery b))
  | br_customQuery b q :
      bubble_reachable b →
      bubble_reachable (Bubble.mk (Bubble.selection b) (Bubble.inputMode b) q)
  | br_deepDive b columnId message :
      bubble_reachable b →
      bubble_reachable (fst (handleDeepDive b columnId message))
  | br_customAsk b columnId message :
      bubble_reachable b →
      bubble_reachable (fst (handleCustomAskSubmit b columnId message)).

(** ** services/geminiService.ts: context linearizer *)

Module HistoryItem.
Record t := mk { role : Role; parts : list string }.
End HistoryItem.

(** The [while (currentId)] loop of [buildHistoryForColumn]; [path] is built
    by [unshift], so it reads root first.  [None]: out of fuel. *)
Fixpoint walk (fuel : nat) (columns : list Column.t)
    (currentId : option string) (path : list Column.t)
    : option (list Column.t) :=
  match currentId with
  | Some cid =>
      if truthy cid then
        match fuel with
        | O => None
        | S fuel' =>
            match find_col cid columns with
            | Some col => walk fuel' columns (Column.parentId col) (col :: path)
            | None => Some path
            end
        end
      else Some path
  | None => Some path
  end.

Definition history_of (msg : Message.t) : HistoryItem.t :=
  HistoryItem.mk (Message.role msg) [Message.text msg].

Definition branch_notice (snippet : string) : HistoryItem.t :=
  HistoryItem.mk user
    ["I want to branch off and discuss specifically about: "
       +:+ dquote +:+ snippet +:+ dquote].

(** The body of [path.forEach((col, index) => ...)]: what one column of the
    path pushes onto [history]. *)
Definition pushed (path : list Column.t) (index : nat) (col : Column.t)
    : list HistoryItem.t :=
  let isTarget := (index =? length path - 1)%nat in
  let relevantMessages :=
    if negb isTarget && (index + 1 <? length path)%nat then
      match path !! (index + 1)%nat with
      | Some nextCol =>
          match findIndex
                  (λ m, strict_eq (Some (Message.id m)) (Column.parentMessageId nextCol))
                  (Column.messages col) with
          | Some branchIndex => slice0 (branchIndex + 1) (Column.messages col)
          | None => Column.messages col
          end
      | None => Column.messages col
      end
    else Column.messages col in
  (history_of <$> relevantMessages) ++
  (if negb isTarget && (index + 1 <? length path)%nat then
     match path !! (index + 1)%nat with
     | Some nextCol =>
         match Column.contextSnippet nextCol with
         | Some snippet => if truthy snippet then [branch_notice snippet] else []
         | None => []
         end
     | None => []
     end
   else []).

Definition buildHistoryForColumn (fuel : nat) (targetColumnId : string)
    (columns : list Column.t) : option (list HistoryItem.t) :=
  path ← walk fuel columns (Some targetColumnId) [];
  Some (concat (imap (pushed path) path)).

(** *** The linearized context, as the specification words it *)

(** The prefix of a message list that ends at, and includes, the first
    message with the given id; the whole list when no message has it. *)
Fixpoint prefix_through (mid : string) (msgs : list Message.t) : list Message.t :=
  match msgs with
  | [] => []
  | m :: rest =>
      if String.eqb (Message.id m) mid then [m]
      else m :: prefix_through mid rest
  end.

(** The fork span of a column, when it has one. *)
Definition fork_span (c : Column.t) : option string :=
  match Column.contextSnippet c with
  | Some s => if truthy s then Some s else None
  | None => None
  end.

(** A message of the context: the role and the text of the message, the
    text as its only part. *)
Definition context_item (m : Message.t) : HistoryItem.t :=
  {| HistoryItem.role := Message.role m; HistoryItem.parts := [Message.text m] |}.

(** The synthetic message of a transition: a user-role message whose only
    part is the sentence that quotes the fork span. *)
Definition transition_message (span : string) : HistoryItem.t :=
  {| HistoryItem.role := user;
     HistoryItem.parts :=
       ["I want to branch off and discuss specifically about: "
          +:+ String "034"%char (span +:+ String "034"%char EmptyString)] |}.

(** Root-to-target: every ancestor gives its prefix up to the next node's
    fork point and then the transition message for the next node's fork
    span; the target gives all its messages. *)
Fixpoint linearized (path : list Column.t) : list HistoryItem.t :=
  match path with
  | [] => []
  | col :: rest =>
      match rest with
      | [] => context_item <$> Column.messages col
      | next :: _ =>
          (context_item <$>
             match Column.parentMessageId next with
             | Some mid => prefix_through mid (Column.messages col)
             | None => Column.messages col
             end)
          ++ match fork_span next with
             | Some span => [transition_message span]
             | None => []
             end
          ++ linearized rest
      end
  end.

(** [path] is the root-to-target path of [target] and it resolves: every
    step finds its column under a proper (non-empty) id, the first column
    is a root, and every [parentMessageId] names a message of the parent. *)
Inductive resolved_path (columns : list Column.t)
    : string → list Column.t → Prop :=
  | resolved_root target c :
      truthy target = true →
      find_col target columns = Some c →
      Column.parentId c = None →
      resolved_path columns target [c]
  | resolved_step target c p mid parent above :
      truthy target = true →
      find_col target columns = Some c →
      Column.parentId c = Some p →
      resolved_path columns p (above ++ [parent]) →
      Column.parentMessageId c = Some mid →
      mid ∈ (Message.id <$> Column.messages parent) →
      resolved_path columns target (above ++ [parent; c]).

(** ** Sample data: the tree of the specification's linearization example *)

Module Sample.
Definition u1 := Message.mk "u1" user "What is a monad?" 1.
Definition a1 := Message.mk "a1" model "A monoid in the category of X." 2.
Definition u2 := Message.mk "u2" user "And a functor?" 3.
Definition a2 := Message.mk "a2" model "A structure-preserving map." 4.
Definition u3 := Message.mk "u3" user "Tell me more." 5.
Definition a3 := Message.mk "a3" model "X is short for endofunctors." 6.

Definition root : Column.t :=
  Column.mk "root" "Root" None None None [u1; a1; u2; a2] EmptyString false false.

Definition B : Column.t :=
  Column.mk "B" "X..." (Some "root") (Some "a1") (Some "X") [u3; a3]
    EmptyString false false.

Definition tree : list Column.t := [root; B].

Definition B_thinking : Column.t :=
  Column.mk "B" "X..." (Some "root") (Some "a1") (Some "X") [u3]
    EmptyString true false.

Definition state : App.t :=
  App.mk true tree "B" "next question" ∅ (Vec.mk 100 0) 1 None ∅.

Definition state_thinking : App.t :=
  App.mk true [root; B_thinking] "B" "next question" ∅ (Vec.mk 100 0) 1 None ∅.

Definition down : MouseEvent.t := MouseEvent.mk 10 20.
Definition move1 : MouseEvent.t := MouseEvent.mk 17 23.
Definition move2 : MouseEvent.t := MouseEvent.mk 40 60.
Definition wheel : WheelEvent.t := WheelEvent.mk (-500) 300 200.
End Sample.


Module SampleBubble.
(** A bubble with nothing selected. *)
Definition idle : Bubble.t := Bubble.mk None false EmptyString.
End SampleBubble.


(** Along a path, every column's [parentMessageId] names a message of the
    column before it. *)
Fixpoint msg_linked (path : list Column.t) : Prop :=
  match path with
  | [] => True
  | col :: rest =>
      match rest with
      | [] => True
      | next :: _ =>
          (∃ mid, Column.parentMessageId next = Some mid ∧
                  mid ∈ (Message.id <$> Column.messages col))
          ∧ msg_linked rest
      end
  end.


(** ** What the layout guarantees *)

(** The height the layout uses for a node. *)
Definition height_of (nodeHeights : gmap string Q) (k : string) : Q :=
  num_or (nodeHeights !! k) NODE_DEFAULT_HEIGHT.

(** Measured heights are never negative. *)
Definition measured (nodeHeights : gmap string Q) : Prop :=
  map_Forall (λ _ v, (0 <= v)%Q) nodeHeights.

(** The x of the column [e] levels to the right. *)
Fixpoint column_x (e : nat) : Q :=
  match e with
  | O => 0
  | S e' => (column_x e' + NODE_WIDTH + NODE_GAP_X)%Q
  end.

(** Two rectangles with the vertical gap between them. *)
Definition separated (p1 p2 : Pos.t) : Prop :=
  (rect_bottom p1 + NODE_GAP_Y <= rect_top p2)%Q ∨
  (rect_bottom p2 + NODE_GAP_Y <= rect_top p1)%Q.

(** Two rectangles overlap vertically: their open vertical extents meet. *)
Definition overlap_vertically (p1 p2 : Pos.t) : Prop :=
  (rect_top p1 < rect_bottom p2)%Q ∧ (rect_top p2 < rect_bottom p1)%Q.

(** [k] lies in the subtree of one of the nodes [rs]. *)
Definition within (columns : list Column.t) (rs : list string) (k : string) : Prop :=
  ∃ r, r ∈ rs ∧ in_subtree columns r k.

(** [b] is the bottom of the entire subtree of [a]: the largest bottom
    edge among the rectangles of [a] and its descendants. *)
Definition subtree_bottom (columns : list Column.t) (layout : gmap string Pos.t)
    (a : string) (b : Q) : Prop :=
  (∀ k p, in_subtree columns a k → layout !! k = Some p → (rect_bottom p <= b)%Q) ∧
  (∃ k p, in_subtree columns a k ∧ layout !! k = Some p ∧ rect_bottom p == b).

(** [r2] starts where the entire subtree of [r1] ends, plus the gap. *)
Definition stacked_after (columns : list Column.t) (layout : gmap string Pos.t)
    (r1 r2 : string) : Prop :=
  ∃ b p2, subtree_bottom columns layout r1 b ∧ layout !! r2 = Some p2 ∧
          rect_top p2 == (b + NODE_GAP_Y)%Q.

(** Every node of the list is stacked after the one before it. *)
Definition siblings_stacked (columns : list Column.t) (layout : gmap string Pos.t)
    (rs : list string) : Prop :=
  ∀ i r1 r2, rs !! i = Some r1 → rs !! S i = Some r2 →
    stacked_after columns layout r1 r2.

(** The children of [k] are stacked, the first one level with [k]. *)
Definition children_stacked (columns : list Column.t) (layout : gmap string Pos.t)
    (k : string) : Prop :=
  siblings_stacked columns layout (ids (getChildren columns (Some k))) ∧
  ∀ c0 rest, getChildren columns (Some k) = c0 :: rest →
    ∃ p0 pk, layout !! Column.id c0 = Some p0 ∧ layout !! k = Some pk ∧
             rect_top p0 == rect_top pk.

(** The layout of the subtrees of the sibling nodes [rs], placed in column
    [x] from [top] on, the running top ending at [top']. *)
Definition forest_placed (columns : list Column.t) (nodeHeights : gmap string Q)
    (rs : list string) (x top top' : Q) (layout : gmap string Pos.t) : Prop :=
  (∀ r k e, r ∈ rs → ancestor_at columns e k = Some r →
     ∃ p, layout !! k = Some p ∧ Pos.x p == (x + column_x e)%Q ∧
          Pos.height p = height_of nodeHeights k ∧
          (top <= rect_top p)%Q ∧ (rect_bottom p + NODE_GAP_Y <= top')%Q) ∧
  (∀ k1 k2 p1 p2, within columns rs k1 → within columns rs k2 →
     unrelated columns k1 k2 →
     layout !! k1 = Some p1 → layout !! k2 = Some p2 → separated p1 p2) ∧
  (top <= top')%Q ∧
  (rs = [] → top' == top) ∧
  (∀ r0 rest, rs = r0 :: rest →
     ∃ p, layout !! r0 = Some p ∧ rect_top p == top) ∧
  (∀ pre rl, rs = pre ++ [rl] →
     ∃ k p, in_subtree columns rl k ∧ layout !! k = Some p ∧
            (rect_bottom p + NODE_GAP_Y)%Q == top') ∧
  siblings_stacked columns layout rs ∧
  (∀ k, within columns rs k → children_stacked columns layout k).

(** What placing the subtrees of [rs] changes in the layout map: entries
    within the subtrees, nothing else. *)
Definition frame (columns : list Column.t) (rs : list string)
    (before after : gmap string Pos.t) : Prop :=
  (∀ k, ¬ within columns rs k → after !! k = before !! k) ∧
  (∀ k, is_Some (after !! k) → is_Some (before !! k) ∨ within columns rs k).


(** What a call of [positionNode] on [a] at [top] reports: the bottom of the
    entire subtree of [a], which is the node's own bottom for a leaf and
    otherwise the larger of the node's own bottom and the bottom of the
    last child's subtree. *)
Definition reports_bottom (columns : list Column.t) (nodeHeights : gmap string Q)
    (a : string) (top bot : Q) (layout : gmap string Pos.t) : Prop :=
  subtree_bottom columns layout a bot ∧
  (getChildren columns (Some a) = [] → bot == (top + height_of nodeHeights a)%Q) ∧
  (∀ pre cl, getChildren columns (Some a) = pre ++ [cl] →
     ∃ bl, subtree_bottom columns layout (Column.id cl) bl ∧
           bot == Qmax (top + height_of nodeHeights a) bl).


(** Every node of the subtrees of [rs] has a layout entry. *)
Definition covered (columns : list Column.t) (rs : list string)
    (layout : gmap string Pos.t) : Prop :=
  ∀ k, within columns rs k → is_Some (layout !! k).


(** Rectangles of unrelated nodes in one column (same x) do not overlap
    vertically. *)
Definition no_overlap (columns : list Column.t) (layout : gmap string Pos.t) : Prop :=
  ∀ a b pa pb, layout !! a = Some pa → layout !! b = Some pb →
    unrelated columns a b → Pos.x pa == Pos.x pb →
    ¬ overlap_vertically pa pb.

Module SampleLayout.
(** A root with two children, the first of which has a child of its own,
    and a height map that leaves one node unmeasured. *)
Definition col (id : string) (parent : option string) : Column.t :=
  Column.mk id id parent (option_map (λ _, "m") parent)
    (option_map (λ _, "span") parent) [] EmptyString false false.

Definition columns : list Column.t :=
  [col "r" None; col "a" (Some "r"); col "b" (Some "r"); col "a1" (Some "a")].

Definition nodeHeights : gmap string Q :=
  <["r" := 300%Q]> (<["a" := 100%Q]> (<["a1" := 400%Q]> ∅)).

(** A list with a column whose parent is missing and two columns that are
    each other's parent. *)
Definition broken : list Column.t :=
  [col "r" None; col "o" (Some "ghost"); col "p" (Some "q"); col "q" (Some "p")].
End SampleLayout.


Module SampleClose.
(** The sample tree with the grandchild selected, a measured height and a
    manual offset for it. *)
Definition tree_state : App.t :=
  App.mk true SampleLayout.columns "a1" EmptyString
    SampleLayout.nodeHeights (Vec.mk 0 0) 1 None
    (<["a1" := Vec.mk 5 5]> (<["b" := Vec.mk 1 1]> ∅)).
End SampleClose.

(** ** Proof automation *)

(** Replace every [Qmax]/[Qmin] of the goal by a variable constrained by
    its specification, then decide the linear problem. *)
Ltac minmax_lra :=
  repeat match goal with
  | |- context [Qmax ?a ?b] =>
      let H := fresh "Hmax" in
      let m := fresh "m" in
      pose proof (Q.max_spec a b) as H; set (m := Qmax a b) in *; clearbody m
  | |- context [Qmin ?a ?b] =>
      let H := fresh "Hmin" in
      let m := fresh "m" in
      pose proof (Q.min_spec a b) as H; set (m := Qmin a b) in *; clearbody m
  end;
  lra.

(** Unfold the layout constants and rectangle edges, and write halves as
    multiplications, for linear arithmetic. *)
Ltac unfold_layout_constants :=
  unfold rect_top, rect_bottom, separated, NODE_GAP_Y, NODE_GAP_X, NODE_WIDTH in *;
  cbn [Pos.x Pos.y Pos.height] in *;
  unfold Qdiv in *; change (/ 2)%Q with (1 # 2)%Q in *.


(** ** App.tsx: the rest of the viewport controller *)

(** [handleNodeResize]: the updater given to [setNodeHeights]. *)
Definition handleNodeResize (prev : gmap string Q) (id : string) (height : Q)
    : gmap string Q :=
  if Qlt_le_dec (Qabs (num_or (prev !! id) 0 - height)) 2 then prev
  else <[id := height]> prev.

(** [focusNode]; [viewport] is [viewportRef.current] with its [clientWidth]
    and [clientHeight], [layout] the layout state. *)
Definition focusNode (st : App.t) (layout : gmap string Pos.t)
    (viewport : option (Q * Q)) (nodeId : string) : App.t :=
  match layout !! nodeId, viewport with
  | Some pos, Some (viewportW, viewportH) =>
      let offset := offset_or_zero (App.nodeOffsets st) nodeId in
      let finalX := (Pos.x pos + Vec.x offset)%Q in
      let finalY := (Pos.y pos + Vec.y offset)%Q in
      let scale := App.scale st in
      let targetX := (viewportW / 2 - finalX * scale - (NODE_WIDTH / 2) * scale)%Q in
      let targetY := (viewportH / 2 - finalY * scale)%Q in
      setPan st (Vec.mk targetX targetY)
  | _, _ => st
  end.

(** The auto-focus effect, run when the selection, [hasStarted] or the
    layout changes. *)
Definition autoFocus (st : App.t) (layout : gmap string Pos.t)
    (viewport : option (Q * Q)) : App.t :=
  if App.hasStarted st && (0 <? length (App.columns st))%nat then
    match App.dragRef st with
    | None => focusNode st layout viewport (App.selectedColumnId st)
    | Some _ => st
    end
  else st.

(** The pointer, wheel and zoom-button events of the canvas. *)
Inductive ViewportEvent :=
  | MouseDown (e : MouseEvent.t) (button : Z) (onColumn : bool)
  | NodeDragStart (e : MouseEvent.t) (columnId : string)
  | MouseMove (e : MouseEvent.t)
  | MouseUp
  | Wheel (e : WheelEvent.t)
  | ZoomOut
  | ZoomIn.

Definition viewport_step (st : App.t) (ev : ViewportEvent) : App.t :=
  match ev with
  | MouseDown e button onColumn => handleMouseDown st e button onColumn
  | NodeDragStart e columnId => handleNodeDragStart st e columnId
  | MouseMove e => handleMouseMove st e
  | MouseUp => handleMouseUp st
  | Wheel e => handleWheel st e
  | ZoomOut => zoomOutClick st
  | ZoomIn => zoomInClick st
  end.


(** ** The tree store as a whole *)

(** The tree shape of a column list: ids and parent links, in order. *)
Definition shape (columns : list Column.t) : list (string * option string) :=
  (λ c, (Column.id c, Column.parentId c)) <$> columns.

(** The invariant of the tree store: unique ids, every parent present, no
    cycle. *)
Definition well_formed (columns : list Column.t) : Prop :=
  NoDup (ids columns) ∧ parents_exist columns ∧ acyclic columns.

(** The four updaters that rewrite columns in place. *)
Inductive StoreOp :=
  | AddMessage (columnId : string) (message : Message.t)
  | UpdateLast (columnId : string) (textChunk : string)
  | SetThinking (columnId : string) (isThinking : bool)
  | ToggleCollapse (columnId : string).

Definition apply_op (columns : list Column.t) (op : StoreOp) : list Column.t :=
  match op with
  | AddMessage columnId message => addMessageToColumn columnId message columns
  | UpdateLast columnId textChunk => updateLastMessage columnId textChunk columns
  | SetThinking columnId isThinking => setThinking columnId isThinking columns
  | ToggleCollapse columnId => handleToggleCollapse columnId columns
  end.

(** Message by message, the second list keeps ids, roles and timestamps of
    the first, and every text of the first is a prefix of the text in the
    second. *)
Definition texts_grow (before after : list Message.t) : Prop :=
  Forall2 (λ m m', Message.id m' = Message.id m ∧
                   Message.role m' = Message.role m ∧
                   Message.timestamp m' = Message.timestamp m ∧
                   String.prefix (Message.text m) (Message.text m') = true)
          before after.


(** The message list with [textChunk] appended to the text of its last
    message when that message is a model message. *)
Fixpoint append_to_last (textChunk : string) (msgs : list Message.t)
    : list Message.t :=
  match msgs with
  | [] => []
  | m :: rest =>
      match rest with
      | [] => if bool_decide (Message.role m = model)
              then [append_text m textChunk] else [m]
      | _ :: _ => m :: append_to_last textChunk rest
      end
  end.


(** ** App.tsx and geminiService.ts: one exchange with the model *)

Definition op_target (op : StoreOp) : string :=
  match op with
  | AddMessage columnId _ => columnId
  | UpdateLast columnId _ => columnId
  | SetThinking columnId _ => columnId
  | ToggleCollapse columnId => columnId
  end.

Definition error_notice : string :=
  String (ascii_of_nat 10) (String (ascii_of_nat 10)
    "[Error: Unable to fetch response. Please check your connection or API key.]").

(** The [try]/[catch] of [streamGeminiResponse], as the sequence of its
    [onChunk] calls: [chunks] are the [chunk.text] values the stream yields
    before it ends or throws ([None] for [undefined]), [failed] tells whether
    it throws. *)
Definition streamGeminiResponse (chunks : list (option string)) (failed : bool)
    : list string :=
  omap (λ text, match text with
                | Some t => if truthy t then Some t else None
                | None => None
                end) chunks
  ++ (if failed then [error_notice] else []).

(** The [setTimeout] callback that a submission leaves behind, as the store
    updates it performs: the empty model message, one [updateLastMessage]
    per [onChunk] call and, in [finally], the reset of the thinking flag. *)
Definition run_deferred (d : Deferred.t) (chunks : list (option string))
    (failed : bool) : list StoreOp :=
  AddMessage (Deferred.columnId d) (Deferred.modelMsg d)
  :: (UpdateLast (Deferred.columnId d) <$> streamGeminiResponse chunks failed)
  ++ [SetThinking (Deferred.columnId d) false].


(** What an update does to a column it is addressed to. *)
Definition op_on (op : StoreOp) (col : Column.t) : Column.t :=
  match op with
  | AddMessage _ message =>
      set_messages col (Column.messages col ++ [message])
        (if (length (Column.messages col) =? 0)%nat
            && bool_decide (Message.role message = user)
            && negb (truthy_opt (Column.parentId col))
         then if (30 <? String.length (Message.text message))%nat
              then substring 0 30 (Message.text message) +:+ "..."
              else Message.text message
         else Column.title col)
  | UpdateLast _ textChunk =>
      set_messages col (append_to_last textChunk (Column.messages col))
        (Column.title col)
  | SetThinking _ isThinking => set_isThinking col isThinking
  | ToggleCollapse _ => set_isCollapsed col (negb (Column.isCollapsed col))
  end.

(** One update, seen from one column. *)
Definition op_step (col : Column.t) (op : StoreOp) : Column.t :=
  if String.eqb (Column.id col) (op_target op) then op_on op col else col.


(** ** App.tsx: the minimap *)

Module Rect.
Record t := mk { left : Q; top : Q; width : Q; height : Q }.
End Rect.

Module MinimapView.
Record t := mk { nodes : list (string * Rect.t); viewport : Rect.t }.
End MinimapView.

(** Left edge and top edge of a node of the layout in the world, as the
    minimap computes them. *)
Definition minimap_xy (nodeOffsets : gmap string Vec.t) (e : string * Pos.t) : Q * Q :=
  let offset := offset_or_zero nodeOffsets (fst e) in
  ((Pos.x (snd e) + Vec.x offset)%Q,
   (Pos.y (snd e) + Vec.y offset - Pos.height (snd e) / 2)%Q).

(** One round of [layout.forEach] over [minX, maxX, minY, maxY].  [None]
    stands for the initial [Infinity, -Infinity, Infinity, -Infinity], on
    which [Math.min] and [Math.max] return their other argument. *)
Definition bounds_step (nodeOffsets : gmap string Vec.t)
    (acc : option (Q * Q * Q * Q)) (e : string * Pos.t) : option (Q * Q * Q * Q) :=
  let '(x, y) := minimap_xy nodeOffsets e in
  match acc with
  | None => Some (x, (x + NODE_WIDTH)%Q, y, (y + Pos.height (snd e))%Q)
  | Some (minX, maxX, minY, maxY) =>
      Some (Qmin minX x, Qmax maxX (x + NODE_WIDTH)%Q,
            Qmin minY y, Qmax maxY (y + Pos.height (snd e))%Q)
  end.

(** [Minimap], with the layout given by its entries in iteration order.
    [None]: the component renders nothing. *)
Definition Minimap (layout : list (string * Pos.t)) (nodeOffsets : gmap string Vec.t)
    (pan : Vec.t) (scale : Q) (viewportSize : Q * Q) : option MinimapView.t :=
  match foldl (bounds_step nodeOffsets) None layout with
  | None => None
  | Some (minX0, maxX0, minY0, maxY0) =>
      let padding : Q := 500%Q in
      let minX := (minX0 - padding)%Q in
      let maxX := (maxX0 + padding)%Q in
      let minY := (minY0 - padding)%Q in
      let maxY := (maxY0 + padding)%Q in
      let worldW := (maxX - minX)%Q in
      let worldH := (maxY - minY)%Q in
      let mapW : Q := 200%Q in
      let mapH : Q := 150%Q in
      let ratioX := (mapW / worldW)%Q in
      let ratioY := (mapH / worldH)%Q in
      let ratio := Qmin ratioX ratioY in
      let renderW := (worldW * ratio)%Q in
      let renderH := (worldH * ratio)%Q in
      let offsetX := ((mapW - renderW) / 2)%Q in
      let offsetY := ((mapH - renderH) / 2)%Q in
      let vpWorldX := (- Vec.x pan / scale)%Q in
      let vpWorldY := (- Vec.y pan / scale)%Q in
      let vpWorldW := (fst viewportSize / scale)%Q in
      let vpWorldH := (snd viewportSize / scale)%Q in
      Some (MinimapView.mk
              ((λ e, let '(x, y) := minimap_xy nodeOffsets e in
                     (fst e,
                      Rect.mk (offsetX + (x - minX) * ratio)%Q
                              (offsetY + (y - minY) * ratio)%Q
                              (NODE_WIDTH * ratio)%Q
                              (Pos.height (snd e) * ratio)%Q)) <$> layout)
              (Rect.mk (offsetX + (vpWorldX - minX) * ratio)%Q
                       (offsetY + (vpWorldY - minY) * ratio)%Q
                       (vpWorldW * ratio)%Q
                       (vpWorldH * ratio)%Q))
  end.


(** ** App.tsx: the application as a transition system *)

Definition setHasStarted (st : App.t) (v : bool) : App.t :=
  App.mk v (App.columns st) (App.selectedColumnId st) (App.globalInput st)
    (App.nodeHeights st) (App.pan st) (App.scale st) (App.dragRef st)
    (App.nodeOffsets st).

(** The state of the first render; [rootId] is the [uuidv4()] of the root. *)
Definition initial (rootId : string) : App.t :=
  App.mk false
    [Column.mk rootId "Root" None None None [] EmptyString false false]
    rootId EmptyString ∅ (Vec.mk 0 0) 1 None ∅.

(** [startSession]; [columns[0].id] throws on an empty column list. *)
Definition startSession (st : App.t) (landingInput uuid1 uuid2 : string)
    (now1 now2 : Z) : Completion (App.t * option Deferred.t) :=
  if negb (truthy (trim landingInput)) then Normal (st, None)
  else
    let st1 := setHasStarted st true in
    let st2 := setPan st1 (Vec.mk 0 0) in
    match App.columns st with
    | [] => TypeError
    | c0 :: _ =>
        let rootId := Column.id c0 in
        let userMsg := Message.mk uuid1 user landingInput now1 in
        let st3 := setColumns st2 (addMessageToColumn rootId userMsg (App.columns st2)) in
        let st4 := setColumns st3 (setThinking rootId true (App.columns st3)) in
        let modelMsg := Message.mk uuid2 model EmptyString now2 in
        Normal (st4, Some (Deferred.mk rootId modelMsg landingInput (App.columns st)))
    end.

(** The Reset button: [setHasStarted(false); setColumns([columns[0]]);
    setGlobalInput('')].  [None]: the column list was empty and the new list
    holds [undefined]. *)
Definition resetClick (st : App.t) : option App.t :=
  match App.columns st with
  | c0 :: _ =>
      Some (setGlobalInput (setColumns (setHasStarted st false) [c0]) EmptyString)
  | [] => None
  end.

(** One event of the running application.  The nodes layer offers a
    callback only for a column of the list, and [onClose] only for a column
    with a parent; the callbacks of a stream and of the timers are store
    updates; a new column gets an id that no column has. *)
Inductive ui_step : App.t → App.t → Prop :=
  | step_start st landingInput uuid1 uuid2 now1 now2 st' d :
      startSession st landingInput uuid1 uuid2 now1 now2 = Normal (st', d) →
      ui_step st st'
  | step_reset st st' :
      resetClick st = Some st' → ui_step st st'
  | step_type st input :
      ui_step st (setGlobalInput st input)
  | step_select st col :
      col ∈ App.columns st →
      ui_step st (setSelectedColumnId st (Column.id col))
  | step_submit st uuid1 uuid2 now1 now2 st' d :
      handleGlobalSubmit st uuid1 uuid2 now1 now2 = (st', d) →
      ui_step st st'
  | step_branch st col newColId sourceMessageId selectedText customPrompt :
      col ∈ App.columns st →
      newColId ∉ ids (App.columns st) →
      ui_step st (fst (handleBranch st newColId (Column.id col) sourceMessageId
                         selectedText customPrompt))
  | step_close st col fuel st' :
      col ∈ App.columns st →
      onClose_offered col = true →
      handleCloseColumn fuel st (Column.id col) = Some (Normal st') →
      ui_step st st'
  | step_store st op :
      ui_step st (setColumns st (apply_op (App.columns st) op))
  | step_resize st id height :
      ui_step st (setNodeHeights st (handleNodeResize (App.nodeHeights st) id height))
  | step_focus st layout viewport nodeId :
      ui_step st (focusNode st layout viewport nodeId)
  | step_viewport st ev :
      ui_step st (viewport_step st ev).

Inductive reachable : App.t → Prop :=
  | reachable_initial rootId : reachable (initial rootId)
  | reachable_step st st' : reachable st → ui_step st st' → reachable st'.

(** The first column is a root. *)
Definition root_first (columns : list Column.t) : Prop :=
  ∃ c0 rest, columns = c0 :: rest ∧ Column.parentId c0 = None.


(** ** App.tsx: connector lines *)

(** A connector.  [path] holds the numbers of the SVG path
    [M start C cp1, cp2, end]: start point, the two control points, end
    point. *)
Module ConnectorLine.
Record t := mk {
  id : string;
  path : (Q * Q) * (Q * Q) * (Q * Q) * (Q * Q);
  startX : Q;
  startY : Q;
  endX : Q;
  endY : Q
}.
End ConnectorLine.

(** [calculateLines].  What it reads from the DOM is given: [contentRect]
    is the left and top of [contentRef.current.getBoundingClientRect()]
    ([None]: no element), and [sourceVisual id] the [visualTop] and
    [visualRight] measured on the element [source-<id>] ([None]: no such
    element).  [None]: the function returns before [setLines]. *)
Definition calculateLines (layout : gmap string Pos.t) (columns : list Column.t)
    (nodeOffsets : gmap string Vec.t) (scale : Q)
    (contentRect : option (Q * Q)) (sourceVisual : string → option (Q * Q))
    : option (list ConnectorLine.t) :=
  if (size layout =? 0)%nat then None
  else
    Some
      (omap
         (λ col,
            match Column.parentId col with
            | Some parentId =>
                if truthy parentId then
                  match layout !! Column.id col, layout !! parentId with
                  | Some pos, Some parentPos =>
                      let childOffset := offset_or_zero nodeOffsets (Column.id col) in
                      let parentOffset := offset_or_zero nodeOffsets parentId in
                      let finalChildX := (Pos.x pos + Vec.x childOffset)%Q in
                      let finalChildY := (Pos.y pos + Vec.y childOffset)%Q in
                      let finalParentX := (Pos.x parentPos + Vec.x parentOffset)%Q in
                      let finalParentY := (Pos.y parentPos + Vec.y parentOffset)%Q in
                      let '(startX, startY) :=
                        match contentRect with
                        | Some (contentLeft, contentTop) =>
                            match sourceVisual (Column.id col) with
                            | Some (visualTop, visualRight) =>
                                (((visualRight - contentLeft) / scale + 5)%Q,
                                 ((visualTop - contentTop) / scale)%Q)
                            | None =>
                                ((finalParentX + NODE_WIDTH)%Q,
                                 (finalParentY - Pos.height parentPos / 2 + 24)%Q)
                            end
                        | None => ((finalParentX + NODE_WIDTH)%Q, finalParentY)
                        end in
                      let endX := finalChildX in
                      let endY := finalChildY in
                      let dist := Qabs (endX - startX) in
                      let cp1X := (startX + dist * 0.5)%Q in
                      let cp2X := (endX - dist * 0.5)%Q in
                      Some (ConnectorLine.mk (Column.id col)
                              ((startX, startY), (cp1X, startY), (cp2X, endY),
                               (endX, endY))
                              startX startY endX endY)
                  | _, _ => None
                  end
                else None
            | None => None
            end)
         columns).


(** ** components/MessageBubble.tsx: highlighting the fork spans *)

Module Match.
Record t := mk { start : nat; end_ : nat; colId : string }.
End Match.

(** A rendered part: plain text, or the [span] with id [source-<colId>]. *)
Inductive Part :=
  | Plain (text : string)
  | Highlight (colId : string) (text : string).

(** [text.slice(a, b)] for [a <= b]. *)
Definition slice (text : string) (a b : nat) : string := substring a (b - a) text.

(** [text.indexOf(snippet, from)] for a non-empty [snippet]. *)
Definition indexOf (text snippet : string) (from : nat) : option nat :=
  String.index from snippet text.

(** The [matches.some(...)] test of the match at [idx] with length [len]. *)
Definition isOverlapping (idx len : nat) (matches : list Match.t) : bool :=
  existsb
    (λ m, ((Match.start m <=? idx) && (idx <? Match.end_ m)
           || (Match.start m <? idx + len) && (idx + len <=? Match.end_ m))%nat)
    matches.

(** The [while (idx !== -1)] loop over the occurrences of one snippet.
    [None]: out of fuel. *)
Fixpoint scan (fuel : nat) (text snippet colId : string) (idx : option nat)
    (matches : list Match.t) : option (list Match.t) :=
  match idx with
  | None => Some matches
  | Some i =>
      match fuel with
      | O => None
      | S fuel' =>
          let matches' :=
            if isOverlapping i (String.length snippet) matches then matches
            else matches ++ [Match.mk i (i + String.length snippet) colId] in
          scan fuel' text snippet colId (indexOf text snippet (i + 1)) matches'
      end
  end.

(** The snippet a child column is searched by, if any:
    [col.contextSnippet.trim()], when both it and the untrimmed snippet are
    non-empty. *)
Definition effective_snippet (col : Column.t) : option string :=
  match Column.contextSnippet col with
  | Some s =>
      if truthy s then
        let snippet := trim s in
        if truthy snippet then Some snippet else None
      else None
  | None => None
  end.

(** [childColumns.forEach(col => ...)]. *)
Definition collect (fuel : nat) (text : string) (childColumns : list Column.t)
    : option (list Match.t) :=
  foldl (λ acc col,
           matches ← acc;
           match effective_snippet col with
           | Some snippet =>
               scan fuel text snippet (Column.id col) (indexOf text snippet 0) matches
           | None => Some matches
           end)
        (Some []) childColumns.

(** [matches.sort((a, b) => a.start - b.start)], a stable sort. *)
Fixpoint insert_by_start (m : Match.t) (sorted : list Match.t) : list Match.t :=
  match sorted with
  | [] => [m]
  | x :: rest =>
      if (Match.start m <=? Match.start x)%nat then m :: sorted
      else x :: insert_by_start m rest
  end.

Definition sort_by_start (matches : list Match.t) : list Match.t :=
  foldr insert_by_start [] matches.

(** One round of [matches.forEach(match => ...)] over [cursor] and [parts]. *)
Definition emit (text : string) (acc : nat * list Part) (m : Match.t)
    : nat * list Part :=
  let '(cursor, parts) := acc in
  let parts :=
    if (cursor <? Match.start m)%nat
    then parts ++ [Plain (slice text cursor (Match.start m))]
    else parts in
  (Match.end_ m,
   parts ++ [Highlight (Match.colId m) (slice text (Match.start m) (Match.end_ m))]).

Definition processText (fuel : nat) (childColumns : list Column.t) (text : string)
    : option (list Part) :=
  if negb (truthy text) then Some [Plain text]
  else
    matches ← collect fuel text childColumns;
    if (length matches =? 0)%nat then Some [Plain text]
    else
      let '(cursor, parts) :=
        foldl (emit text) (0%nat, []) (sort_by_start matches) in
      Some (if (cursor <? String.length text)%nat
            then parts ++ [Plain (slice text cursor (String.length text))]
            else parts).

(** What the parts show, one after the other. *)
Definition part_text (p : Part) : string :=
  match p with Plain t => t | Highlight _ t => t end.

Definition rendered (parts : list Part) : string :=
  foldr (λ p acc, part_text p +:+ acc) EmptyString parts.

(** The child columns that are searched, with their snippets. *)
Definition snippets (childColumns : list Column.t) : list (string * string) :=
  omap (λ col, (λ s, (Column.id col, s)) <$> effective_snippet col) childColumns.

(** Disjoint intervals. *)
Definition apart (m1 m2 : Match.t) : Prop :=
  (Match.end_ m1 ≤ Match.start m2 ∨ Match.end_ m2 ≤ Match.start m1)%nat.

Fixpoint pairwise_apart (ms : list Match.t) : Prop :=
  match ms with
  | [] => True
  | m :: rest => Forall (apart m) rest ∧ pairwise_apart rest
  end.

(** The match marks an occurrence of the snippet of one of the children. *)
Definition occurrence (text : string) (snips : list (string * string))
    (m : Match.t) : Prop :=
  ∃ snippet, (Match.colId m, snippet) ∈ snips ∧
             (0 < String.length snippet)%nat ∧
             Match.end_ m = (Match.start m + String.length snippet)%nat ∧
             substring (Match.start m) (String.length snippet) text = snippet.

Definition matches_ok (text : string) (snips : list (string * string))
    (ms : list Match.t) : Prop :=
  pairwise_apart ms ∧ Forall (occurrence text snips) ms.

(** The loop over the children, as a loop over the searched snippets. *)
Definition collect_snippets (fuel : nat) (text : string)
    (snips : list (string * string)) (acc : option (list Match.t))
    : option (list Match.t) :=
  foldl (λ acc cs, matches ← acc;
                   scan fuel text (snd cs) (fst cs) (indexOf text (snd cs) 0) matches)
        acc snips.

(** No searched snippet is longer than one searched before it. *)
Fixpoint longest_first (snips : list (string * string)) : Prop :=
  match snips with
  | [] => True
  | cs :: rest =>
      Forall (λ b, (String.length (snd b) ≤ String.length (snd cs))%nat) rest ∧
      longest_first rest
  end.

(** Sorted, and each match ends before the next one starts. *)
Fixpoint chain (ms : list Match.t) : Prop :=
  match ms with
  | [] => True
  | m :: rest => Forall (λ x, (Match.end_ m ≤ Match.start x)%nat) rest ∧ chain rest
  end.


(** ** components/ChatColumn.tsx: the branches of a message *)

(** The [childColumns] a column hands to the bubble of one of its messages:
    [childColumns.filter(c => c.parentId === column.id)] and then
    [directChildren.filter(c => c.parentMessageId === msg.id)]. *)
Definition messageChildren (columns : list Column.t) (columnId msgId : string)
    : list Column.t :=
  let directChildren :=
    filter (λ c, strict_eq (Column.parentId c) (Some columnId) = true) columns in
  filter (λ c, strict_eq (Column.parentMessageId c) (Some msgId) = true) directChildren.

(* ================================================================== *)
(** * Theorems *)
(* ================================================================== *)

(** ** Tree store: streamed chunks and submissions *)

(** C8: a streamed chunk whose target column id is not in the list leaves
    the whole column list unchanged: it is dropped, and no other column's
    messages receive it. *)
Theorem updateLastMessage_absent_noop
    (columns : list Column.t) (columnId textChunk : string) :
  columnId ∉ ids columns →
  updateLastMessage columnId textChunk columns = columns.
Proof.
  intros Hnot. unfold updateLastMessage.
  induction columns as [|col rest IH]; [reflexivity|].
  cbn [fmap list_fmap]. unfold ids in Hnot. rewrite fmap_cons in Hnot.
  apply not_elem_of_cons in Hnot as [Hne Hrest].
  destruct (String.eqb_spec (Column.id col) columnId) as [Heq|_].
  - congruence.
  - f_equal. apply IH, Hrest.
Qed.

(** C6: while the selected column is thinking, a submission changes nothing:
    the state (and with it the column list and every message list) is
    returned as it was, and no callback that would append the empty model
    message is scheduled. *)
Theorem handleGlobalSubmit_thinking_noop
    (st : App.t) (uuid1 uuid2 : string) (now1 now2 : Z) (targetCol : Column.t) :
  find_col (App.selectedColumnId st) (App.columns st) = Some targetCol →
  Column.isThinking targetCol = true →
  handleGlobalSubmit st uuid1 uuid2 now1 now2 = (st, None).
Proof.
  intros Hfind Hthinking. unfold handleGlobalSubmit.
  destruct (negb (truthy (trim (App.globalInput st)))
            || negb (truthy (App.selectedColumnId st))); [reflexivity|].
  rewrite Hfind, Hthinking. reflexivity.
Qed.

Lemma updateLastMessage_absent_noop_witness :
  updateLastMessage "closed" "late chunk" Sample.tree = Sample.tree.
Proof.
  apply (updateLastMessage_absent_noop Sample.tree "closed" "late chunk").
  vm_compute. intros H. repeat (inversion H as [|? ? ? H']; subst; clear H; rename H' into H).
Defined.

Lemma handleGlobalSubmit_thinking_noop_witness :
  handleGlobalSubmit Sample.state_thinking "id1" "id2" 7 8
  = (Sample.state_thinking, None).
Proof.
  apply (handleGlobalSubmit_thinking_noop Sample.state_thinking "id1" "id2" 7 8
           Sample.B_thinking); reflexivity.
Defined.

(** For contrast: a chunk for a column of the list is appended to that
    column's last model message, and to nothing else. *)
Example updateLastMessage_present :
  updateLastMessage "B" " More." Sample.tree
  = [Sample.root;
     Column.mk "B" "X..." (Some "root") (Some "a1") (Some "X")
       [Sample.u3; Message.mk "a3" model "X is short for endofunctors. More." 6]
       EmptyString false false].
Proof. reflexivity. Qed.

(** For contrast: when the selected column is not thinking, the submission
    appends the user message, marks the column as thinking and schedules the
    model placeholder. *)
Example handleGlobalSubmit_idle :
  handleGlobalSubmit Sample.state "id1" "id2" 7 8
  = (App.mk true
       [Sample.root;
        Column.mk "B" "X..." (Some "root") (Some "a1") (Some "X")
          [Sample.u3; Sample.a3; Message.mk "id1" user "next question" 7]
          EmptyString true false]
       "B" EmptyString ∅ (Vec.mk 100 0) 1 None ∅,
     Some (Deferred.mk "B" (Message.mk "id2" model EmptyString 8)
             "next question" Sample.tree)).
Proof. reflexivity. Qed.

(** ** Viewport controller *)

Lemma Qmin_Qmax_bounds (lo hi v : Q) :
  (lo <= hi)%Q → (lo <= Qmin (Qmax lo v) hi <= hi)%Q.
Proof.
  intros Hle. split.
  - apply Q.min_glb; [apply Q.le_max_l | exact Hle].
  - apply Q.le_min_r.
Qed.

(** C3: wheel zoom clamps the new scale into [0.1, 3], recomputes the pan
    from the world point under the pointer, and that world point, which was
    shown at the pointer before the zoom, is shown at the pointer after it. *)
Theorem handleWheel_anchored (st : App.t) (e : WheelEvent.t) :
  App.hasStarted st = true →
  (0.1 <= App.scale st <= 3)%Q →
  let st' := handleWheel st e in
  let pointer := Vec.mk (WheelEvent.clientX e) (WheelEvent.clientY e) in
  let worldPos := toWorld (App.pan st) (App.scale st) pointer in
  let newScale := clamp 0.1 3 (App.scale st - WheelEvent.deltaY e * 0.001) in
  App.scale st' = newScale ∧
  (0.1 <= newScale <= 3)%Q ∧
  App.pan st' = Vec.mk (Vec.x pointer - Vec.x worldPos * newScale)
                       (Vec.y pointer - Vec.y worldPos * newScale) ∧
  Vec_eq (toScreen (App.pan st) (App.scale st) worldPos) pointer ∧
  Vec_eq (toScreen (App.pan st') (App.scale st') worldPos) pointer.
Proof.
  intros Hstarted [Hlo Hhi]. cbv zeta.
  unfold handleWheel. rewrite Hstarted. cbn [negb].
  destruct st as [hs cols sel gi nh [panx pany] sc dr no].
  destruct e as [dy cx cy].
  cbn [App.scale App.pan setPan setScale App.hasStarted App.columns
       App.selectedColumnId App.globalInput App.nodeHeights App.dragRef
       App.nodeOffsets WheelEvent.deltaY WheelEvent.clientX WheelEvent.clientY
       Vec.x Vec.y toWorld toScreen] in *.
  unfold clamp, zoomSensitivity.
  split; [reflexivity|]. split; [apply Qmin_Qmax_bounds; lra|].
  split; [reflexivity|].
  assert (Hsc : ¬ sc == 0) by lra.
  generalize (Qmin (Qmax 0.1 (sc - dy * 0.001)) 3); intros ns.
  split; split; unfold toScreen, toWorld; cbn [Vec.x Vec.y]; field; exact Hsc.
Qed.

Lemma handleWheel_anchored_witness :
  App.scale (handleWheel Sample.state Sample.wheel)
  = clamp 0.1 3 (App.scale Sample.state - WheelEvent.deltaY Sample.wheel * 0.001)
  ∧ Vec_eq
      (toScreen (App.pan (handleWheel Sample.state Sample.wheel))
                (App.scale (handleWheel Sample.state Sample.wheel))
                (toWorld (App.pan Sample.state) (App.scale Sample.state)
                         (Vec.mk 300 200)))
      (Vec.mk 300 200).
Proof.
  pose proof (handleWheel_anchored Sample.state Sample.wheel) as H.
  destruct H as (Hs & _ & _ & _ & Hafter).
  - reflexivity.
  - split; vm_compute; discriminate.
  - split; [exact Hs | exact Hafter].
Defined.

(** A move event changes neither the drag record nor the scale. *)
Lemma handleMouseMove_keeps (st : App.t) (e : MouseEvent.t) :
  App.dragRef (handleMouseMove st e) = App.dragRef st ∧
  App.scale (handleMouseMove st e) = App.scale st.
Proof.
  unfold handleMouseMove.
  destruct (App.dragRef st) as [[[] sx sy [tid|] [ip|] [io|]]|] eqn:Hd;
    cbn; try destruct (truthy tid); cbn; auto.
Qed.

Lemma moves_keep (moves : list MouseEvent.t) (st : App.t) :
  App.dragRef (foldl handleMouseMove st moves) = App.dragRef st ∧
  App.scale (foldl handleMouseMove st moves) = App.scale st.
Proof.
  revert st. induction moves as [|e moves IH]; intros st; [auto|].
  cbn [foldl]. destruct (IH (handleMouseMove st e)) as [-> ->].
  apply handleMouseMove_keeps.
Qed.

(** C4: a node drag that starts at [down] and whose last move event is at
    [final] leaves the node's manual offset at [o + d / s]: [o] is the entry
    the offset map holds for the node when the drag starts (the origin when
    it holds none), [d] the total pointer delta and [s] the scale, whatever
    the intermediate move events and whatever the pan. *)
Theorem node_drag_offset
    (st : App.t) (columnId : string) (down final : MouseEvent.t)
    (moves : list MouseEvent.t) (anyPan : Vec.t) :
  truthy columnId = true →
  let o := match App.nodeOffsets st !! columnId with
           | Some recorded => recorded
           | None => Vec.mk 0 0
           end in
  let s := App.scale st in
  let dx := (MouseEvent.clientX final - MouseEvent.clientX down)%Q in
  let dy := (MouseEvent.clientY final - MouseEvent.clientY down)%Q in
  let drag st0 :=
    foldl handleMouseMove (handleNodeDragStart st0 down columnId)
          (moves ++ [final]) in
  App.nodeOffsets (drag st) !! columnId
    = Some (Vec.mk (Vec.x o + dx / s) (Vec.y o + dy / s)) ∧
  App.nodeOffsets (drag (setPan st anyPan)) !! columnId
    = App.nodeOffsets (drag st) !! columnId.
Proof.
  intros Htruthy. cbv zeta.
  assert (Hgen : ∀ st0, App.nodeOffsets
            (foldl handleMouseMove (handleNodeDragStart st0 down columnId)
                   (moves ++ [final])) !! columnId
          = Some (Vec.mk
              (Vec.x (offset_or_zero (App.nodeOffsets st0) columnId)
               + (MouseEvent.clientX final - MouseEvent.clientX down) / App.scale st0)
              (Vec.y (offset_or_zero (App.nodeOffsets st0) columnId)
               + (MouseEvent.clientY final - MouseEvent.clientY down) / App.scale st0))).
  { intros st0. rewrite foldl_app. cbn [foldl].
    destruct (moves_keep moves (handleNodeDragStart st0 down columnId)) as [Hd Hs].
    unfold handleMouseMove at 1. rewrite Hd, Hs.
    cbn [handleNodeDragStart setDragRef App.dragRef App.scale Drag.type
         Drag.initialPan Drag.targetId Drag.initialNodeOffset Drag.startX
         Drag.startY].
    rewrite Htruthy. cbn [setNodeOffsets App.nodeOffsets].
    apply lookup_insert_eq. }
  split; [apply Hgen|].
  rewrite !Hgen. reflexivity.
Qed.

Lemma node_drag_offset_witness :
  let st := App.mk true Sample.tree "B" "next question" ∅ (Vec.mk 100 0) 2 None
              {["B" := Vec.mk 5 7]} in
  App.nodeOffsets
    (foldl handleMouseMove (handleNodeDragStart st Sample.down "B")
           ([Sample.move1] ++ [Sample.move2])) !! "B"
  = Some (Vec.mk (5 + (40 - 10) / 2) (7 + (60 - 20) / 2)).
Proof.
  exact (proj1 (node_drag_offset
                  (App.mk true Sample.tree "B" "next question" ∅ (Vec.mk 100 0)
                     2 None {["B" := Vec.mk 5 7]})
                  "B" Sample.down Sample.move2
                  [Sample.move1] (Vec.mk 0 0) eq_refl)).
Defined.


(** C10 as stated does not hold: after the [+] button the world point that
    was shown at the screen origin is shown elsewhere (pan (100, 0), scale 1:
    the point (-100, 0) moves from screen (0, 0) to screen (-10, 0)). *)
Lemma button_zoom_moves_screen_origin :
  Vec_eq
    (toScreen (App.pan (zoomInClick Sample.state))
              (App.scale (zoomInClick Sample.state))
              (toWorld (App.pan Sample.state) (App.scale Sample.state)
                       (Vec.mk 0 0)))
    (Vec.mk (-10) 0)
  ∧ ¬ Vec_eq
        (toScreen (App.pan (zoomInClick Sample.state))
                  (App.scale (zoomInClick Sample.state))
                  (toWorld (App.pan Sample.state) (App.scale Sample.state)
                           (Vec.mk 0 0)))
        (Vec.mk 0 0).
Proof.
  split.
  - split; vm_compute; reflexivity.
  - intros [Hx _]. vm_compute in Hx. discriminate.
Qed.

(** C10, amended: for a scale in [0.1, 3] the [-] and [+] buttons change the
    scale by -0.1 and +0.1 clamped to [0.1, 3] and leave the pan and all
    manual offsets as they are; the point that keeps its screen position is
    the world origin (shown at screen position [pan]), and when the scale
    really changes no other world point keeps its position. *)
Theorem button_zoom_fixed_point (st : App.t) (w : Vec.t) :
  (0.1 <= App.scale st <= 3)%Q →
  App.scale (zoomOutClick st) == clamp 0.1 3 (App.scale st - 0.1) ∧
  App.scale (zoomInClick st) == clamp 0.1 3 (App.scale st + 0.1) ∧
  App.pan (zoomOutClick st) = App.pan st ∧
  App.pan (zoomInClick st) = App.pan st ∧
  App.nodeOffsets (zoomOutClick st) = App.nodeOffsets st ∧
  App.nodeOffsets (zoomInClick st) = App.nodeOffsets st ∧
  (∀ st', st' = zoomOutClick st ∨ st' = zoomInClick st →
     Vec_eq (toScreen (App.pan st') (App.scale st') (Vec.mk 0 0))
            (toScreen (App.pan st) (App.scale st) (Vec.mk 0 0)) ∧
     Vec_eq (toScreen (App.pan st') (App.scale st') (Vec.mk 0 0)) (App.pan st) ∧
     (¬ App.scale st' == App.scale st →
      Vec_eq (toScreen (App.pan st') (App.scale st') w)
             (toScreen (App.pan st) (App.scale st) w) →
      Vec_eq w (Vec.mk 0 0))).
Proof.
  intros [Hlo Hhi].
  destruct st as [hs cols sel gi nh [panx pany] sc dr no]. destruct w as [wx wy].
  unfold zoomOutClick, zoomInClick, clamp, setScale, Vec_eq, toScreen.
  cbn [App.scale App.pan App.nodeOffsets Vec.x Vec.y] in *.
  split; [minmax_lra|]. split; [minmax_lra|].
  do 4 (split; [reflexivity|]).
  intros st' Hst'.
  assert (Hpan : App.pan st' = Vec.mk panx pany) by (destruct Hst'; subst; reflexivity).
  rewrite Hpan. cbn [Vec.x Vec.y].
  generalize (App.scale st'). intros s'.
  split; [split; ring|]. split; [split; ring|].
  intros Hne [Hx Hy].
  assert (Hd : ¬ s' - sc == 0) by lra.
  assert (Hx' : wx * (s' - sc) == 0) by lra.
  assert (Hy' : wy * (s' - sc) == 0) by lra.
  apply Qmult_integral in Hx', Hy'. tauto.
Qed.

Lemma button_zoom_fixed_point_witness :
  App.scale (zoomOutClick Sample.state) == clamp 0.1 3 (App.scale Sample.state - 0.1) ∧
  App.pan (zoomInClick Sample.state) = App.pan Sample.state.
Proof.
  destruct (button_zoom_fixed_point Sample.state (Vec.mk 0 0)) as (H1 & _ & _ & H4 & _).
  - split; vm_compute; discriminate.
  - split; [exact H1 | exact H4].
Defined.

(** ** Branch requests *)





(** ** Context linearizer *)

Lemma walk_resolved (columns : list Column.t) (target : string)
    (path : list Column.t) :
  resolved_path columns target path →
  ∀ fuel acc, (length path ≤ fuel)%nat →
    walk fuel columns (Some target) acc = Some (path ++ acc)%list.
Proof.
  induction 1 as [target c Ht Hfind Hroot
                 |target c p mid parent above Ht Hfind Hpar Hres IH Hmid Hin];
    intros fuel acc Hfuel.
  - destruct fuel as [|fuel]; [cbn in Hfuel; lia|].
    cbn [walk]. rewrite Ht, Hfind, Hroot.
    destruct fuel; reflexivity.
  - rewrite length_app in Hfuel. cbn [length] in Hfuel.
    destruct fuel as [|fuel]; [lia|].
    cbn [walk]. rewrite Ht, Hfind, Hpar.
    rewrite IH by (rewrite length_app; cbn [length]; lia).
    rewrite <- !app_assoc. reflexivity.
Qed.

Lemma msg_linked_snoc (above : list Column.t) (parent c : Column.t) (mid : string) :
  msg_linked (above ++ [parent]) →
  Column.parentMessageId c = Some mid →
  mid ∈ (Message.id <$> Column.messages parent) →
  msg_linked (above ++ [parent; c]).
Proof.
  intros Hl Hmid Hin. induction above as [|a above IH].
  - cbn. split; [eauto|exact I].
  - destruct above as [|a' above].
    + cbn in *. destruct Hl as [Hl _]. split; [exact Hl|]. split; [eauto|exact I].
    + change (msg_linked (a :: a' :: (above ++ [parent; c]))).
      change (msg_linked (a :: a' :: (above ++ [parent]))) in Hl.
      cbn [msg_linked] in Hl |- *. destruct Hl as [Hl Hrest].
      split; [exact Hl|]. apply IH. exact Hrest.
Qed.

Lemma resolved_path_linked (columns : list Column.t) (target : string)
    (path : list Column.t) :
  resolved_path columns target path → msg_linked path.
Proof.
  induction 1; [exact I|]. eapply msg_linked_snoc; eauto.
Qed.

(** [findIndex] followed by [slice(0, branchIndex + 1)] is the prefix that
    ends at the first message with the id. *)
Lemma slice_findIndex_prefix (mid : string) (msgs : list Message.t) :
  mid ∈ (Message.id <$> msgs) →
  ∃ branchIndex,
    findIndex (λ m, strict_eq (Some (Message.id m)) (Some mid)) msgs
      = Some branchIndex ∧
    slice0 (branchIndex + 1) msgs = prefix_through mid msgs.
Proof.
  induction msgs as [|m msgs IH]; intros Hin.
  - by apply elem_of_nil in Hin.
  - cbn [findIndex prefix_through]. unfold strict_eq.
    destruct (String.eqb_spec (Message.id m) mid) as [Heq|Hne].
    + rewrite bool_decide_eq_true_2 by congruence.
      exists 0%nat. split; reflexivity.
    + rewrite bool_decide_eq_false_2 by congruence.
      rewrite fmap_cons in Hin. apply elem_of_cons in Hin as [Hin|Hin];
        [congruence|].
      destruct (IH Hin) as (i & Hi & Hslice). unfold strict_eq in Hi.
      rewrite Hi. exists (S i). split; [reflexivity|].
      unfold slice0 in *. cbn [Nat.add take]. f_equal. exact Hslice.
Qed.

Lemma pushed_suffix (pre suf : list Column.t) :
  msg_linked suf →
  concat (imap (λ i, pushed (pre ++ suf) (length pre + i)) suf)
  = linearized suf.
Proof.
  revert pre. induction suf as [|col rest IH]; intros pre Hl; [reflexivity|].
  rewrite imap_cons. cbn [concat].
  assert (Hrest : concat (imap ((λ i, pushed (pre ++ col :: rest) (length pre + i)) ∘ S) rest)
                  = linearized rest).
  { destruct rest as [|next rest']; [reflexivity|].
    rewrite <- (IH (pre ++ [col])) by (apply Hl).
    f_equal. apply imap_ext. intros i x _. cbn [compose].
    rewrite <- app_assoc, length_app. cbn [length app]. f_equal. lia. }
  rewrite Hrest. clear Hrest IH.
  unfold pushed. rewrite Nat.add_0_r, length_app. cbn [length].
  destruct rest as [|next rest'].
  - cbn [length]. replace (length pre =? length pre + 1 - 1)%nat with true
      by (symmetry; apply Nat.eqb_eq; lia).
    cbn [negb andb linearized]. rewrite !app_nil_r. reflexivity.
  - cbn [length]. replace (length pre =? length pre + S (S (length rest')) - 1)%nat
      with false by (symmetry; apply Nat.eqb_neq; lia).
    replace (length pre + 1 <? length pre + S (S (length rest')))%nat with true
      by (symmetry; apply Nat.ltb_lt; lia).
    cbn [negb andb].
    replace ((pre ++ col :: next :: rest') !! (length pre + 1)%nat) with (Some next).
    2:{ rewrite lookup_app_r by lia.
        replace (length pre + 1 - length pre)%nat with 1%nat by lia. reflexivity. }
    destruct Hl as [(mid & Hmid & Hin) _].
    rewrite Hmid. destruct (slice_findIndex_prefix mid _ Hin) as (i & -> & ->).
    cbn [linearized]. rewrite Hmid.
    rewrite <- app_assoc. f_equal. f_equal.
    unfold fork_span. destruct (Column.contextSnippet next) as [s|]; [|reflexivity].
    destruct (truthy s); reflexivity.
Qed.

(** C1: when the root-to-target path resolves, the history built for the
    target is, root first, every ancestor's prefix up to and including the
    message the next node forked from, then the transition message for the
    next node's fork span if it has one, and at the end the target's own
    messages in full.  A message enters the history with its role and with
    its text as only part ([context_item]); the transition message is one
    user-role message whose text quotes the fork span
    ([transition_message]).  Fuel of the length of the path is enough. *)
Theorem buildHistoryForColumn_linearized
    (columns : list Column.t) (target : string) (path : list Column.t) (fuel : nat) :
  resolved_path columns target path →
  (length path ≤ fuel)%nat →
  buildHistoryForColumn fuel target columns = Some (linearized path).
Proof.
  intros Hres Hfuel. unfold buildHistoryForColumn.
  rewrite (walk_resolved columns target path Hres fuel [] Hfuel).
  rewrite app_nil_r. cbn [mbind option_bind]. f_equal.
  apply (pushed_suffix [] path). eapply resolved_path_linked, Hres.
Qed.

Lemma buildHistoryForColumn_linearized_witness :
  buildHistoryForColumn 2 "B" Sample.tree
  = Some [ {| HistoryItem.role := user; HistoryItem.parts := ["What is a monad?"] |};
           {| HistoryItem.role := model;
              HistoryItem.parts := ["A monoid in the category of X."] |};
           {| HistoryItem.role := user;
              HistoryItem.parts :=
                ["I want to branch off and discuss specifically about: "
                   +:+ String "034"%char ("X" +:+ String "034"%char EmptyString)] |};
           {| HistoryItem.role := user; HistoryItem.parts := ["Tell me more."] |};
           {| HistoryItem.role := model;
              HistoryItem.parts := ["X is short for endofunctors."] |} ].
Proof.
  rewrite (buildHistoryForColumn_linearized Sample.tree "B" [Sample.root; Sample.B] 2).
  - reflexivity.
  - apply (resolved_step Sample.tree "B" Sample.B "root" "a1" Sample.root []).
    + reflexivity.
    + reflexivity.
    + reflexivity.
    + apply (resolved_root Sample.tree "root" Sample.root); reflexivity.
    + reflexivity.
    + cbn. apply elem_of_cons. right. apply elem_of_cons. left. reflexivity.
  - cbn. lia.
Defined.

(** The specification's example: the context for B is u1, a1, the
    transition message for the span X, u3, a3; u2 and a2 are not in it. *)
Example linearization_example :
  ∃ history,
    buildHistoryForColumn 2 "B" Sample.tree = Some history ∧
    history = [context_item Sample.u1; context_item Sample.a1;
               transition_message "X";
               context_item Sample.u3; context_item Sample.a3] ∧
    (context_item Sample.u2 ∉ history) ∧
    (context_item Sample.a2 ∉ history).
Proof.
  eexists. split; [reflexivity|]. split; [reflexivity|].
  split; intros H;
    repeat (apply elem_of_cons in H as [H|H]; [discriminate|]);
    by apply elem_of_nil in H.
Qed.

(** ** The column list as a forest *)

Lemma find_Some {A} (pred : A → bool) (arr : list A) (a : A) :
  find pred arr = Some a → a ∈ arr ∧ pred a = true.
Proof.
  induction arr as [|x arr IH]; cbn [find]; [discriminate|].
  destruct (pred x) eqn:Hx.
  - intros [= <-]. split; [apply elem_of_cons; by left|exact Hx].
  - intros H. destruct (IH H) as [Hin Hp]. split; [apply elem_of_cons; by right|exact Hp].
Qed.

Lemma find_col_Some (columns : list Column.t) (k : string) (c : Column.t) :
  find_col k columns = Some c → c ∈ columns ∧ Column.id c = k.
Proof.
  intros H. apply find_Some in H as [Hin Heq].
  split; [exact Hin|]. by apply String.eqb_eq.
Qed.

Lemma find_col_is_Some (columns : list Column.t) (k : string) :
  k ∈ ids columns → ∃ c, find_col k columns = Some c.
Proof.
  unfold ids, find_col. induction columns as [|x columns IH]; intros Hin.
  - by apply elem_of_nil in Hin.
  - cbn [find]. destruct (String.eqb_spec (Column.id x) k) as [Heq|Hne]; [eauto|].
    rewrite fmap_cons in Hin. apply elem_of_cons in Hin as [Hin|Hin]; [congruence|].
    exact (IH Hin).
Qed.

Lemma in_ids (columns : list Column.t) (c : Column.t) :
  c ∈ columns → Column.id c ∈ ids columns.
Proof. intros H. unfold ids. apply list_elem_of_fmap. eauto. Qed.

Lemma find_col_NoDup (columns : list Column.t) (c : Column.t) :
  NoDup (ids columns) → c ∈ columns → find_col (Column.id c) columns = Some c.
Proof.
  unfold ids, find_col. induction columns as [|x columns IH]; intros Hnd Hin.
  - by apply elem_of_nil in Hin.
  - rewrite fmap_cons in Hnd. apply NoDup_cons in Hnd as [Hx Hnd].
    cbn [find]. apply elem_of_cons in Hin as [->|Hin].
    + by rewrite String.eqb_refl.
    + destruct (String.eqb_spec (Column.id x) (Column.id c)) as [Heq|Hne].
      * exfalso. apply Hx. rewrite Heq. by apply in_ids.
      * by apply IH.
Qed.

Section Forest.
Variable columns : list Column.t.
Hypothesis unique_ids : NoDup (ids columns).

Lemma ancestor_at_add (a b : nat) (k : string) :
  ancestor_at columns (a + b) k
  = ancestor_at columns a k ≫= ancestor_at columns b.
Proof.
  revert k. induction a as [|a IH]; intros k; [reflexivity|].
  cbn [Nat.add ancestor_at].
  destruct (find_col k columns) as [c|]; [|reflexivity].
  destruct (Column.parentId c) as [p|]; [apply IH|reflexivity].
Qed.

Lemma ancestor_at_parent (c : Column.t) (p : string) :
  c ∈ columns → Column.parentId c = Some p →
  ancestor_at columns 1 (Column.id c) = Some p.
Proof.
  intros Hin Hp. cbn [ancestor_at].
  rewrite (find_col_NoDup columns c unique_ids Hin), Hp. reflexivity.
Qed.

(** The last step of a chain of [S e] steps goes from a child of the
    ancestor to the ancestor. *)
Lemma ancestor_at_last (e : nat) (k a : string) :
  ancestor_at columns (S e) k = Some a →
  ∃ c, ancestor_at columns e k = Some (Column.id c) ∧ c ∈ columns ∧
       Column.parentId c = Some a.
Proof.
  replace (S e) with (e + 1)%nat by lia. rewrite ancestor_at_add.
  destruct (ancestor_at columns e k) as [m|]; [|discriminate].
  cbn [mbind option_bind ancestor_at].
  destruct (find_col m columns) as [c|] eqn:Hc; [|discriminate].
  destruct (Column.parentId c) as [p|] eqn:Hp; [|discriminate].
  intros [= <-]. apply find_col_Some in Hc as [Hin <-]. eauto.
Qed.

Lemma ancestor_at_snoc (e : nat) (k : string) (c : Column.t) (a : string) :
  ancestor_at columns e k = Some (Column.id c) → c ∈ columns →
  Column.parentId c = Some a →
  ancestor_at columns (S e) k = Some a.
Proof.
  intros He Hin Hp. replace (S e) with (e + 1)%nat by lia.
  rewrite ancestor_at_add, He. cbn [mbind option_bind].
  by apply ancestor_at_parent.
Qed.

Lemma in_subtree_refl (a : string) : in_subtree columns a a.
Proof. by exists 0%nat. Qed.

Lemma in_subtree_child (a k : string) (c : Column.t) :
  c ∈ columns → Column.parentId c = Some a →
  in_subtree columns (Column.id c) k → in_subtree columns a k.
Proof. intros Hin Hp [e He]. exists (S e). by eapply ancestor_at_snoc. Qed.

(** A node of a subtree is its root or lies in the subtree of a child. *)
Lemma in_subtree_cases (a k : string) :
  in_subtree columns a k →
  k = a ∨ ∃ c, c ∈ columns ∧ Column.parentId c = Some a ∧
               in_subtree columns (Column.id c) k.
Proof.
  intros [[|e] He].
  - left. cbn in He. congruence.
  - right. apply ancestor_at_last in He as (c & He & Hin & Hp).
    exists c. repeat split; [assumption..|]. by exists e.
Qed.

Lemma reaches_root_up (k a : string) (e d : nat) :
  ancestor_at columns e k = Some a → reaches_root columns a d →
  reaches_root columns k (e + d).
Proof.
  intros He (r & c & Hr & Hc & Hp). exists r, c.
  rewrite ancestor_at_add, He. auto.
Qed.

Lemma depth_unique (k : string) (d d' : nat) :
  reaches_root columns k d → reaches_root columns k d' → d = d'.
Proof.
  assert (Hlt : ∀ d d', (d < d')%nat → reaches_root columns k d →
                        reaches_root columns k d' → False).
  { clear. intros d d' Hlt (r & c & Hr & Hc & Hp) (r' & c' & Hr' & _).
    replace d' with (d + S (d' - d - 1))%nat in Hr' by lia.
    rewrite ancestor_at_add, Hr in Hr'. cbn [mbind option_bind ancestor_at] in Hr'.
    rewrite Hc, Hp in Hr'. discriminate. }
  intros H H'. destruct (Nat.lt_trichotomy d d') as [?|[?|?]]; [|assumption|];
    exfalso; eauto.
Qed.

Lemma reaches_root_child (c : Column.t) (p : string) (d : nat) :
  c ∈ columns → Column.parentId c = Some p → reaches_root columns p d →
  reaches_root columns (Column.id c) (S d).
Proof.
  intros Hin Hp Hd. change (S d) with (1 + d)%nat.
  eapply reaches_root_up; [|exact Hd]. by apply ancestor_at_parent.
Qed.

Lemma reaches_root_is_column (k : string) (d : nat) :
  reaches_root columns k d → k ∈ ids columns.
Proof.
  intros (r & c & Hr & Hc & Hp). destruct d as [|d].
  - cbn in Hr. injection Hr as ->. apply find_col_Some in Hc as [Hin <-].
    by apply in_ids.
  - cbn [ancestor_at] in Hr. destruct (find_col k columns) as [ck|] eqn:Hk;
      [|discriminate].
    apply find_col_Some in Hk as [Hin <-]. by apply in_ids.
Qed.

(** A node has no proper ancestor equal to itself once it reaches a root. *)
Lemma reaches_root_no_cycle (k : string) (d e : nat) :
  reaches_root columns k d → ancestor_at columns (S e) k ≠ Some k.
Proof.
  intros Hd He. pose proof (reaches_root_up k k (S e) d He Hd) as Hd'.
  pose proof (depth_unique k _ _ Hd Hd'). lia.
Qed.

(** Subtrees of distinct nodes of one depth share no node. *)
Lemma subtrees_disjoint (a b k : string) (d : nat) :
  reaches_root columns a d → reaches_root columns b d →
  in_subtree columns a k → in_subtree columns b k → a = b.
Proof.
  intros Ha Hb [ea Hea] [eb Heb].
  pose proof (reaches_root_up k a ea d Hea Ha) as H1.
  pose proof (reaches_root_up k b eb d Heb Hb) as H2.
  pose proof (depth_unique k _ _ H1 H2).
  assert (ea = eb) as -> by lia. congruence.
Qed.

(** The chain from a node to its root visits pairwise distinct columns. *)
Lemma chain_to_root (d : nat) (k : string) :
  reaches_root columns k d →
  ∃ l : list string, length l = S d ∧ NoDup l ∧
    (∀ a, a ∈ l → a ∈ ids columns ∧ ∃ e, (e ≤ d)%nat ∧ reaches_root columns a e).
Proof.
  revert k. induction d as [|d IH]; intros k Hk.
  - exists [k]. split; [reflexivity|]. split; [apply NoDup_singleton|].
    intros a Ha. apply list_elem_of_singleton in Ha as ->.
    split; [by eapply reaches_root_is_column|]. exists 0%nat. auto.
  - pose proof Hk as (r & c & Hr & Hc & Hp).
    cbn [ancestor_at] in Hr.
    destruct (find_col k columns) as [ck|] eqn:Hck; [|discriminate].
    destruct (Column.parentId ck) as [p|] eqn:Hpk; [|discriminate].
    assert (Hpd : reaches_root columns p d) by (exists r, c; auto).
    destruct (IH p Hpd) as (l & Hlen & Hnd & Hl).
    exists (k :: l). split; [cbn; lia|]. split.
    + apply NoDup_cons. split; [|exact Hnd].
      intros Hin. destruct (Hl k Hin) as (_ & e & He & Hke).
      pose proof (depth_unique k _ _ Hk Hke). lia.
    + intros a Ha. apply elem_of_cons in Ha as [->|Ha].
      * split; [by eapply reaches_root_is_column|]. exists (S d). auto.
      * destruct (Hl a Ha) as (Hin & e & He & Hae). split; [exact Hin|].
        exists e. split; [lia|exact Hae].
Qed.

Lemma reaches_root_bound (k : string) (d : nat) :
  reaches_root columns k d → (d < length columns)%nat.
Proof.
  intros Hk. destruct (chain_to_root d k Hk) as (l & Hlen & Hnd & Hl).
  assert (Hsub : l ⊆+ ids columns).
  { apply NoDup_submseteq; [exact Hnd|]. intros a Ha. by apply Hl. }
  apply submseteq_length in Hsub. unfold ids in Hsub.
  rewrite length_fmap in Hsub. lia.
Qed.

(** With every parent present and no cycle, every column reaches a root. *)
Lemma climb (n : nat) (k : string) :
  parents_exist columns → acyclic columns → k ∈ ids columns →
  (∃ d, reaches_root columns k d) ∨
  (∃ l : list string, length l = S n ∧ NoDup l ∧
     ∀ a, a ∈ l → a ∈ ids columns ∧ ∃ e, ancestor_at columns e k = Some a).
Proof.
  intros Hpe Hac. revert k. induction n as [|n IH]; intros k Hk.
  - right. exists [k]. split; [reflexivity|]. split; [apply NoDup_singleton|].
    intros a Ha. apply list_elem_of_singleton in Ha as ->.
    split; [exact Hk|]. by exists 0%nat.
  - destruct (find_col_is_Some columns k Hk) as [c Hc].
    pose proof (find_col_Some columns k c Hc) as [Hin Hid].
    destruct (Column.parentId c) as [p|] eqn:Hp.
    + assert (Hpin : p ∈ ids columns) by (eapply Hpe; eauto).
      destruct (IH p Hpin) as [[d Hd]|(l & Hlen & Hnd & Hl)].
      * left. exists (S d). rewrite <- Hid. by eapply reaches_root_child.
      * right. exists (k :: l). split; [cbn; lia|]. split.
        -- apply NoDup_cons. split; [|exact Hnd].
           intros Hkl. destruct (Hl k Hkl) as (_ & e & He).
           apply (Hac k (S e)); [lia|].
           cbn [ancestor_at]. rewrite Hc, Hp. exact He.
        -- intros a Ha. apply elem_of_cons in Ha as [->|Ha].
           ++ split; [exact Hk|]. by exists 0%nat.
           ++ destruct (Hl a Ha) as (Hain & e & He). split; [exact Hain|].
              exists (S e). cbn [ancestor_at]. rewrite Hc, Hp. exact He.
    + left. exists 0%nat, k, c. auto.
Qed.

Lemma well_formed_reaches_root (k : string) :
  parents_exist columns → acyclic columns → k ∈ ids columns →
  ∃ d, reaches_root columns k d.
Proof.
  intros Hpe Hac Hk.
  destruct (climb (length columns) k Hpe Hac Hk) as [H|(l & Hlen & Hnd & Hl)];
    [exact H|exfalso].
  assert (Hsub : l ⊆+ ids columns).
  { apply NoDup_submseteq; [exact Hnd|]. intros a Ha. by apply Hl. }
  apply submseteq_length in Hsub. unfold ids in Hsub.
  rewrite length_fmap in Hsub. lia.
Qed.

End Forest.

(** ** Layout engine *)

Lemma height_of_pos (nodeHeights : gmap string Q) (k : string) :
  measured nodeHeights → (0 < height_of nodeHeights k)%Q.
Proof.
  intros Hm. unfold height_of, num_or, NODE_DEFAULT_HEIGHT.
  destruct (nodeHeights !! k) as [h|] eqn:Hk; [|reflexivity].
  destruct (Qeq_bool h 0) eqn:Hz; [reflexivity|].
  apply Qeq_bool_neq in Hz. specialize (Hm k h Hk). cbv beta in Hm. lra.
Qed.

Section Layout.
Variable columns : list Column.t.
Variable nodeHeights : gmap string Q.
Hypothesis unique_ids : NoDup (ids columns).
Hypothesis heights_measured : measured nodeHeights.

Lemma within_singleton (a k : string) :
  within columns [a] k ↔ in_subtree columns a k.
Proof.
  split.
  - intros (r & Hr & Hk). apply list_elem_of_singleton in Hr as ->. exact Hk.
  - intros Hk. exists a. split; [apply list_elem_of_singleton; reflexivity|exact Hk].
Qed.

Lemma within_cons (r : string) (rs : list string) (k : string) :
  within columns (r :: rs) k ↔ in_subtree columns r k ∨ within columns rs k.
Proof.
  split.
  - intros (r' & Hr & Hk). apply elem_of_cons in Hr as [->|Hr]; [by left|].
    right. by exists r'.
  - intros [Hk|(r' & Hr & Hk)].
    + exists r. split; [apply elem_of_cons; by left|exact Hk].
    + exists r'. split; [apply elem_of_cons; by right|exact Hk].
Qed.

Lemma in_subtree_trans (a b k : string) :
  in_subtree columns a b → in_subtree columns b k → in_subtree columns a k.
Proof.
  intros [e He] [e' He']. exists (e' + e)%nat.
  rewrite ancestor_at_add, He'. exact He.
Qed.

Lemma within_down (rs : list string) (k k' : string) :
  within columns rs k → in_subtree columns k k' → within columns rs k'.
Proof.
  intros (r & Hr & Hk) Hk'. exists r. split; [exact Hr|].
  by eapply in_subtree_trans.
Qed.

Lemma child_in_subtree (c : Column.t) (k : string) :
  c ∈ getChildren columns (Some k) → in_subtree columns k (Column.id c).
Proof.
  intros Hc. apply list_elem_of_filter in Hc as [Hp Hin].
  exists 1%nat. by apply ancestor_at_parent.
Qed.

Lemma subtree_bottom_agree (l1 l2 : gmap string Pos.t) (a : string) (b : Q) :
  (∀ k, in_subtree columns a k → l2 !! k = l1 !! k) →
  subtree_bottom columns l1 a b → subtree_bottom columns l2 a b.
Proof.
  intros Hag [Hle (k & p & Hk & Hp & Hb)]. split.
  - intros k' p' Hk' Hp'. rewrite Hag in Hp' by exact Hk'. eauto.
  - exists k, p. rewrite Hag by exact Hk. auto.
Qed.

Lemma stacked_after_agree (l1 l2 : gmap string Pos.t) (r1 r2 : string) :
  (∀ k, in_subtree columns r1 k → l2 !! k = l1 !! k) →
  l2 !! r2 = l1 !! r2 →
  stacked_after columns l1 r1 r2 → stacked_after columns l2 r1 r2.
Proof.
  intros Hag H2 (b & p2 & Hb & Hp2 & Htop). exists b, p2.
  split; [by eapply subtree_bottom_agree|]. rewrite H2. auto.
Qed.

Lemma siblings_stacked_agree (l1 l2 : gmap string Pos.t) (rs : list string) :
  (∀ k, within columns rs k → l2 !! k = l1 !! k) →
  siblings_stacked columns l1 rs → siblings_stacked columns l2 rs.
Proof.
  intros Hag Hs i r1 r2 H1 H2.
  apply list_elem_of_lookup_2 in H1 as Hr1. apply list_elem_of_lookup_2 in H2 as Hr2.
  eapply stacked_after_agree; [| |by eapply Hs].
  - intros k Hk. apply Hag. by exists r1.
  - apply Hag. exists r2. split; [exact Hr2|apply in_subtree_refl].
Qed.

Lemma children_stacked_agree (l1 l2 : gmap string Pos.t) (k : string) :
  (∀ k', in_subtree columns k k' → l2 !! k' = l1 !! k') →
  children_stacked columns l1 k → children_stacked columns l2 k.
Proof.
  intros Hag [Hs Hfirst]. split.
  - eapply siblings_stacked_agree; [|exact Hs].
    intros k' (r & Hr & Hk'). apply Hag.
    unfold ids in Hr. apply list_elem_of_fmap in Hr as (c & -> & Hc).
    eapply in_subtree_trans; [by apply child_in_subtree|exact Hk'].
  - intros c0 rest Hch. destruct (Hfirst c0 rest Hch) as (p0 & pk & H0 & Hk & Htop).
    exists p0, pk. rewrite !Hag; [auto|apply in_subtree_refl|].
    apply child_in_subtree. rewrite Hch. apply elem_of_cons. by left.
Qed.

Lemma forest_placed_agree (l1 l2 : gmap string Pos.t) (rs : list string)
    (x top top' : Q) :
  (∀ k, within columns rs k → l2 !! k = l1 !! k) →
  forest_placed columns nodeHeights rs x top top' l1 →
  forest_placed columns nodeHeights rs x top top' l2.
Proof.
  intros Hag (HP & HD & HM & HE & HT & HX & HA & HS).
  split.
  { intros r k e Hr He. rewrite Hag by (exists r; split; [exact Hr|by exists e]).
    by eapply HP. }
  split.
  { intros k1 k2 p1 p2 Hk1 Hk2 Hun H1 H2.
    rewrite Hag in H1 by assumption. rewrite Hag in H2 by assumption.
    exact (HD k1 k2 p1 p2 Hk1 Hk2 Hun H1 H2). }
  split; [exact HM|]. split; [exact HE|].
  split.
  { intros r0 rest ->. destruct (HT r0 rest eq_refl) as (p & Hp & Htop).
    exists p. rewrite Hag; [auto|].
    exists r0. split; [apply elem_of_cons; by left|apply in_subtree_refl]. }
  split.
  { intros pre rl ->. destruct (HX pre rl eq_refl) as (k & p & Hk & Hp & Hb).
    exists k, p. rewrite Hag; [auto|].
    exists rl. split; [|exact Hk].
    apply elem_of_app. right. apply list_elem_of_singleton. reflexivity. }
  split; [by eapply siblings_stacked_agree|].
  intros k Hk. eapply children_stacked_agree; [|by apply HS].
  intros k' Hk'. apply Hag. by eapply within_down.
Qed.

Lemma frame_nil (l : gmap string Pos.t) : frame columns [] l l.
Proof. split; [reflexivity|]. intros k Hk. by left. Qed.

Lemma frame_cons (r : string) (rs : list string) (l l1 l' : gmap string Pos.t) :
  frame columns [r] l l1 → frame columns rs l1 l' → frame columns (r :: rs) l l'.
Proof.
  intros [F1 G1] [F2 G2]. split.
  - intros k Hk. rewrite F2, F1; [reflexivity| |].
    + intros H. apply Hk. apply within_cons. left. by apply within_singleton.
    + intros H. apply Hk. apply within_cons. by right.
  - intros k Hk. destruct (G2 k Hk) as [H|H].
    + destruct (G1 k H) as [H'|H']; [by left|].
      right. apply within_cons. left. by apply within_singleton.
    + right. apply within_cons. by right.
Qed.

Lemma children_within (a k : string) :
  within columns (ids (getChildren columns (Some a))) k → in_subtree columns a k.
Proof.
  intros (r & Hr & Hk). unfold ids in Hr.
  apply list_elem_of_fmap in Hr as (c & -> & Hc).
  eapply in_subtree_trans; [by apply child_in_subtree|exact Hk].
Qed.

Lemma in_subtree_children (a k : string) :
  in_subtree columns a k →
  k = a ∨ within columns (ids (getChildren columns (Some a))) k.
Proof.
  intros Hk. apply in_subtree_cases in Hk as [->|(c & Hc & Hp & Hk)];
    [by left|].
  right. exists (Column.id c). split; [|exact Hk].
  apply in_ids. apply list_elem_of_filter. auto.
Qed.

Lemma node_not_below (a : string) (d : nat) :
  reaches_root columns a d →
  ¬ within columns (ids (getChildren columns (Some a))) a.
Proof.
  intros Hd (r & Hr & [e He]). unfold ids in Hr.
  apply list_elem_of_fmap in Hr as (c & -> & Hc).
  apply list_elem_of_filter in Hc as [Hp Hin].
  eapply (reaches_root_no_cycle columns a d e Hd).
  by eapply ancestor_at_snoc.
Qed.

Lemma frame_node (a : string) (d : nat) (entry : Pos.t)
    (l l' : gmap string Pos.t) :
  reaches_root columns a d →
  frame columns (ids (getChildren columns (Some a))) (<[a := entry]> l) l' →
  frame columns [a] l l' ∧ l' !! a = Some entry.
Proof.
  intros Hd [F G]. split; [split|].
  - intros k Hk. rewrite F.
    + apply lookup_insert_ne. intros ->. apply Hk, within_singleton, in_subtree_refl.
    + intros H. apply Hk, within_singleton. by apply children_within.
  - intros k Hk. destruct (G k Hk) as [H|H].
    + destruct (decide (a = k)) as [->|Hne].
      * right. apply within_singleton, in_subtree_refl.
      * left. by rewrite lookup_insert_ne in H.
    + right. apply within_singleton. by apply children_within.
  - rewrite F; [apply lookup_insert_eq|]. by eapply node_not_below.
Qed.

Lemma siblings_disjoint (r : string) (rs : list string) (dd : nat) (k : string) :
  reaches_root columns r dd → (∀ r', r' ∈ rs → reaches_root columns r' dd) →
  r ∉ rs → within columns [r] k → ¬ within columns rs k.
Proof.
  intros Hr Hrs Hnot Hk (r' & Hr' & Hk'). apply within_singleton in Hk.
  apply Hnot.
  by rewrite (subtrees_disjoint columns r r' k dd Hr (Hrs r' Hr') Hk Hk').
Qed.


(** Placing [r] and then, below it, the siblings [rs]. *)
Lemma forest_placed_cons (r : string) (rs : list string) (dd : nat)
    (x top mid top' : Q) (l1 l' : gmap string Pos.t) :
  reaches_root columns r dd → (∀ r', r' ∈ rs → reaches_root columns r' dd) →
  r ∉ rs →
  forest_placed columns nodeHeights [r] x top mid l1 →
  frame columns rs l1 l' →
  forest_placed columns nodeHeights rs x mid top' l' →
  forest_placed columns nodeHeights (r :: rs) x top top' l'.
Proof.
  intros Hr Hrs Hnot H1 [F _] H2.
  assert (Hag : ∀ k, within columns [r] k → l' !! k = l1 !! k).
  { intros k Hk. apply F. by eapply siblings_disjoint. }
  apply (forest_placed_agree l1 l' [r] x top mid Hag) in H1.
  destruct H1 as (P1 & D1 & M1 & E1 & T1 & X1 & A1 & S1).
  destruct H2 as (P2 & D2 & M2 & E2 & T2 & X2 & A2 & S2).
  assert (Hin1 : ∀ k p, in_subtree columns r k → l' !! k = Some p →
                 (top <= rect_top p)%Q ∧ (rect_bottom p + NODE_GAP_Y <= mid)%Q).
  { intros k p [e He] Hp.
    destruct (P1 r k e) as (p' & Hp' & _ & _ & Ht & Hb);
      [apply list_elem_of_singleton; reflexivity|exact He|].
    rewrite Hp in Hp'. injection Hp' as <-. auto. }
  assert (Hin2 : ∀ k p, within columns rs k → l' !! k = Some p →
                 (mid <= rect_top p)%Q ∧ (rect_bottom p + NODE_GAP_Y <= top')%Q).
  { intros k p (r' & Hr' & [e He]) Hp.
    destruct (P2 r' k e Hr' He) as (p' & Hp' & _ & _ & Ht & Hb).
    rewrite Hp in Hp'. injection Hp' as <-. auto. }
  split.
  { intros r0 k e Hr0 He. apply elem_of_cons in Hr0 as [->|Hr0].
    - destruct (P1 r k e) as (p & Hp & Hx & Hh & Ht & Hb);
        [apply list_elem_of_singleton; reflexivity|exact He|].
      exists p. repeat split; try assumption. lra.
    - destruct (P2 r0 k e Hr0 He) as (p & Hp & Hx & Hh & Ht & Hb).
      exists p. repeat split; try assumption. lra. }
  split.
  { intros k1 k2 p1 p2 Hk1 Hk2 Hun Hp1 Hp2.
    apply within_cons in Hk1 as [Hk1|Hk1]; apply within_cons in Hk2 as [Hk2|Hk2].
    - apply (D1 k1 k2 p1 p2); try assumption; by apply within_singleton.
    - destruct (Hin1 k1 p1 Hk1 Hp1), (Hin2 k2 p2 Hk2 Hp2). left. lra.
    - destruct (Hin2 k1 p1 Hk1 Hp1), (Hin1 k2 p2 Hk2 Hp2). right. lra.
    - by apply (D2 k1 k2 p1 p2). }
  split; [lra|]. split; [discriminate|].
  split.
  { intros r0 rest [= <- <-]. by apply (T1 r []). }
  split.
  { intros pre rl Heq. destruct pre as [|r0 pre].
    - cbn in Heq. injection Heq as Hrl Hnil. subst rl rs.
      destruct (X1 [] r eq_refl) as (k & p & Hk & Hp & Hb).
      exists k, p. repeat split; try assumption.
      rewrite Hb. symmetry. by apply E2.
    - cbn in Heq. injection Heq as Hr0 Hpre. subst r0 rs. by apply (X2 pre rl). }
  split.
  { intros i r1 r2 Hi1 Hi2. destruct i as [|i].
    - cbn in Hi1, Hi2. injection Hi1 as <-.
      destruct rs as [|r2' rest]; [discriminate|]. cbn in Hi2. injection Hi2 as ->.
      destruct (T2 r2 rest eq_refl) as (p2 & Hp2 & Htop2).
      destruct (X1 [] r eq_refl) as (k & p & Hk & Hp & Hb).
      exists (mid - NODE_GAP_Y)%Q, p2. split; [split|split].
      + intros k' p' Hk' Hp'. destruct (Hin1 k' p' Hk' Hp'). lra.
      + exists k, p. repeat split; try assumption. unfold NODE_GAP_Y in *. lra.
      + exact Hp2.
      + unfold NODE_GAP_Y in *. lra.
    - cbn in Hi1, Hi2. by apply (A2 i). }
  intros k Hk. apply within_cons in Hk as [Hk|Hk].
  - apply S1. by apply within_singleton.
  - by apply S2.
Qed.

(** A node over the stack of its children: the node's rectangle starts at
    [top], the children were placed one column to the right from [top] on,
    and [bot] is the larger of the node's bottom and the children's. *)
Lemma forest_placed_node (a : string) (d : nat) (x top top' bot : Q)
    (l' : gmap string Pos.t) :
  let h := height_of nodeHeights a in
  let cs := getChildren columns (Some a) in
  reaches_root columns a d →
  forest_placed columns nodeHeights (ids cs) (x + NODE_WIDTH + NODE_GAP_X) top top' l' →
  l' !! a = Some (Pos.mk x (top + h / 2) h) →
  (top + h <= bot)%Q → (top' - NODE_GAP_Y <= bot)%Q →
  (bot == top + h ∨ (cs ≠ [] ∧ bot == top' - NODE_GAP_Y)) →
  forest_placed columns nodeHeights [a] x top (bot + NODE_GAP_Y) l'.
Proof.
  intros h cs Hd (P & D & M & E & T & X & A & S) Ha Hown Hkids Hbot.
  pose proof (height_of_pos nodeHeights a heights_measured) as Hh. fold h in Hh.
  assert (Hhdef : h = height_of nodeHeights a) by reflexivity.
  assert (Hcsdef : cs = getChildren columns (Some a)) by reflexivity.
  clearbody h cs.
  split.
  { intros r k e Hr He. apply list_elem_of_singleton in Hr as ->.
    destruct e as [|e].
    - cbn in He. injection He as ->. eexists. split; [exact Ha|].
      cbn [column_x]. unfold_layout_constants.
      repeat split; [lra|exact Hhdef|lra|lra].
    - apply ancestor_at_last in He as (c & He & Hc & Hp).
      destruct (P (Column.id c) k e) as (p & Hp' & Hx & Hhk & Ht & Hb); [|exact He|].
      { rewrite Hcsdef. apply in_ids. apply list_elem_of_filter. auto. }
      exists p. cbn [column_x]. unfold_layout_constants.
      repeat split; try assumption; lra. }
  split.
  { intros k1 k2 p1 p2 Hk1 Hk2 [Hun1 Hun2] Hp1 Hp2.
    apply within_singleton in Hk1, Hk2.
    destruct (in_subtree_children a k1 Hk1) as [->|Hc1]; [contradiction|].
    destruct (in_subtree_children a k2 Hk2) as [->|Hc2]; [contradiction|].
    rewrite <- Hcsdef in Hc1, Hc2. by apply (D k1 k2 p1 p2). }
  split; [unfold NODE_GAP_Y; lra|]. split; [discriminate|].
  split.
  { intros r0 rest [= <- <-]. eexists. split; [exact Ha|].
    unfold_layout_constants. lra. }
  split.
  { intros pre rl Heq. destruct pre as [|r0 pre].
    2:{ destruct pre; discriminate. }
    cbn in Heq. injection Heq as <-.
    destruct Hbot as [Hbot|[Hne Hbot]].
    - exists a. eexists. split; [apply in_subtree_refl|]. split; [exact Ha|].
      unfold_layout_constants. lra.
    - destruct (exists_last Hne) as (pre' & cl & Hcs).
      destruct (X (ids pre') (Column.id cl)) as (k & p & Hk & Hp & Hb).
      { rewrite Hcs. unfold ids. rewrite fmap_app. reflexivity. }
      exists k, p. split; [|split; [exact Hp|]].
      + eapply in_subtree_trans; [|exact Hk]. apply child_in_subtree.
        rewrite <- Hcsdef, Hcs. apply elem_of_app. right.
        apply list_elem_of_singleton. reflexivity.
      + unfold_layout_constants. lra. }
  split.
  { intros i r1 r2 Hi1 Hi2. destruct i; discriminate. }
  intros k Hk. apply within_singleton in Hk.
  destruct (in_subtree_children a k Hk) as [->|Hc];
    [|apply S; by rewrite Hcsdef].
  unfold children_stacked. rewrite <- Hcsdef. split; [exact A|].
  intros c0 rest Hch.
  destruct (T (Column.id c0) (ids rest)) as (p0 & Hp0 & Ht0).
  { rewrite Hch. reflexivity. }
  exists p0. eexists. split; [exact Hp0|]. split; [exact Ha|].
  unfold_layout_constants. lra.
Qed.

Lemma forest_placed_nil (x top : Q) (l : gmap string Pos.t) :
  forest_placed columns nodeHeights [] x top top l.
Proof.
  split; [intros r k e Hr; by apply elem_of_nil in Hr|].
  split; [intros k1 k2 p1 p2 (r & Hr & _); by apply elem_of_nil in Hr|].
  split; [apply Qle_refl|]. split; [reflexivity|].
  split; [discriminate|].
  split; [intros pre rl H; by destruct pre|].
  split; [intros i r1 r2 H; discriminate|].
  intros k (r & Hr & _). by apply elem_of_nil in Hr.
Qed.

Lemma children_unique (a : option string) :
  NoDup (ids (getChildren columns a)).
Proof.
  unfold ids, getChildren. eapply sublist_NoDup; [exact unique_ids|].
  apply fmap_sublist, sublist_filter.
Qed.

Lemma children_depth (a : string) (d : nat) (c : Column.t) :
  reaches_root columns a d → c ∈ getChildren columns (Some a) →
  reaches_root columns (Column.id c) (S d).
Proof.
  intros Hd Hc. apply list_elem_of_filter in Hc as [Hp Hin].
  by eapply reaches_root_child.
Qed.

Lemma roots_depth (c : Column.t) :
  c ∈ getChildren columns None → reaches_root columns (Column.id c) 0.
Proof.
  intros Hc. apply list_elem_of_filter in Hc as [Hp Hin].
  exists (Column.id c), c. split; [reflexivity|]. split; [|exact Hp].
  by apply find_col_NoDup.
Qed.

Section Stack.
Variable place : gmap string Pos.t → string → Q → Q → option (Q * gmap string Pos.t).

Lemma stack_cons (c : Column.t) (cs : list Column.t) (x top : Q)
    (l : gmap string Pos.t) :
  stack place (c :: cs) x top l
  = match place l (Column.id c) x top with
    | Some (bottom, l1) => stack place cs x (bottom + NODE_GAP_Y) l1
    | None => None
    end.
Proof.
  unfold stack. cbn [foldl mbind option_bind].
  destruct (place l (Column.id c) x top) as [[bottom l1]|]; [reflexivity|].
  cbn. induction cs as [|c' cs IH]; [reflexivity|exact IH].
Qed.

(** If [place] lays out every node of [cs] correctly, [stack] lays out the
    whole list correctly. *)
Lemma stack_sound (cs : list Column.t) (dd : nat) (x : Q) :
  (∀ c, c ∈ cs → reaches_root columns (Column.id c) dd) →
  NoDup (ids cs) →
  (∀ c top l bot l1, c ∈ cs → place l (Column.id c) x top = Some (bot, l1) →
     frame columns [Column.id c] l l1 ∧
     forest_placed columns nodeHeights [Column.id c] x top (bot + NODE_GAP_Y) l1) →
  ∀ top l top' l', stack place cs x top l = Some (top', l') →
    frame columns (ids cs) l l' ∧
    forest_placed columns nodeHeights (ids cs) x top top' l'.
Proof.
  induction cs as [|c cs IH]; intros Hdepth Hnd Hplace top l top' l' Hstack.
  - cbn in Hstack. injection Hstack as <- <-.
    split; [apply frame_nil|apply forest_placed_nil].
  - rewrite stack_cons in Hstack.
    destruct (place l (Column.id c) x top) as [[bot l1]|] eqn:Hc; [|discriminate].
    unfold ids in Hnd. rewrite fmap_cons in Hnd. apply NoDup_cons in Hnd as [Hnot Hnd].
    destruct (Hplace c top l bot l1) as [Hf1 Hp1];
      [apply elem_of_cons; by left|exact Hc|].
    destruct (IH) with (top := (bot + NODE_GAP_Y)%Q) (l := l1) (top' := top') (l' := l')
      as [Hf2 Hp2]; try assumption.
    { intros c' Hc'. apply Hdepth. apply elem_of_cons. by right. }
    { intros c' t0 l0 b0 l0' Hc'. apply Hplace. apply elem_of_cons. by right. }
    unfold ids. rewrite fmap_cons. split; [by eapply frame_cons|].
    eapply (forest_placed_cons (Column.id c) (Column.id <$> cs) dd); try eassumption.
    + apply Hdepth. apply elem_of_cons. by left.
    + intros r' Hr'. apply list_elem_of_fmap in Hr' as (c' & -> & Hc').
      apply Hdepth. apply elem_of_cons. by right.
Qed.

(** If [place] returns for every node of [cs], so does [stack]. *)
Lemma stack_total (cs : list Column.t) (x : Q) :
  (∀ c top l, c ∈ cs → is_Some (place l (Column.id c) x top)) →
  ∀ top l, is_Some (stack place cs x top l).
Proof.
  induction cs as [|c cs IH]; intros Hplace top l; [by eexists|].
  rewrite stack_cons.
  destruct (Hplace c top l) as [[bot l1] ->]; [apply elem_of_cons; by left|].
  apply IH. intros c' t0 l0 Hc'. apply Hplace. apply elem_of_cons. by right.
Qed.

End Stack.

Lemma forest_placed_last_bottom (rs pre : list string) (rl : string)
    (x top top' : Q) (l : gmap string Pos.t) :
  forest_placed columns nodeHeights rs x top top' l → rs = pre ++ [rl] →
  subtree_bottom columns l rl (top' - NODE_GAP_Y).
Proof.
  intros (P & _ & _ & _ & _ & X & _) Hrs. split.
  - intros k p [e He] Hp. destruct (P rl k e) as (p' & Hp' & _ & _ & _ & Hb);
      [rewrite Hrs; apply elem_of_app; right; by apply list_elem_of_singleton|exact He|].
    rewrite Hp in Hp'. injection Hp' as <-. unfold NODE_GAP_Y in *. lra.
  - destruct (X pre rl Hrs) as (k & p & Hk & Hp & Hb). exists k, p.
    repeat split; try assumption. unfold NODE_GAP_Y in *. lra.
Qed.

Lemma subtree_bottom_eq (l : gmap string Pos.t) (a : string) (b b' : Q) :
  b == b' → subtree_bottom columns l a b → subtree_bottom columns l a b'.
Proof.
  intros Heq [Hle (k & p & Hk & Hp & Hb)]. split.
  - intros k' p' Hk' Hp'. specialize (Hle k' p' Hk' Hp'). lra.
  - exists k, p. repeat split; try assumption. lra.
Qed.

Lemma forest_placed_node_bottom (a : string) (x top bot : Q)
    (l : gmap string Pos.t) :
  forest_placed columns nodeHeights [a] x top (bot + NODE_GAP_Y) l →
  subtree_bottom columns l a bot.
Proof.
  intros H. eapply subtree_bottom_eq;
    [|exact (forest_placed_last_bottom [a] [] a x top _ l H eq_refl)].
  unfold NODE_GAP_Y. lra.
Qed.

(** Whatever [positionNode] returns for a node that reaches a root is a
    correct layout of the node's subtree. *)
Lemma positionNode_sound (fuel : nat) :
  ∀ a d x top l bot l',
    reaches_root columns a d →
    positionNode fuel columns nodeHeights l a x top = Some (bot, l') →
    frame columns [a] l l' ∧
    forest_placed columns nodeHeights [a] x top (bot + NODE_GAP_Y) l' ∧
    reports_bottom columns nodeHeights a top bot l'.
Proof.
  induction fuel as [|fuel IH]; intros a d x top l bot l' Hd Hpos; [discriminate|].
  cbn [positionNode] in Hpos. fold (height_of nodeHeights a) in Hpos.
  pose proof (height_of_pos nodeHeights a heights_measured) as Hh.
  set (h := height_of nodeHeights a) in *.
  set (entry := Pos.mk x (top + h / 2) h) in *.
  destruct (getChildren columns (Some a)) as [|c0 cs0] eqn:Hcs.
  - cbn [length Nat.eqb] in Hpos. injection Hpos as <- <-.
    destruct (frame_node a d entry l (<[a := entry]> l) Hd) as [Hf Ha].
    { rewrite Hcs. apply frame_nil. }
    assert (Hfp : forest_placed columns nodeHeights [a] x top (top + h + NODE_GAP_Y)
                    (<[a := entry]> l)).
    { apply (forest_placed_node a d x top top (top + h)); try assumption.
      - rewrite Hcs. apply forest_placed_nil.
      - apply Qle_refl.
      - unfold NODE_GAP_Y. lra.
      - left. reflexivity. }
    split; [exact Hf|]. split; [exact Hfp|].
    split; [by eapply forest_placed_node_bottom|]. split.
    + intros _. reflexivity.
    + intros pre cl H. rewrite Hcs in H. destruct pre; discriminate.
  - rewrite <- Hcs in Hpos. set (cs := getChildren columns (Some a)) in *.
    replace (length cs =? 0)%nat with false in Hpos
      by (subst cs; rewrite Hcs; reflexivity).
    destruct (stack (positionNode fuel columns nodeHeights) cs
                (x + NODE_WIDTH + NODE_GAP_X) top (<[a := entry]> l))
      as [[top' l1]|] eqn:Hstack; [|discriminate].
    cbn [mbind option_bind] in Hpos. injection Hpos as <- <-.
    destruct (stack_sound (positionNode fuel columns nodeHeights) cs (S d)
                (x + NODE_WIDTH + NODE_GAP_X)) with (top := top)
                (l := <[a := entry]> l) (top' := top') (l' := l1) as [Hfc Hpc].
    { intros c Hc. by eapply children_depth. }
    { apply children_unique. }
    { intros c t0 l0 b0 l0' Hc Hcall.
      destruct (IH (Column.id c) (S d) (x + NODE_WIDTH + NODE_GAP_X)%Q t0 l0 b0 l0')
        as (H1 & H2 & _); auto.
      by eapply children_depth. }
    { exact Hstack. }
    destruct (frame_node a d entry l l1 Hd Hfc) as [Hf Ha].
    assert (Hfp : forest_placed columns nodeHeights [a] x top
                    (Qmax (top + h) (top' - NODE_GAP_Y) + NODE_GAP_Y) l1).
    { apply (forest_placed_node a d x top top'); try assumption.
      - apply Q.le_max_l.
      - apply Q.le_max_r.
      - destruct (Q.max_spec (top + h) (top' - NODE_GAP_Y)) as [[Hlt Hm]|[Hle Hm]].
        + right. split; [|exact Hm]. fold cs. rewrite Hcs. discriminate.
        + left. exact Hm. }
    split; [exact Hf|]. split; [exact Hfp|].
    split; [by eapply forest_placed_node_bottom|]. split.
    + intros Hnil. fold cs in Hnil. rewrite Hcs in Hnil. discriminate.
    + intros pre cl Hlast. exists (top' - NODE_GAP_Y)%Q. split; [|reflexivity].
      eapply (forest_placed_last_bottom (ids cs) (ids pre)); [exact Hpc|].
      fold cs in Hlast. rewrite Hlast. unfold ids. rewrite fmap_app. reflexivity.
Qed.

(** *** Which entries the layout writes, whatever the heights *)

Lemma stack_frame
    (place : gmap string Pos.t → string → Q → Q → option (Q * gmap string Pos.t))
    (cs : list Column.t) (dd : nat) (x : Q) :
  (∀ c, c ∈ cs → reaches_root columns (Column.id c) dd) →
  NoDup (ids cs) →
  (∀ c top l bot l1, c ∈ cs → place l (Column.id c) x top = Some (bot, l1) →
     frame columns [Column.id c] l l1 ∧ covered columns [Column.id c] l1) →
  ∀ top l top' l', stack place cs x top l = Some (top', l') →
    frame columns (ids cs) l l' ∧ covered columns (ids cs) l'.
Proof.
  induction cs as [|c cs IH]; intros Hdepth Hnd Hplace top l top' l' Hstack.
  - cbn in Hstack. injection Hstack as <- <-.
    split; [apply frame_nil|]. intros k (r & Hr & _). by apply elem_of_nil in Hr.
  - rewrite stack_cons in Hstack.
    destruct (place l (Column.id c) x top) as [[bot l1]|] eqn:Hc; [|discriminate].
    unfold ids in Hnd. rewrite fmap_cons in Hnd. apply NoDup_cons in Hnd as [Hnot Hnd].
    destruct (Hplace c top l bot l1) as [Hf1 Hc1];
      [apply elem_of_cons; by left|exact Hc|].
    destruct (IH) with (top := (bot + NODE_GAP_Y)%Q) (l := l1) (top' := top') (l' := l')
      as [Hf2 Hc2]; try assumption.
    { intros c' Hc'. apply Hdepth. apply elem_of_cons. by right. }
    { intros c' t0 l0 b0 l0' Hc'. apply Hplace. apply elem_of_cons. by right. }
    unfold ids. rewrite fmap_cons. split; [by eapply frame_cons|].
    intros k Hk. apply within_cons in Hk as [Hk|Hk]; [|by apply Hc2].
    destruct Hf2 as [F2 _]. rewrite F2.
    + apply Hc1. by apply within_singleton.
    + eapply (siblings_disjoint (Column.id c) (Column.id <$> cs) dd); try eassumption.
      * apply Hdepth. apply elem_of_cons. by left.
      * intros r' Hr'. apply list_elem_of_fmap in Hr' as (c' & -> & Hc').
        apply Hdepth. apply elem_of_cons. by right.
      * by apply within_singleton.
Qed.

Lemma positionNode_frame (fuel : nat) :
  ∀ a d x top l bot l',
    reaches_root columns a d →
    positionNode fuel columns nodeHeights l a x top = Some (bot, l') →
    frame columns [a] l l' ∧ covered columns [a] l'.
Proof.
  induction fuel as [|fuel IH]; intros a d x top l bot l' Hd Hpos; [discriminate|].
  cbn [positionNode] in Hpos.
  set (entry := Pos.mk x _ _) in Hpos.
  assert (Hcov : ∀ l1, frame columns (ids (getChildren columns (Some a)))
                         (<[a := entry]> l) l1 →
                       covered columns (ids (getChildren columns (Some a))) l1 →
                       frame columns [a] l l1 ∧ covered columns [a] l1).
  { intros l1 Hf Hc. destruct (frame_node a d entry l l1 Hd Hf) as [Hfa Ha].
    split; [exact Hfa|]. intros k Hk. apply within_singleton in Hk.
    destruct (in_subtree_children a k Hk) as [->|Hk']; [by eexists|by apply Hc]. }
  destruct (length (getChildren columns (Some a)) =? 0)%nat eqn:Hlen.
  - injection Hpos as <- <-. apply Nat.eqb_eq, nil_length_inv in Hlen.
    apply Hcov; rewrite Hlen; [apply frame_nil|].
    intros k (r & Hr & _). by apply elem_of_nil in Hr.
  - destruct (stack _ _ _ _ _) as [[top' l1]|] eqn:Hstack; [|discriminate].
    cbn [mbind option_bind] in Hpos. injection Hpos as <- <-.
    destruct (stack_frame (positionNode fuel columns nodeHeights)
                (getChildren columns (Some a)) (S d) (x + NODE_WIDTH + NODE_GAP_X))
      with (top := top) (l := <[a := entry]> l) (top' := top') (l' := l1) as [Hfc Hcc].
    { intros c Hc. by eapply children_depth. }
    { apply children_unique. }
    { intros c t0 l0 b0 l0' Hc Hcall.
      eapply (IH (Column.id c) (S d)); [by eapply children_depth|exact Hcall]. }
    { exact Hstack. }
    by apply Hcov.
Qed.

(** *** The layout returns *)

Lemma positionNode_total (fuel : nat) :
  ∀ a d x top l,
    reaches_root columns a d → (length columns ≤ d + fuel)%nat →
    is_Some (positionNode fuel columns nodeHeights l a x top).
Proof.
  induction fuel as [|fuel IH]; intros a d x top l Hd Hfuel.
  - pose proof (reaches_root_bound columns a d Hd). lia.
  - cbn [positionNode].
    destruct (length (getChildren columns (Some a)) =? 0)%nat; [by eexists|].
    destruct (stack_total (positionNode fuel columns nodeHeights)
                (getChildren columns (Some a)) (x + NODE_WIDTH + NODE_GAP_X))
      with (top := top)
           (l := <[a := Pos.mk x
                    (top + num_or (nodeHeights !! a) NODE_DEFAULT_HEIGHT / 2)
                    (num_or (nodeHeights !! a) NODE_DEFAULT_HEIGHT)]> l)
      as [[top' l1] ->].
    { intros c t0 l0 Hc. apply (IH (Column.id c) (S d)); [by eapply children_depth|lia]. }
    by eexists.
Qed.

Lemma calculateLayout_total (fuel : nat) :
  (length columns ≤ fuel)%nat →
  ∃ top' layout,
    stack (positionNode fuel columns nodeHeights) (getChildren columns None) 0 0 ∅
      = Some (top', layout) ∧
    calculateLayout fuel columns nodeHeights = Some layout.
Proof.
  intros Hfuel. unfold calculateLayout.
  destruct (stack_total (positionNode fuel columns nodeHeights)
              (getChildren columns None) 0) with (top := 0%Q)
              (l := (∅ : gmap string Pos.t)) as [[top' layout] Hs].
  { intros c t0 l0 Hc. apply (positionNode_total fuel (Column.id c) 0%nat);
      [by apply roots_depth|lia]. }
  exists top', layout. rewrite Hs. auto.
Qed.

Lemma calculateLayout_frame (fuel : nat) (layout : gmap string Pos.t) :
  calculateLayout fuel columns nodeHeights = Some layout →
  ∀ k, is_Some (layout !! k) ↔ ∃ d, reaches_root columns k d.
Proof.
  unfold calculateLayout. intros Hcalc.
  destruct (stack _ _ _ _ _) as [[top' l']|] eqn:Hstack; [|discriminate].
  cbn in Hcalc. injection Hcalc as ->.
  destruct (stack_frame (positionNode fuel columns nodeHeights)
              (getChildren columns None) 0%nat 0) with (top := 0%Q)
              (l := (∅ : gmap string Pos.t)) (top' := top') (l' := layout)
    as [[F G] Hcov].
  { intros c Hc. by apply roots_depth. }
  { apply children_unique. }
  { intros c t0 l0 b0 l0' Hc Hcall.
    eapply (positionNode_frame fuel (Column.id c) 0%nat);
      [by apply roots_depth|exact Hcall]. }
  { exact Hstack. }
  intros k. split.
  - intros Hk. destruct (G k Hk) as [[p Hp]|(r & Hr & [e He])].
    + rewrite lookup_empty in Hp. discriminate.
    + unfold ids in Hr. apply list_elem_of_fmap in Hr as (c & -> & Hc).
      exists (e + 0)%nat. eapply reaches_root_up; [exact He|by apply roots_depth].
  - intros (d & r & c & Hr & Hc & Hp). apply Hcov.
    apply find_col_Some in Hc as [Hin <-].
    exists (Column.id c). split; [|by exists d].
    apply in_ids. apply list_elem_of_filter. auto.
Qed.

Lemma calculateLayout_placed (fuel : nat) (top' : Q) (layout : gmap string Pos.t) :
  stack (positionNode fuel columns nodeHeights) (getChildren columns None) 0 0 ∅
    = Some (top', layout) →
  forest_placed columns nodeHeights (ids (getChildren columns None)) 0 0 top' layout.
Proof.
  intros Hstack.
  destruct (stack_sound (positionNode fuel columns nodeHeights)
              (getChildren columns None) 0%nat 0) with (top := 0%Q)
              (l := (∅ : gmap string Pos.t)) (top' := top') (l' := layout)
    as [_ H]; [| | |exact Hstack|exact H].
  - intros c Hc. by apply roots_depth.
  - apply children_unique.
  - intros c t0 l0 b0 l0' Hc Hcall.
    destruct (positionNode_sound fuel (Column.id c) 0%nat 0 t0 l0 b0 l0')
      as (H1 & H2 & _); auto. by apply roots_depth.
Qed.

End Layout.

(** *** More fuel changes nothing *)

Lemma stack_mono
    (place place' : gmap string Pos.t → string → Q → Q → option (Q * gmap string Pos.t))
    (cs : list Column.t) (x : Q) :
  (∀ c top l r, c ∈ cs → place l (Column.id c) x top = Some r →
                place' l (Column.id c) x top = Some r) →
  ∀ top l r, stack place cs x top l = Some r → stack place' cs x top l = Some r.
Proof.
  induction cs as [|c cs IH]; intros Hle top l r Hs; [exact Hs|].
  rewrite stack_cons in Hs |- *.
  destruct (place l (Column.id c) x top) as [[bot l1]|] eqn:Hc; [|discriminate].
  rewrite (Hle c top l (bot, l1)); [|apply elem_of_cons; by left|exact Hc].
  apply IH; [|exact Hs].
  intros c' t0 l0 r0 Hc'. apply Hle. apply elem_of_cons. by right.
Qed.

Lemma positionNode_mono_S (columns : list Column.t) (nodeHeights : gmap string Q)
    (fuel : nat) :
  ∀ l a x top r,
    positionNode fuel columns nodeHeights l a x top = Some r →
    positionNode (S fuel) columns nodeHeights l a x top = Some r.
Proof.
  induction fuel as [|fuel IH]; intros l a x top r Hpos; [discriminate|].
  cbn [positionNode] in Hpos. cbn [positionNode].
  destruct (length (getChildren columns (Some a)) =? 0)%nat; [exact Hpos|].
  destruct (stack (positionNode fuel columns nodeHeights) _ _ _ _)
    as [[top' l1]|] eqn:Hs; [|discriminate].
  erewrite stack_mono; [exact Hpos| |exact Hs].
  intros c t0 l0 r0 _. apply IH.
Qed.

Lemma positionNode_mono (columns : list Column.t) (nodeHeights : gmap string Q)
    (fuel fuel' : nat) (l : gmap string Pos.t) (a : string) (x top : Q)
    (r : Q * gmap string Pos.t) :
  (fuel ≤ fuel')%nat →
  positionNode fuel columns nodeHeights l a x top = Some r →
  positionNode fuel' columns nodeHeights l a x top = Some r.
Proof.
  induction 1 as [|fuel' _ IH]; [auto|].
  intros H. apply positionNode_mono_S. auto.
Qed.

Lemma calculateLayout_mono (columns : list Column.t) (nodeHeights : gmap string Q)
    (fuel fuel' : nat) (layout : gmap string Pos.t) :
  (fuel ≤ fuel')%nat →
  calculateLayout fuel columns nodeHeights = Some layout →
  calculateLayout fuel' columns nodeHeights = Some layout.
Proof.
  intros Hle. unfold calculateLayout.
  destruct (stack (positionNode fuel columns nodeHeights) _ _ _ _)
    as [r|] eqn:Hs; [|discriminate].
  intros Hcalc.
  rewrite (stack_mono (positionNode fuel columns nodeHeights)
             (positionNode fuel' columns nodeHeights) _ 0) with (r := r);
    [exact Hcalc| |exact Hs].
  intros c t0 l0 r0 _. by apply positionNode_mono.
Qed.

Lemma reaches_root_within_roots (columns : list Column.t) (k : string) (d : nat) :
  reaches_root columns k d →
  within columns (ids (getChildren columns None)) k.
Proof.
  intros (r & c & Hr & Hc & Hp). apply find_col_Some in Hc as [Hin <-].
  exists (Column.id c). split; [|by exists d].
  apply in_ids. apply list_elem_of_filter. auto.
Qed.

Lemma separated_no_overlap (p1 p2 : Pos.t) :
  separated p1 p2 → ¬ overlap_vertically p1 p2.
Proof.
  unfold separated, overlap_vertically, NODE_GAP_Y. intros [H|H] [H1 H2]; lra.
Qed.

(** C2: for columns with unique ids and measured (non-negative) heights the
    layout returns, the same map for every fuel from the number of columns
    on, and in that map: root subtrees and the child subtrees of every node
    are stacked, each starting where the entire subtree of the previous
    sibling ends plus the gap; every call of [positionNode] reports the
    bottom of the entire subtree, the larger of the node's own bottom and
    the bottom of its last child's subtree; and the rectangles of two nodes
    neither of which is an ancestor of the other are a gap apart
    vertically, so they never overlap, in particular not when they share a
    column. *)
Theorem calculateLayout_no_overlap
    (columns : list Column.t) (nodeHeights : gmap string Q) :
  NoDup (ids columns) → measured nodeHeights →
  ∃ layout,
    (∀ fuel, (length columns ≤ fuel)%nat →
       calculateLayout fuel columns nodeHeights = Some layout) ∧
    siblings_stacked columns layout (ids (getChildren columns None)) ∧
    (∀ k, is_Some (layout !! k) → children_stacked columns layout k) ∧
    (∀ fuel a d x top l bot l',
       reaches_root columns a d →
       positionNode fuel columns nodeHeights l a x top = Some (bot, l') →
       reports_bottom columns nodeHeights a top bot l') ∧
    (∀ a b pa pb, layout !! a = Some pa → layout !! b = Some pb →
       unrelated columns a b → separated pa pb) ∧
    no_overlap columns layout.
Proof.
  intros Hnd Hm.
  destruct (calculateLayout_total columns nodeHeights Hnd (length columns) (le_n _))
    as (top' & layout & Hstack & Hcalc).
  pose proof (calculateLayout_placed columns nodeHeights Hnd Hm _ top' layout Hstack)
    as (P & D & M & E & T & X & A & S).
  pose proof (calculateLayout_frame columns nodeHeights Hnd _ layout Hcalc) as Hdom.
  assert (Hin : ∀ k p, layout !! k = Some p →
                  within columns (ids (getChildren columns None)) k).
  { intros k p Hk. destruct (proj1 (Hdom k)) as [d Hd]; [by eexists|].
    by eapply reaches_root_within_roots. }
  assert (Hsep : ∀ a b pa pb, layout !! a = Some pa → layout !! b = Some pb →
                   unrelated columns a b → separated pa pb).
  { intros a b pa pb Ha Hb Hun. apply (D a b pa pb); eauto. }
  exists layout.
  split; [intros fuel Hfuel; by eapply calculateLayout_mono|].
  split; [exact A|].
  split; [intros k [p Hk]; apply S; eauto|].
  split.
  { intros fuel a d x top l bot l' Hd Hcall.
    by destruct (positionNode_sound columns nodeHeights Hnd Hm fuel a d x top l bot l'
                   Hd Hcall) as (_ & _ & ?). }
  split; [exact Hsep|].
  intros a b pa pb Ha Hb Hun _. apply separated_no_overlap. eauto.
Qed.

(** C9: for columns with unique ids the layout returns, the same map for
    every fuel from the number of columns on, and that map has an entry
    for exactly the ids of the columns whose parent chain reaches a root.
    So when every parent exists and no column is its own ancestor, the ids
    of the layout map are the ids of the columns and every column is
    rendered; and a column whose parent chain reaches no root has no entry
    and is not rendered. *)
Theorem calculateLayout_entries
    (columns : list Column.t) (nodeHeights : gmap string Q) :
  NoDup (ids columns) →
  ∃ layout,
    (∀ fuel, (length columns ≤ fuel)%nat →
       calculateLayout fuel columns nodeHeights = Some layout) ∧
    (∀ k, is_Some (layout !! k) ↔ ∃ d, reaches_root columns k d) ∧
    (parents_exist columns → acyclic columns →
       dom layout = list_to_set (ids columns) ∧
       renderedColumns columns layout = columns) ∧
    (∀ c, c ∈ columns → ¬ (∃ d, reaches_root columns (Column.id c) d) →
       layout !! Column.id c = None ∧ c ∉ renderedColumns columns layout).
Proof.
  intros Hnd.
  destruct (calculateLayout_total columns nodeHeights Hnd (length columns) (le_n _))
    as (top' & layout & _ & Hcalc).
  pose proof (calculateLayout_frame columns nodeHeights Hnd _ layout Hcalc) as Hdom.
  exists layout.
  split; [intros fuel Hfuel; by eapply calculateLayout_mono|].
  split; [exact Hdom|]. split.
  - intros Hpe Hac.
    assert (Hall : ∀ c, c ∈ columns → is_Some (layout !! Column.id c)).
    { intros c Hc. apply Hdom.
      apply (well_formed_reaches_root columns Hnd); auto. by apply in_ids. }
    split.
    + apply set_eq. intros k. rewrite elem_of_dom, elem_of_list_to_set. split.
      * intros Hk. apply Hdom in Hk as [d Hd]. by eapply reaches_root_is_column.
      * intros Hk. unfold ids in Hk. apply list_elem_of_fmap in Hk as (c & -> & Hc).
        by apply Hall.
    + unfold renderedColumns. clear -Hall.
      induction columns as [|c cs IH]; [reflexivity|].
      rewrite filter_cons_True by (apply Hall, elem_of_cons; by left).
      f_equal. apply IH. intros c' Hc'. apply Hall, elem_of_cons. by right.
  - intros c Hc Hno.
    assert (Hnone : layout !! Column.id c = None).
    { destruct (layout !! Column.id c) eqn:Hl; [|reflexivity].
      exfalso. apply Hno. apply Hdom. by eexists. }
    split; [exact Hnone|]. unfold renderedColumns.
    intros Hr. apply list_elem_of_filter in Hr as [[p Hp] _]. congruence.
Qed.

Lemma sample_unique_ids : NoDup (ids SampleLayout.columns).
Proof. apply (bool_decide_unpack _). vm_compute. exact I. Qed.

Lemma sample_measured : measured SampleLayout.nodeHeights.
Proof.
  unfold measured, SampleLayout.nodeHeights.
  repeat (apply map_Forall_insert_2; [discriminate|]).
  apply map_Forall_empty.
Qed.

Lemma reaches_root_acyclic (columns : list Column.t) :
  (∀ c, c ∈ columns → ∃ d, reaches_root columns (Column.id c) d) →
  acyclic columns.
Proof.
  intros Hall k [|e] He Hcycle; [lia|].
  pose proof Hcycle as Hk. cbn [ancestor_at] in Hk.
  destruct (find_col k columns) as [c|] eqn:Hc; [|discriminate].
  apply find_col_Some in Hc as [Hin <-].
  destruct (Hall c Hin) as [d Hd].
  exact (reaches_root_no_cycle columns (Column.id c) d e Hd Hcycle).
Qed.

Lemma sample_parents_exist : parents_exist SampleLayout.columns.
Proof.
  intros c p Hc Hp. unfold SampleLayout.columns in Hc.
  repeat (apply elem_of_cons in Hc as [->|Hc]);
    try (by apply elem_of_nil in Hc);
    cbn in Hp; try discriminate; injection Hp as <-;
    apply (bool_decide_unpack _); vm_compute; exact I.
Qed.

Lemma sample_acyclic : acyclic SampleLayout.columns.
Proof.
  apply reaches_root_acyclic. intros c Hc. unfold SampleLayout.columns in Hc.
  repeat (apply elem_of_cons in Hc as [->|Hc]); try (by apply elem_of_nil in Hc).
  - exists 0%nat. do 2 eexists. repeat split; reflexivity.
  - exists 1%nat. do 2 eexists. repeat split; reflexivity.
  - exists 1%nat. do 2 eexists. repeat split; reflexivity.
  - exists 2%nat. do 2 eexists. repeat split; reflexivity.
Qed.

Lemma calculateLayout_no_overlap_witness :
  ∃ layout,
    calculateLayout 4 SampleLayout.columns SampleLayout.nodeHeights = Some layout ∧
    no_overlap SampleLayout.columns layout.
Proof.
  destruct (calculateLayout_no_overlap SampleLayout.columns SampleLayout.nodeHeights)
    as (layout & H1 & _ & _ & _ & _ & H6).
  - exact sample_unique_ids.
  - exact sample_measured.
  - exists layout. split; [apply H1; cbn; lia | exact H6].
Defined.

Lemma calculateLayout_entries_witness :
  ∃ layout,
    calculateLayout 4 SampleLayout.columns SampleLayout.nodeHeights = Some layout ∧
    dom layout = list_to_set (ids SampleLayout.columns).
Proof.
  destruct (calculateLayout_entries SampleLayout.columns SampleLayout.nodeHeights)
    as (layout & H1 & _ & H3 & _).
  - exact sample_unique_ids.
  - exists layout. split; [apply H1; cbn; lia|].
    apply H3; [exact sample_parents_exist | exact sample_acyclic].
Defined.

(** The sample tree: [a1] is taller than its parent [a], so [b], the next
    sibling of [a], starts below the whole subtree of [a]. *)
Example layout_example :
  let layout := default ∅ (calculateLayout 4 SampleLayout.columns
                             SampleLayout.nodeHeights) in
  (λ k, (λ p, (Qred (Pos.x p), Qred (rect_top p), Qred (rect_bottom p)))
          <$> layout !! k) <$> ["r"; "a"; "a1"; "b"]
  = [Some (0, 0, 300); Some (600, 0, 100); Some (1200, 0, 400);
     Some (600, 450, 650)]%Q.
Proof. vm_compute. reflexivity. Qed.

(** A column whose parent is missing and the columns of a cycle get no
    layout entry; the root beside them does. *)
Example layout_broken_example :
  let layout := default ∅ (calculateLayout 4 SampleLayout.broken ∅) in
  (λ k, bool_decide (is_Some (layout !! k))) <$> ["r"; "o"; "p"; "q"]
  = [true; false; false; false].
Proof. vm_compute. reflexivity. Qed.

(** ** Closing a column *)

Lemma delete_list_lookup {V} (l : list string) (m : gmap string V) (k : string) :
  foldr (λ id next, delete id next) m l !! k
  = if decide (k ∈ l) then None else m !! k.
Proof.
  induction l as [|x l IH]; cbn [foldr].
  - destruct (decide (k ∈ [])) as [H|_]; [by apply elem_of_nil in H|reflexivity].
  - destruct (decide (x = k)) as [->|Hne].
    + rewrite lookup_delete_eq. rewrite decide_True; [reflexivity|].
      apply elem_of_cons. by left.
    + rewrite lookup_delete_ne by exact Hne. rewrite IH.
      destruct (decide (k ∈ l)) as [Hin|Hnin].
      * rewrite decide_True; [reflexivity|]. apply elem_of_cons. by right.
      * rewrite decide_False; [reflexivity|].
        intros [->|H]%elem_of_cons; congruence.
Qed.

Lemma delete_all_lookup {V} (toDelete : gset string) (m : gmap string V) (k : string) :
  delete_all toDelete m !! k = if decide (k ∈ toDelete) then None else m !! k.
Proof.
  unfold delete_all. rewrite delete_list_lookup.
  destruct (decide (k ∈ elements toDelete)) as [H|H];
    rewrite elem_of_elements in H.
  - by rewrite decide_True.
  - by rewrite decide_False.
Qed.

Lemma elem_of_concat {A} (x : A) (ls : list (list A)) :
  x ∈ concat ls ↔ ∃ l, x ∈ l ∧ l ∈ ls.
Proof.
  induction ls as [|l0 ls IH]; cbn [concat].
  - split; [intros H; by apply elem_of_nil in H|].
    intros (l & _ & H). by apply elem_of_nil in H.
  - rewrite elem_of_app, IH. split.
    + intros [H|(l & Hx & Hl)].
      * exists l0. split; [exact H|apply elem_of_cons; by left].
      * exists l. split; [exact Hx|apply elem_of_cons; by right].
    + intros (l & Hx & [->|Hl]%elem_of_cons); [by left|right; eauto].
Qed.

Lemma Forall2_elem_l {A B} (P : A → B → Prop) (l : list A) (k : list B) (x : A) :
  Forall2 P l k → x ∈ l → ∃ y, y ∈ k ∧ P x y.
Proof.
  induction 1 as [|x0 y0 l k Hxy _ IH]; intros Hx; [by apply elem_of_nil in Hx|].
  apply elem_of_cons in Hx as [->|Hx].
  - exists y0. split; [apply elem_of_cons; by left|exact Hxy].
  - destruct (IH Hx) as (y & Hy & HP). exists y. split; [apply elem_of_cons; by right|exact HP].
Qed.

Lemma Forall2_elem_r {A B} (P : A → B → Prop) (l : list A) (k : list B) (y : B) :
  Forall2 P l k → y ∈ k → ∃ x, x ∈ l ∧ P x y.
Proof.
  induction 1 as [|x0 y0 l k Hxy _ IH]; intros Hy; [by apply elem_of_nil in Hy|].
  apply elem_of_cons in Hy as [->|Hy].
  - exists x0. split; [apply elem_of_cons; by left|exact Hxy].
  - destruct (IH Hy) as (x & Hx & HP). exists x. split; [apply elem_of_cons; by right|exact HP].
Qed.

Section Close.
Variable columns : list Column.t.
Hypothesis unique_ids : NoDup (ids columns).

Lemma getDescendants_sound (fuel : nat) :
  ∀ id desc, getDescendants fuel columns id = Some desc →
    ∀ k, k ∈ desc ↔ in_subtree columns id k.
Proof.
  induction fuel as [|fuel IH]; intros id desc Hdesc k; [discriminate|].
  cbn [getDescendants] in Hdesc.
  destruct (mapM _ _) as [below|] eqn:Hbelow; [|discriminate].
  cbn in Hdesc. injection Hdesc as <-.
  apply mapM_Some in Hbelow.
  split.
  - intros [->|Hk]%elem_of_cons; [apply in_subtree_refl|].
    apply elem_of_concat in Hk as (ds & Hk & Hds).
    destruct (Forall2_elem_r _ _ _ _ Hbelow Hds) as (c & Hc & Hcall).
    apply list_elem_of_filter in Hc as [Hp Hin].
    eapply in_subtree_child; eauto. by apply (IH (Column.id c) ds).
  - intros Hk. apply in_subtree_cases in Hk as [->|(c & Hin & Hp & Hk)].
    + apply elem_of_cons. by left.
    + apply elem_of_cons. right.
      assert (Hc : c ∈ filter (λ c, Column.parentId c = Some id) columns)
        by (apply list_elem_of_filter; auto).
      destruct (Forall2_elem_l _ _ _ _ Hbelow Hc) as (ds & Hds & Hcall).
      apply elem_of_concat. exists ds. split; [|exact Hds].
      by apply (IH (Column.id c) ds).
Qed.

Lemma getDescendants_total (fuel : nat) :
  ∀ id d, reaches_root columns id d → (length columns ≤ d + fuel)%nat →
    is_Some (getDescendants fuel columns id).
Proof.
  induction fuel as [|fuel IH]; intros id d Hd Hfuel.
  - pose proof (reaches_root_bound columns id d Hd). lia.
  - cbn [getDescendants].
    destruct (mapM _ _) as [below|] eqn:Hbelow; [by eexists|].
    exfalso. apply eq_None_not_Some in Hbelow. apply Hbelow.
    apply mapM_is_Some. apply Forall_forall. intros c Hc.
    apply list_elem_of_filter in Hc as [Hp Hin].
    apply (IH (Column.id c) (S d)); [by eapply reaches_root_child|lia].
Qed.

End Close.

Lemma getDescendants_mono_S (columns : list Column.t) (fuel : nat) :
  ∀ id desc, getDescendants fuel columns id = Some desc →
             getDescendants (S fuel) columns id = Some desc.
Proof.
  induction fuel as [|fuel IH]; intros id desc Hdesc; [discriminate|].
  cbn [getDescendants] in Hdesc.
  destruct (mapM _ _) as [below|] eqn:Hbelow; [|discriminate].
  change (getDescendants (S (S fuel)) columns id)
    with (mapM (λ c, getDescendants (S fuel) columns (Column.id c))
               (filter (λ c, Column.parentId c = Some id) columns)
          ≫= λ below, Some (id :: concat below)).
  assert (Hnext : mapM (λ c, getDescendants (S fuel) columns (Column.id c))
                    (filter (λ c, Column.parentId c = Some id) columns) = Some below).
  { apply mapM_Some. apply mapM_Some in Hbelow.
    eapply Forall2_impl; [exact Hbelow|]. intros c ds Hc. by apply IH. }
  rewrite Hnext. exact Hdesc.
Qed.

Lemma getDescendants_mono (columns : list Column.t) (fuel fuel' : nat)
    (id : string) (desc : list string) :
  (fuel ≤ fuel')%nat →
  getDescendants fuel columns id = Some desc →
  getDescendants fuel' columns id = Some desc.
Proof.
  induction 1 as [|fuel' _ IH]; [auto|].
  intros H. apply getDescendants_mono_S. auto.
Qed.

Lemma kept_column (columns : list Column.t) (toDelete : gset string) (k : string) :
  k ∈ ids columns → k ∉ toDelete →
  k ∈ ids (filter (λ c, Column.id c ∉ toDelete) columns).
Proof.
  intros Hk Hkeep. unfold ids in *.
  apply list_elem_of_fmap in Hk as (c & -> & Hc).
  apply list_elem_of_fmap. exists c. split; [reflexivity|].
  apply list_elem_of_filter. auto.
Qed.



(** Closing [a] in the sample tree while its child [a1] is selected: [a]
    and [a1] go, with their heights and offsets; the selection moves to the
    parent [r]. *)
Example close_example :
  match handleCloseColumn 4 SampleClose.tree_state "a" with
  | Some (Normal st') =>
      ids (App.columns st') = ["r"; "b"] ∧
      App.selectedColumnId st' = "r" ∧
      (λ k, App.nodeHeights st' !! k) <$> ["r"; "a"; "a1"]
        = [Some 300%Q; None; None] ∧
      (λ k, App.nodeOffsets st' !! k) <$> ["a1"; "b"]
        = [None; Some (Vec.mk 1 1)]
  | _ => False
  end.
Proof. vm_compute. repeat split; reflexivity. Qed.

(* ================================================================== *)
(** * Further properties of the code *)
(* ================================================================== *)

(** ** Height measurements *)

(** X1: after a height report the stored height of the node is less than
    2 away from the reported one (it is the reported one, or the old one
    when that was already that close), no other node's height changes,
    reporting the same height again changes nothing, and a non-negative
    report keeps a map of non-negative heights non-negative. *)
Theorem handleNodeResize_close (prev : gmap string Q) (id : string) (height : Q) :
  let next := handleNodeResize prev id height in
  (Qabs (num_or (next !! id) 0 - height) < 2)%Q ∧
  (∀ k, k ≠ id → next !! k = prev !! k) ∧
  handleNodeResize next id height = next ∧
  ((0 <= height)%Q → measured prev → measured next).
Proof.
  cbv zeta.
  assert (Hcase : ((Qabs (num_or (prev !! id) 0 - height) < 2)%Q
                   ∧ handleNodeResize prev id height = prev)
                  ∨ ((2 <= Qabs (num_or (prev !! id) 0 - height))%Q
                     ∧ handleNodeResize prev id height = <[id := height]> prev)).
  { unfold handleNodeResize. destruct (Qlt_le_dec _ _); auto. }
  assert (Hfix : ∀ m, (Qabs (num_or (m !! id) 0 - height) < 2)%Q →
                      handleNodeResize m id height = m).
  { intros m Hlt. unfold handleNodeResize.
    destruct (Qlt_le_dec _ _) as [_|Hge]; [reflexivity|].
    exfalso. apply (Qlt_not_le _ _ Hlt Hge). }
  destruct Hcase as [[Hlt ->]|[Hge ->]].
  - split; [exact Hlt|]. split; [reflexivity|]. split; [by apply Hfix|auto].
  - assert (Hnew : (Qabs (num_or (<[id := height]> prev !! id) 0 - height) < 2)%Q).
    { rewrite lookup_insert_eq. unfold num_or.
      destruct (Qeq_bool height 0) eqn:Hz.
      - apply Qeq_bool_iff in Hz. apply Qabs_Qlt_condition. split; lra.
      - apply Qabs_Qlt_condition. split; lra. }
    split; [exact Hnew|]. split; [intros k Hk; by apply lookup_insert_ne|].
    split; [by apply Hfix|].
    intros Hh Hm. by apply map_Forall_insert_2.
Qed.

(** ** Pointer gestures *)

Lemma handleMouseMove_idle (st : App.t) (e : MouseEvent.t) :
  App.dragRef st = None → handleMouseMove st e = st.
Proof. intros H. unfold handleMouseMove. by rewrite H. Qed.

(** X2: once the button is released, move events change nothing: the
    state after [handleMouseUp] is a fixed point of every sequence of
    [mousemove]s, and the release itself changes neither the pan nor any
    manual offset. *)
Theorem moves_after_release (st : App.t) (moves : list MouseEvent.t) :
  foldl handleMouseMove (handleMouseUp st) moves = handleMouseUp st ∧
  App.pan (handleMouseUp st) = App.pan st ∧
  App.nodeOffsets (handleMouseUp st) = App.nodeOffsets st.
Proof.
  split; [|split; reflexivity].
  induction moves as [|e moves IH]; [reflexivity|].
  cbn [foldl]. rewrite handleMouseMove_idle; [exact IH|reflexivity].
Qed.

(** X3: a canvas drag (primary or middle button pressed outside every
    column) moves the pan by the pointer's total screen-space delta since
    the press, whatever the scale and the intermediate moves, and leaves
    the scale and all manual offsets as they were; a press on a column or
    with another button starts no pan. *)
Theorem canvas_drag_pan
    (st : App.t) (down final : MouseEvent.t) (moves : list MouseEvent.t)
    (button : Z) :
  button = 0%Z ∨ button = 1%Z →
  let drag :=
    foldl handleMouseMove (handleMouseDown st down button false)
          (moves ++ [final]) in
  App.pan drag
    = Vec.mk (Vec.x (App.pan st)
              + (MouseEvent.clientX final - MouseEvent.clientX down))
             (Vec.y (App.pan st)
              + (MouseEvent.clientY final - MouseEvent.clientY down)) ∧
  App.scale drag = App.scale st ∧
  App.nodeOffsets drag = App.nodeOffsets st ∧
  handleMouseDown st down button true = st ∧
  (∀ other, other ≠ 0%Z → other ≠ 1%Z →
     handleMouseDown st down other false = st).
Proof.
  intros Hbutton. cbv zeta.
  assert (Hdown : handleMouseDown st down button false
            = setDragRef st
                (Some (Drag.mk canvas (MouseEvent.clientX down)
                         (MouseEvent.clientY down) None (Some (App.pan st)) None))).
  { unfold handleMouseDown. destruct Hbutton as [-> | ->]; reflexivity. }
  rewrite Hdown. set (st0 := setDragRef st _).
  assert (Hoff : ∀ ms, App.nodeOffsets (foldl handleMouseMove st0 ms)
                       = App.nodeOffsets st).
  { intros ms. induction ms as [|e ms IH] using rev_ind; [reflexivity|].
    rewrite foldl_app. cbn [foldl]. unfold handleMouseMove at 1.
    destruct (moves_keep ms st0) as [Hd _]. rewrite Hd. cbn. exact IH. }
  split; [|split; [|split; [apply Hoff|split]]].
  - rewrite foldl_app. cbn [foldl]. unfold handleMouseMove at 1.
    destruct (moves_keep moves st0) as [Hd _]. rewrite Hd. reflexivity.
  - by destruct (moves_keep (moves ++ [final]) st0) as [_ ->].
  - unfold handleMouseDown. destruct Hbutton as [-> | ->]; reflexivity.
  - intros other H0 H1. unfold handleMouseDown.
    destruct (other =? 0)%Z eqn:E0; [apply Z.eqb_eq in E0; contradiction|].
    destruct (other =? 1)%Z eqn:E1; [apply Z.eqb_eq in E1; contradiction|].
    reflexivity.
Qed.

Lemma canvas_drag_pan_witness :
  App.pan (foldl handleMouseMove
             (handleMouseDown Sample.state Sample.down 0 false)
             ([Sample.move1] ++ [Sample.move2]))
  = Vec.mk (100 + (40 - 10)) (0 + (60 - 20)).
Proof.
  exact (proj1 (canvas_drag_pan Sample.state Sample.down Sample.move2
                  [Sample.move1] 0 (or_introl eq_refl))).
Defined.

Lemma node_move_frame (st : App.t) (e : MouseEvent.t) (columnId : string)
    (sx sy : Q) (ip io : option Vec.t) :
  App.dragRef st = Some (Drag.mk node sx sy (Some columnId) ip io) →
  App.pan (handleMouseMove st e) = App.pan st ∧
  App.columns (handleMouseMove st e) = App.columns st ∧
  ∀ k, k ≠ columnId →
    App.nodeOffsets (handleMouseMove st e) !! k = App.nodeOffsets st !! k.
Proof.
  intros Hd. unfold handleMouseMove. rewrite Hd. cbn.
  destruct io as [o|]; [|auto]. destruct (truthy columnId); [|auto]. cbn.
  repeat split. intros k Hk. by rewrite lookup_insert_ne by congruence.
Qed.

(** X4: a node drag touches nothing but the dragged node's offset: after
    any sequence of moves the pan, the scale, the columns and every other
    node's manual offset are as before the drag. *)
Theorem node_drag_frame
    (st : App.t) (columnId : string) (down : MouseEvent.t)
    (moves : list MouseEvent.t) :
  let drag := foldl handleMouseMove (handleNodeDragStart st down columnId) moves in
  App.pan drag = App.pan st ∧
  App.scale drag = App.scale st ∧
  App.columns drag = App.columns st ∧
  ∀ k, k ≠ columnId → App.nodeOffsets drag !! k = App.nodeOffsets st !! k.
Proof.
  cbv zeta. set (st0 := handleNodeDragStart st down columnId).
  induction moves as [|e moves IH] using rev_ind.
  - repeat split; reflexivity.
  - rewrite foldl_app. cbn [foldl].
    destruct IH as (Hpan & Hscale & Hcols & Hoff).
    destruct (moves_keep moves st0) as [Hd _].
    destruct (handleMouseMove_keeps (foldl handleMouseMove st0 moves) e) as [_ Hs].
    destruct (node_move_frame (foldl handleMouseMove st0 moves) e columnId
                (MouseEvent.clientX down) (MouseEvent.clientY down) None
                (Some (offset_or_zero (App.nodeOffsets st) columnId)) Hd)
      as (Hp' & Hc' & Ho').
    split; [congruence|]. split; [congruence|]. split; [congruence|].
    intros k Hk. rewrite Ho' by exact Hk. by apply Hoff.
Qed.

(** ** Focus and zoom range *)

(** X5: focusing a laid-out node sets the pan so that the centre of the
    node - its layout position plus the entry the offset map holds for it
    (nothing added when it holds none), half a node width to the right - is
    shown at the centre of the viewport at the current scale; scale and offsets stay; and a node without a layout entry, or a
    missing viewport element, leaves the state as it is. *)
Theorem focusNode_centres
    (st : App.t) (layout : gmap string Pos.t) (viewportW viewportH : Q)
    (nodeId : string) (pos : Pos.t) :
  layout !! nodeId = Some pos →
  let st' := focusNode st layout (Some (viewportW, viewportH)) nodeId in
  let offset := match App.nodeOffsets st !! nodeId with
                | Some manual => manual
                | None => Vec.mk 0 0
                end in
  let centre := Vec.mk (Pos.x pos + Vec.x offset + NODE_WIDTH / 2)
                       (Pos.y pos + Vec.y offset) in
  Vec_eq (toScreen (App.pan st') (App.scale st') centre)
         (Vec.mk (viewportW / 2) (viewportH / 2)) ∧
  App.scale st' = App.scale st ∧
  App.nodeOffsets st' = App.nodeOffsets st ∧
  focusNode st layout None nodeId = st ∧
  (∀ other, layout !! other = None →
     focusNode st layout (Some (viewportW, viewportH)) other = st).
Proof.
  intros Hpos. cbv zeta. unfold focusNode. rewrite Hpos.
  split; [|split; [reflexivity|split; [reflexivity|split; [reflexivity|]]]].
  - unfold offset_or_zero, default.
    destruct (App.nodeOffsets st !! nodeId) as [manual|];
      unfold Vec_eq, toScreen, NODE_WIDTH; cbn; split; field.
  - intros other Hother. by rewrite Hother.
Qed.

Lemma focusNode_centres_witness :
  let st := App.mk true Sample.tree "B" "next question" ∅ (Vec.mk 100 0) 2 None
              {["B" := Vec.mk 5 7]} in
  Vec_eq
    (toScreen
       (App.pan (focusNode st {["B" := Pos.mk 600 50 100]}
                   (Some (1000, 800)%Q) "B"))
       2
       (Vec.mk (600 + 5 + NODE_WIDTH / 2) (50 + 7)))
    (Vec.mk (1000 / 2) (800 / 2)).
Proof.
  exact (proj1 (focusNode_centres
                  (App.mk true Sample.tree "B" "next question" ∅ (Vec.mk 100 0)
                     2 None {["B" := Vec.mk 5 7]})
                  {["B" := Pos.mk 600 50 100]}
                  1000 800 "B" (Pos.mk 600 50 100) eq_refl)).
Defined.

Lemma viewport_step_scale (st : App.t) (ev : ViewportEvent) :
  (0.1 <= App.scale st <= 3)%Q →
  (0.1 <= App.scale (viewport_step st ev) <= 3)%Q.
Proof.
  intros Hs. destruct ev as [e b c|e c|e| |e| |]; cbn [viewport_step].
  - unfold handleMouseDown. destruct (_ || _); [destruct c|]; exact Hs.
  - exact Hs.
  - by destruct (handleMouseMove_keeps st e) as [_ ->].
  - exact Hs.
  - unfold handleWheel. destruct (negb (App.hasStarted st)); [exact Hs|].
    cbn [App.scale setPan setScale]. apply Qmin_Qmax_bounds. lra.
  - unfold zoomOutClick. cbn [App.scale setScale]. minmax_lra.
  - unfold zoomInClick. cbn [App.scale setScale]. minmax_lra.
Qed.

(** X6: the zoom factor never leaves [0.1, 3]: starting inside the range,
    it is inside the range after every sequence of presses, drags, moves,
    releases, wheel events and zoom-button clicks. *)
Theorem scale_stays_in_range (st : App.t) (events : list ViewportEvent) :
  (0.1 <= App.scale st <= 3)%Q →
  (0.1 <= App.scale (foldl viewport_step st events) <= 3)%Q.
Proof.
  revert st. induction events as [|ev events IH]; intros st Hs; [exact Hs|].
  cbn [foldl]. apply IH. by apply viewport_step_scale.
Qed.

Lemma scale_stays_in_range_witness :
  (0.1 <= App.scale
            (foldl viewport_step Sample.state
               [Wheel Sample.wheel; ZoomIn; ZoomIn; Wheel Sample.wheel;
                ZoomOut; MouseDown Sample.down 0 false; MouseMove Sample.move1])
   <= 3)%Q.
Proof.
  apply (scale_stays_in_range Sample.state). split; vm_compute; discriminate.
Defined.

(** ** Tree-store updaters and the tree shape *)

Lemma shape_ids (columns : list Column.t) : ids columns = fst <$> shape columns.
Proof. unfold ids, shape. rewrite <- list_fmap_compose. reflexivity. Qed.

Lemma apply_op_shape (columns : list Column.t) (op : StoreOp) :
  shape (apply_op columns op) = shape columns.
Proof.
  unfold shape. destruct op as [cid m|cid ch|cid b|cid]; cbn [apply_op];
    unfold addMessageToColumn, updateLastMessage, setThinking, handleToggleCollapse;
    rewrite <- list_fmap_compose; apply list_fmap_ext; intros i c _; cbn;
    destruct (String.eqb (Column.id c) cid); reflexivity.
Qed.

Lemma find_col_shape (cols1 cols2 : list Column.t) (k : string) :
  shape cols1 = shape cols2 →
  Column.parentId <$> find_col k cols1 = Column.parentId <$> find_col k cols2.
Proof.
  revert cols2. induction cols1 as [|c1 cols1 IH]; intros [|c2 cols2] Hs;
    try discriminate; [reflexivity|].
  unfold shape in Hs. rewrite !fmap_cons in Hs. injection Hs as Hid Hp Hs.
  unfold find_col. cbn [find]. rewrite Hid.
  destruct (String.eqb (Column.id c2) k); [cbn; by rewrite Hp|].
  by apply IH.
Qed.

Lemma ancestor_at_shape (cols1 cols2 : list Column.t) (e : nat) (k : string) :
  shape cols1 = shape cols2 →
  ancestor_at cols1 e k = ancestor_at cols2 e k.
Proof.
  intros Hs. revert k. induction e as [|e IH]; intros k; [reflexivity|].
  cbn [ancestor_at]. pose proof (find_col_shape cols1 cols2 k Hs) as Hf.
  destruct (find_col k cols1) as [c1|], (find_col k cols2) as [c2|];
    cbn in Hf; try discriminate; [|reflexivity].
  injection Hf as ->. destruct (Column.parentId c2); [apply IH|reflexivity].
Qed.

Lemma getChildren_shape (cols1 cols2 : list Column.t) (p : option string) :
  shape cols1 = shape cols2 →
  ids (getChildren cols1 p) = ids (getChildren cols2 p).
Proof.
  revert cols2. induction cols1 as [|c1 cols1 IH]; intros [|c2 cols2] Hs;
    try discriminate; [reflexivity|].
  unfold shape in Hs. rewrite !fmap_cons in Hs. injection Hs as Hid Hp Hs.
  unfold getChildren. rewrite !filter_cons. rewrite Hp.
  destruct (decide (Column.parentId c2 = p)).
  - unfold ids. rewrite !fmap_cons, Hid. f_equal. by apply IH.
  - by apply IH.
Qed.

Lemma stack_ids
    (place place' : gmap string Pos.t → string → Q → Q → option (Q * gmap string Pos.t))
    (cs cs' : list Column.t) (x : Q) :
  ids cs = ids cs' →
  (∀ l k x top, place l k x top = place' l k x top) →
  ∀ top l, stack place cs x top l = stack place' cs' x top l.
Proof.
  intros Hids Hext. revert cs' Hids.
  induction cs as [|c cs IH]; intros [|c' cs'] Hids top l; try discriminate;
    [reflexivity|].
  unfold ids in Hids. rewrite !fmap_cons in Hids. injection Hids as Hid Hids.
  rewrite !stack_cons, Hid, Hext.
  destruct (place' l (Column.id c') x top) as [[b l1]|]; [|reflexivity].
  by apply IH.
Qed.

Lemma positionNode_shape (cols1 cols2 : list Column.t) (nodeHeights : gmap string Q)
    (fuel : nat) :
  shape cols1 = shape cols2 →
  ∀ l a x top,
    positionNode fuel cols1 nodeHeights l a x top
    = positionNode fuel cols2 nodeHeights l a x top.
Proof.
  intros Hs. induction fuel as [|fuel IH]; intros l a x top; [reflexivity|].
  cbn [positionNode].
  pose proof (getChildren_shape cols1 cols2 (Some a) Hs) as Hch.
  assert (Hlen : length (getChildren cols1 (Some a))
                 = length (getChildren cols2 (Some a))).
  { apply (f_equal length) in Hch. unfold ids in Hch.
    by rewrite !length_fmap in Hch. }
  rewrite Hlen.
  destruct (length (getChildren cols2 (Some a)) =? 0)%nat; [reflexivity|].
  rewrite (stack_ids _ (positionNode fuel cols2 nodeHeights) _
             (getChildren cols2 (Some a)) _ Hch IH).
  reflexivity.
Qed.

(** X7: appending a message, streaming a chunk, setting the thinking flag
    and toggling collapse never change the tree: after any sequence of
    them the ids and parent links are the same, in the same order, so the
    well-formedness of the store is kept and, for the same measured
    heights, the layout is the same map. *)
Theorem store_ops_keep_tree
    (columns : list Column.t) (ops : list StoreOp) :
  let columns' := foldl apply_op columns ops in
  shape columns' = shape columns ∧
  (well_formed columns → well_formed columns') ∧
  ∀ fuel nodeHeights,
    calculateLayout fuel columns' nodeHeights
    = calculateLayout fuel columns nodeHeights.
Proof.
  cbv zeta.
  assert (Hshape : shape (foldl apply_op columns ops) = shape columns).
  { revert columns. induction ops as [|op ops IH]; intros columns; [reflexivity|].
    cbn [foldl]. rewrite IH. apply apply_op_shape. }
  set (columns' := foldl apply_op columns ops) in *.
  assert (Hids : ids columns' = ids columns) by (by rewrite !shape_ids, Hshape).
  split; [exact Hshape|]. split.
  - intros (Hnd & Hpe & Hac). split; [by rewrite Hids|]. split.
    + intros c p Hc Hp. rewrite Hids.
      assert (Hin : (Column.id c, Some p) ∈ shape columns).
      { rewrite <- Hshape. unfold shape. apply list_elem_of_fmap.
        exists c. by rewrite Hp. }
      unfold shape in Hin. apply list_elem_of_fmap in Hin as (c0 & Heq & Hc0).
      injection Heq as _ Hp0. by apply (Hpe c0 p).
    + intros k e He. rewrite (ancestor_at_shape columns' columns e k Hshape).
      by apply Hac.
  - intros fuel nodeHeights. unfold calculateLayout. f_equal.
    apply stack_ids; [by apply getChildren_shape|].
    intros l k x top. by apply positionNode_shape.
Qed.

(** ** Streaming chunks *)

Lemma string_app_cons (ch : ascii) (a b : string) :
  String ch a +:+ b = String ch (a +:+ b).
Proof. reflexivity. Qed.

Lemma string_app_assoc (a b c : string) : (a +:+ b) +:+ c = a +:+ (b +:+ c).
Proof.
  induction a as [|ch a IH]; [reflexivity|].
  rewrite !string_app_cons. f_equal. exact IH.
Qed.

Lemma string_app_nil_r (a : string) : a +:+ EmptyString = a.
Proof.
  induction a as [|ch a IH]; [reflexivity|].
  rewrite string_app_cons. f_equal. exact IH.
Qed.

Lemma prefix_app (a b : string) : String.prefix a (a +:+ b) = true.
Proof.
  induction a as [|ch a IH]; [by destruct b|].
  rewrite string_app_cons. cbn [String.prefix].
  destruct (ascii_dec ch ch); [exact IH|congruence].
Qed.

Lemma prefix_refl (a : string) : String.prefix a a = true.
Proof. rewrite <- (string_app_nil_r a) at 2. apply prefix_app. Qed.

(** The index arithmetic of [updateLastMessage] on one message list. *)
Lemma last_index_update (textChunk : string) (msgs : list Message.t) :
  match msgs !! (length msgs - 1)%nat with
  | Some m =>
      if (0 <? length msgs)%nat && bool_decide (Message.role m = model)
      then <[(length msgs - 1)%nat := append_text m textChunk]> msgs
      else msgs
  | None => msgs
  end = append_to_last textChunk msgs.
Proof.
  induction msgs as [|m [|m' rest] IH]; [reflexivity| |].
  - cbn. destruct (bool_decide (Message.role m = model)); reflexivity.
  - change (append_to_last textChunk (m :: m' :: rest))
      with (m :: append_to_last textChunk (m' :: rest)).
    rewrite <- IH.
    replace (length (m :: m' :: rest) - 1)%nat
      with (S (length (m' :: rest) - 1)) by (cbn; lia).
    cbn [lookup list_lookup].
    destruct ((m' :: rest) !! (length (m' :: rest) - 1)%nat) as [ml|];
      [|reflexivity].
    replace (0 <? length (m :: m' :: rest))%nat with true by reflexivity.
    replace (0 <? length (m' :: rest))%nat with true by reflexivity.
    destruct (bool_decide (Message.role ml = model)); reflexivity.
Qed.

Lemma updateLastMessage_spec (columnId textChunk : string) (columns : list Column.t) :
  updateLastMessage columnId textChunk columns
  = (λ col, if String.eqb (Column.id col) columnId
            then set_messages col (append_to_last textChunk (Column.messages col))
                   (Column.title col)
            else col) <$> columns.
Proof.
  unfold updateLastMessage. apply list_fmap_ext. intros i col _.
  destruct (String.eqb (Column.id col) columnId); [|reflexivity].
  cbv zeta. by rewrite last_index_update.
Qed.

Lemma append_to_last_compose (c1 c2 : string) (msgs : list Message.t) :
  append_to_last c2 (append_to_last c1 msgs) = append_to_last (c1 +:+ c2) msgs.
Proof.
  induction msgs as [|m [|m' rest] IH]; [reflexivity| |].
  - cbn. destruct (bool_decide (Message.role m = model)) eqn:Hr; cbn.
    + rewrite Hr. unfold append_text. cbn. by rewrite string_app_assoc.
    + by rewrite Hr.
  - change (append_to_last c1 (m :: m' :: rest))
      with (m :: append_to_last c1 (m' :: rest)).
    change (append_to_last (c1 +:+ c2) (m :: m' :: rest))
      with (m :: append_to_last (c1 +:+ c2) (m' :: rest)).
    rewrite <- IH.
    destruct (append_to_last c1 (m' :: rest)) as [|x xs] eqn:Hx; [|reflexivity].
    exfalso. destruct rest; cbn in Hx; [destruct (bool_decide _)|]; discriminate.
Qed.

Lemma append_to_last_nil (msgs : list Message.t) :
  append_to_last EmptyString msgs = msgs.
Proof.
  induction msgs as [|m [|m' rest] IH]; [reflexivity| |].
  - cbn. destruct (bool_decide _); [|reflexivity].
    unfold append_text. rewrite string_app_nil_r. by destruct m.
  - change (append_to_last EmptyString (m :: m' :: rest))
      with (m :: append_to_last EmptyString (m' :: rest)).
    by rewrite IH.
Qed.

(** X8: streaming composes: applying the chunks of a response one after
    the other gives the same column list as appending their concatenation
    in one step (and no chunk at all, or an empty one, changes nothing). *)
Theorem updateLastMessage_chunks
    (columnId : string) (chunks : list string) (columns : list Column.t) :
  foldl (λ cols chunk, updateLastMessage columnId chunk cols) columns chunks
  = updateLastMessage columnId (foldr String.append EmptyString chunks) columns
  ∧ updateLastMessage columnId EmptyString columns = columns.
Proof.
  assert (Hnil : ∀ cols, updateLastMessage columnId EmptyString cols = cols).
  { intros cols. rewrite updateLastMessage_spec.
    rewrite <- (list_fmap_id cols) at 2. apply list_fmap_ext. intros i col _.
    destruct (String.eqb (Column.id col) columnId); [|reflexivity].
    rewrite append_to_last_nil. by destruct col. }
  split; [|apply Hnil].
  revert columns. induction chunks as [|c chunks IH]; intros columns.
  - cbn [foldl foldr]. by rewrite Hnil.
  - cbn [foldl foldr]. rewrite IH, !updateLastMessage_spec.
    rewrite <- list_fmap_compose. apply list_fmap_ext. intros i col _. cbn.
    destruct (String.eqb (Column.id col) columnId) eqn:Hid; cbn; [|by rewrite Hid].
    rewrite Hid. unfold set_messages. cbn. by rewrite append_to_last_compose.
Qed.

Lemma append_to_last_grows (textChunk : string) (msgs : list Message.t) :
  texts_grow msgs (append_to_last textChunk msgs).
Proof.
  unfold texts_grow.
  induction msgs as [|m [|m' rest] IH]; [constructor| |].
  - cbn. destruct (bool_decide _); constructor; try constructor; cbn;
      repeat split; auto using prefix_app, prefix_refl.
  - change (append_to_last textChunk (m :: m' :: rest))
      with (m :: append_to_last textChunk (m' :: rest)).
    constructor; [|exact IH]. repeat split. apply prefix_refl.
Qed.

(** X9: a streamed chunk is append-only: column by column the ids, titles,
    parents and flags are kept, every column with another id is left as it
    is, and in the target column the messages keep their number, ids, roles
    and timestamps while every old text is a prefix of the new one; all
    messages but the last are unchanged. *)
Theorem updateLastMessage_append_only
    (columnId textChunk : string) (columns : list Column.t) :
  Forall2
    (λ col col',
       Column.id col' = Column.id col ∧
       Column.title col' = Column.title col ∧
       Column.parentId col' = Column.parentId col ∧
       Column.parentMessageId col' = Column.parentMessageId col ∧
       Column.contextSnippet col' = Column.contextSnippet col ∧
       Column.isThinking col' = Column.isThinking col ∧
       Column.isCollapsed col' = Column.isCollapsed col ∧
       (Column.id col ≠ columnId → col' = col) ∧
       texts_grow (Column.messages col) (Column.messages col') ∧
       removelast (Column.messages col') = removelast (Column.messages col))
    columns (updateLastMessage columnId textChunk columns).
Proof.
  rewrite updateLastMessage_spec. apply Forall2_fmap_r, Forall_Forall2_diag.
  apply Forall_forall. intros col _.
  assert (Hsame : texts_grow (Column.messages col) (Column.messages col)).
  { unfold texts_grow. apply Forall_Forall2_diag, Forall_forall.
    intros m _. repeat split. apply prefix_refl. }
  unfold compose. cbv beta.
  destruct (String.eqb (Column.id col) columnId) eqn:Hid;
    [|apply String.eqb_neq in Hid; repeat split; auto].
  - apply String.eqb_eq in Hid. cbn.
    do 7 (split; [reflexivity|]). split; [intros Hne; contradiction|].
    split; [apply append_to_last_grows|].
    clear. induction (Column.messages col) as [|m [|m' rest] IH]; [reflexivity| |].
    + cbn. by destruct (bool_decide _).
    + change (append_to_last textChunk (m :: m' :: rest))
        with (m :: append_to_last textChunk (m' :: rest)).
      destruct (append_to_last textChunk (m' :: rest)) as [|x xs] eqn:Hx.
      * exfalso. destruct rest; cbn in Hx; [destruct (bool_decide _)|]; discriminate.
      * cbn [removelast] in IH |- *. by rewrite IH.
Qed.

(** ** Collapse, submit, branch and close as operations on the store *)

(** X10: collapsing is a toggle: two toggles of the same column give back
    the column list, and one toggle changes nothing but the collapsed flag
    of the columns with that id. *)
Theorem handleToggleCollapse_involutive
    (columnId : string) (columns : list Column.t) :
  handleToggleCollapse columnId (handleToggleCollapse columnId columns) = columns ∧
  Forall2
    (λ col col',
       set_isCollapsed col' (Column.isCollapsed col) = col ∧
       Column.isCollapsed col' =
         xorb (Column.isCollapsed col) (String.eqb (Column.id col) columnId))
    columns (handleToggleCollapse columnId columns).
Proof.
  unfold handleToggleCollapse. split.
  - rewrite <- list_fmap_compose. rewrite <- (list_fmap_id columns) at 2.
    apply list_fmap_ext. intros i col _. cbn.
    destruct (String.eqb (Column.id col) columnId) eqn:Hid; cbn; [|by rewrite Hid].
    rewrite Hid. unfold set_isCollapsed. cbn. rewrite negb_involutive.
    by destruct col.
  - apply Forall2_fmap_r, Forall_Forall2_diag, Forall_forall. intros col _.
    unfold compose. cbv beta. destruct (String.eqb (Column.id col) columnId);
      destruct col as [? ? ? ? ? ? ? ? []]; split; reflexivity.
Qed.

Lemma find_col_fmap (f : Column.t → Column.t) (k : string) (columns : list Column.t) :
  (∀ c, Column.id (f c) = Column.id c) →
  find_col k (f <$> columns) = f <$> find_col k columns.
Proof.
  intros Hid. unfold find_col. induction columns as [|c columns IH]; [reflexivity|].
  rewrite fmap_cons. cbn [find]. rewrite Hid.
  destruct (String.eqb (Column.id c) k); [reflexivity|exact IH].
Qed.

Lemma find_col_apply_op (columns : list Column.t) (op : StoreOp) (k : string)
    (c : Column.t) :
  op ≠ SetThinking k false →
  find_col k columns = Some c → Column.isThinking c = true →
  ∃ c', find_col k (apply_op columns op) = Some c' ∧ Column.isThinking c' = true.
Proof.
  intros Hop Hfind Hth.
  pose proof (find_col_Some _ _ _ Hfind) as [_ Hk].
  destruct op as [cid m|cid ch|cid b|cid]; cbn [apply_op];
    [unfold addMessageToColumn|rewrite updateLastMessage_spec
    |unfold setThinking|unfold handleToggleCollapse];
    (rewrite find_col_fmap;
     [rewrite Hfind; eexists; split; [reflexivity|]
     |intros c0; by destruct (String.eqb (Column.id c0) cid)]);
    destruct (String.eqb_spec (Column.id c) cid) as [Hcid|Hcid]; try exact Hth.
  destruct b; [reflexivity|]. exfalso. apply Hop. congruence.
Qed.

Lemma handleGlobalSubmit_idle_or_thinking
    (st : App.t) (uuid1 uuid2 : string) (now1 now2 : Z) (targetCol : Column.t) :
  find_col (App.selectedColumnId st) (App.columns st) = Some targetCol →
  Column.isThinking targetCol = true →
  handleGlobalSubmit st uuid1 uuid2 now1 now2 = (st, None).
Proof.
  intros Hfind Hthinking. unfold handleGlobalSubmit.
  destruct (_ || _); [reflexivity|]. by rewrite Hfind, Hthinking.
Qed.

Lemma handleGlobalSubmit_accepted
    (st st1 : App.t) (uuid1 uuid2 : string) (now1 now2 : Z) (d : Deferred.t) :
  handleGlobalSubmit st uuid1 uuid2 now1 now2 = (st1, Some d) →
  let sel := App.selectedColumnId st in
  ∃ target,
    find_col sel (App.columns st) = Some target ∧
    Column.isThinking target = false ∧
    truthy (trim (App.globalInput st)) = true ∧
    App.selectedColumnId st1 = sel ∧
    App.columns st1 =
      foldl apply_op (App.columns st)
        ([AddMessage sel (Message.mk uuid1 user (App.globalInput st) now1);
          SetThinking sel true]
         ++ (if Column.isCollapsed target then [ToggleCollapse sel] else [])) ∧
    d = Deferred.mk sel (Message.mk uuid2 model EmptyString now2)
          (App.globalInput st) (App.columns st).
Proof.
  intros Hfirst sel. unfold handleGlobalSubmit in Hfirst. fold sel in Hfirst.
  destruct (truthy (trim (App.globalInput st))) eqn:Hin; [|discriminate].
  cbn [negb orb] in Hfirst.
  destruct (negb (truthy sel)); [discriminate|].
  destruct (find_col sel (App.columns st)) as [target|] eqn:Hf; [|discriminate].
  destruct (Column.isThinking target) eqn:Hth; [discriminate|].
  injection Hfirst as <- <-. exists target.
  split; [reflexivity|]. split; [exact Hth|]. split; [reflexivity|].
  destruct (Column.isCollapsed target); repeat split; reflexivity.
Qed.

(** X11: the guard of [handleGlobalSubmit].  Once [handleGlobalSubmit] has
    accepted a submission, every further [handleGlobalSubmit] for the same
    selected column is rejected without any change for as long as no
    [setThinking] update has switched that column's flag off - whatever is
    typed, and whatever other store updates arrive in between: messages,
    chunks, collapse toggles, flag updates of other columns. *)
Theorem second_submit_rejected
    (st st1 : App.t) (uuid1 uuid2 : string) (now1 now2 : Z) (d : Deferred.t)
    (ops : list StoreOp) (input uuid3 uuid4 : string) (now3 now4 : Z) :
  handleGlobalSubmit st uuid1 uuid2 now1 now2 = (st1, Some d) →
  Forall (λ op, op ≠ SetThinking (App.selectedColumnId st) false) ops →
  let st2 := setGlobalInput (setColumns st1 (foldl apply_op (App.columns st1) ops))
               input in
  handleGlobalSubmit st2 uuid3 uuid4 now3 now4 = (st2, None).
Proof.
  intros Hfirst Hops. cbv zeta.
  destruct (handleGlobalSubmit_accepted _ _ _ _ _ _ _ Hfirst)
    as (target & Hf & Hth & _ & Hsel & Hcols & _).
  set (sel := App.selectedColumnId st) in *.
  assert (H1 : ∃ c, find_col sel (App.columns st1) = Some c
                    ∧ Column.isThinking c = true).
  { rewrite Hcols, foldl_app. cbn [foldl apply_op].
    assert (Hbase : ∃ c, find_col sel
               (setThinking sel true
                  (addMessageToColumn sel
                     (Message.mk uuid1 user (App.globalInput st) now1)
                     (App.columns st))) = Some c ∧ Column.isThinking c = true).
    { unfold setThinking, addMessageToColumn.
      pose proof (find_col_Some _ _ _ Hf) as [_ Hid].
      rewrite find_col_fmap, find_col_fmap, Hf.
      - eexists. split; [reflexivity|]. apply String.eqb_eq in Hid.
        cbn. rewrite Hid. cbn. rewrite Hid. reflexivity.
      - intros c0. by destruct (String.eqb (Column.id c0) sel).
      - intros c0. by destruct (String.eqb (Column.id c0) sel). }
    destruct Hbase as (c & Hc & Hct).
    destruct (Column.isCollapsed target); cbn [foldl]; [|eauto].
    apply (find_col_apply_op _ (ToggleCollapse sel) sel c); try assumption.
    discriminate. }
  destruct H1 as (c & Hc & Hct).
  assert (H2 : ∃ c', find_col sel (foldl apply_op (App.columns st1) ops) = Some c'
                    ∧ Column.isThinking c' = true).
  { clear -Hc Hct Hops. revert c Hc Hct. generalize (App.columns st1).
    induction Hops as [|op ops Hop _ IH]; intros cols c Hc Hct; [eauto|].
    cbn [foldl]. destruct (find_col_apply_op cols op sel c Hop Hc Hct) as (c' & ? & ?).
    by eapply IH. }
  destruct H2 as (c' & Hc' & Hct').
  apply (handleGlobalSubmit_idle_or_thinking _ uuid3 uuid4 now3 now4 c').
  - cbn [App.selectedColumnId App.columns setGlobalInput setColumns].
    rewrite Hsel. exact Hc'.
  - exact Hct'.
Qed.

Lemma second_submit_rejected_witness :
  let st1 := fst (handleGlobalSubmit Sample.state "u4" "a4" 7 8) in
  let st2 :=
    setGlobalInput
      (setColumns st1
         (foldl apply_op (App.columns st1)
            [AddMessage "B" (Message.mk "a4" model EmptyString 8);
             UpdateLast "B" "An answer"; ToggleCollapse "B";
             SetThinking "root" false; SetThinking "B" true]))
      "one more" in
  handleGlobalSubmit st2 "u5" "a5" 9 10 = (st2, None).
Proof.
  cbv zeta.
  apply (second_submit_rejected Sample.state _ "u4" "a4" 7 8
           (Deferred.mk "B" (Message.mk "a4" model EmptyString 8) "next question"
              (App.columns Sample.state))).
  - reflexivity.
  - repeat constructor; discriminate.
Defined.

(** ** Growing the forest: [handleBranch] *)

Lemma find_col_grow (columns : list Column.t) (n : Column.t) (k : string) :
  find_col k (columns ++ [n])
  = match find_col k columns with
    | Some c => Some c
    | None => if String.eqb (Column.id n) k then Some n else None
    end.
Proof.
  unfold find_col. induction columns as [|c columns IH]; [reflexivity|].
  cbn [app find]. destruct (String.eqb (Column.id c) k); [reflexivity|exact IH].
Qed.

Lemma find_col_None (columns : list Column.t) (k : string) :
  find_col k columns = None → k ∉ ids columns.
Proof.
  intros Hnone Hin. apply find_col_is_Some in Hin as [c Hc]. congruence.
Qed.

Lemma ancestor_at_closed (columns : list Column.t) (e : nat) (k a : string) :
  parents_exist columns → k ∈ ids columns →
  ancestor_at columns e k = Some a → a ∈ ids columns.
Proof.
  intros Hpe. revert k. induction e as [|e IH]; intros k Hk He.
  - cbn in He. congruence.
  - cbn [ancestor_at] in He.
    destruct (find_col k columns) as [c|] eqn:Hc; [|discriminate].
    destruct (Column.parentId c) as [p|] eqn:Hp; [|discriminate].
    apply find_col_Some in Hc as [Hc _]. exact (IH p (Hpe c p Hc Hp) He).
Qed.

Lemma ancestor_at_grow (columns : list Column.t) (n : Column.t) (e : nat) (k : string) :
  parents_exist columns → k ∈ ids columns →
  ancestor_at (columns ++ [n]) e k = ancestor_at columns e k.
Proof.
  intros Hpe. revert k. induction e as [|e IH]; intros k Hk; [reflexivity|].
  cbn [ancestor_at]. rewrite find_col_grow.
  destruct (find_col_is_Some _ _ Hk) as [c Hc]. rewrite Hc.
  destruct (Column.parentId c) as [p|] eqn:Hp; [|reflexivity].
  apply find_col_Some in Hc as [Hc _]. exact (IH p (Hpe c p Hc Hp)).
Qed.

(** X12: branching keeps the store a forest.  With a fresh id and an
    existing source column, the column list stays well formed (unique ids,
    parents present, no cycle); the new column is selected, is a child of the
    source one level deeper, comes last among the source's children, has no
    children of its own, and no other column's children or ancestors
    change. *)
Theorem handleBranch_grows_forest
    (st : App.t) (newColId sourceColumnId sourceMessageId selectedText : string)
    (customPrompt : option string) :
  well_formed (App.columns st) →
  newColId ∉ ids (App.columns st) →
  sourceColumnId ∈ ids (App.columns st) →
  let columns := App.columns st in
  let st' := fst (handleBranch st newColId sourceColumnId sourceMessageId
                    selectedText customPrompt) in
  let columns' := App.columns st' in
  well_formed columns' ∧
  App.selectedColumnId st' = newColId ∧
  ids columns' = ids columns ++ [newColId] ∧
  (∀ p, ids (getChildren columns' p)
        = ids (getChildren columns p)
          ++ (if decide (p = Some sourceColumnId) then [newColId] else [])) ∧
  getChildren columns' (Some newColId) = [] ∧
  (∀ k e, k ∈ ids columns → ancestor_at columns' e k = ancestor_at columns e k) ∧
  (∀ d, reaches_root columns sourceColumnId d → reaches_root columns' newColId (S d)).
Proof.
  intros (Hnd & Hpe & Hac) Hfresh Hsrc columns st' columns'.
  set (n := Column.mk newColId
              (if truthy_opt customPrompt then default EmptyString customPrompt
               else substring 0 20 selectedText +:+ "...")
              (Some sourceColumnId) (Some sourceMessageId) (Some selectedText)
              [] EmptyString false false).
  assert (Hcols : columns' = columns ++ [n]) by reflexivity.
  assert (Hids : ids columns' = ids columns ++ [newColId])
    by (rewrite Hcols; unfold ids; by rewrite fmap_app).
  assert (Hne : sourceColumnId ≠ newColId) by (intros ->; contradiction).
  assert (Hold : ∀ k e, k ∈ ids columns →
                        ancestor_at columns' e k = ancestor_at columns e k).
  { intros k e Hk. rewrite Hcols. by apply ancestor_at_grow. }
  assert (Hnew : ∀ e, ancestor_at columns' (S e) newColId
                      = ancestor_at columns e sourceColumnId).
  { intros e. cbn [ancestor_at]. rewrite Hcols at 1. rewrite find_col_grow.
    destruct (find_col newColId columns) as [c|] eqn:Hc.
    - exfalso. apply Hfresh. apply find_col_Some in Hc as [Hc <-]. by apply in_ids.
    - cbn [Column.id n]. rewrite String.eqb_refl. cbn [Column.parentId n].
      by apply Hold. }
  assert (Hkids : ∀ p, getChildren columns' p
                       = getChildren columns p
                         ++ (if decide (p = Some sourceColumnId) then [n] else [])).
  { intros p. rewrite Hcols. unfold getChildren. rewrite filter_app. f_equal.
    rewrite filter_cons, filter_nil. cbn [Column.parentId n].
    destruct (decide (p = Some sourceColumnId)) as [->|Hp].
    - by rewrite decide_True.
    - by rewrite decide_False. }
  split; [split; [|split]|split; [reflexivity|split; [exact Hids|split; [|split;
    [|split; [exact Hold|]]]]]].
  - rewrite Hids. apply NoDup_app. split; [exact Hnd|]. split.
    + intros x Hx Hx'. apply list_elem_of_singleton in Hx'. by subst.
    + apply NoDup_singleton.
  - intros c p Hc Hp. rewrite Hids. apply elem_of_app. left.
    rewrite Hcols in Hc. apply elem_of_app in Hc as [Hc|Hc].
    + exact (Hpe c p Hc Hp).
    + apply list_elem_of_singleton in Hc. subst c. cbn in Hp.
      injection Hp as <-. exact Hsrc.
  - intros k [|e] He Hcyc; [lia|].
    destruct (find_col k columns) as [c|] eqn:Hc.
    + apply find_col_Some in Hc as [Hc <-].
      rewrite Hold in Hcyc by (by apply in_ids). exact (Hac _ (S e) He Hcyc).
    + destruct (String.eqb_spec newColId k) as [<-|Hk].
      * rewrite Hnew in Hcyc. apply Hfresh.
        exact (ancestor_at_closed columns e sourceColumnId newColId Hpe Hsrc Hcyc).
      * cbn [ancestor_at] in Hcyc. rewrite Hcols in Hcyc at 1.
        rewrite find_col_grow, Hc in Hcyc. cbn [Column.id n] in Hcyc.
        apply String.eqb_neq in Hk. rewrite Hk in Hcyc. discriminate.
  - intros p. rewrite Hkids. unfold ids. rewrite fmap_app. f_equal.
    by destruct (decide (p = Some sourceColumnId)).
  - rewrite Hkids. rewrite decide_False by congruence. rewrite app_nil_r.
    apply elem_of_nil_inv. intros c Hc. apply list_elem_of_filter in Hc as [Hp Hc].
    apply Hfresh. exact (Hpe c newColId Hc Hp).
  - intros d (r & c & Hr & Hc & Hp). exists r, c.
    split; [by rewrite Hnew|]. split; [|exact Hp].
    rewrite Hcols, find_col_grow, Hc. reflexivity.
Qed.

Lemma handleBranch_grows_forest_witness :
  let st' := fst (handleBranch SampleClose.tree_state "a2" "a" "m1" "solar sails" None) in
  well_formed (App.columns st') ∧
  App.selectedColumnId st' = "a2" ∧
  ids (getChildren (App.columns st') (Some "a")) = ["a1"; "a2"] ∧
  getChildren (App.columns st') (Some "a2") = [].
Proof.
  destruct (handleBranch_grows_forest SampleClose.tree_state "a2" "a" "m1"
              "solar sails" None)
    as (Hwf & Hsel & _ & Hkids & Hleaf & _).
  - split; [exact sample_unique_ids|].
    split; [exact sample_parents_exist|exact sample_acyclic].
  - apply (bool_decide_unpack _). vm_compute. exact I.
  - apply (bool_decide_unpack _). vm_compute. exact I.
  - cbv zeta. split; [exact Hwf|]. split; [exact Hsel|].
    split; [exact (Hkids (Some "a"))|exact Hleaf].
Defined.

(** ** Pruning the forest: [handleCloseColumn] *)

Lemma filter_ext_elem {A} (P Q : A → Prop)
    `{!∀ x, Decision (P x), !∀ x, Decision (Q x)} (l : list A) :
  (∀ x, x ∈ l → P x ↔ Q x) → filter P l = filter Q l.
Proof.
  induction l as [|a l IH]; intros Hext; [reflexivity|].
  assert (Ha : P a ↔ Q a) by (apply Hext, elem_of_cons; by left).
  assert (Hl : filter P l = filter Q l)
    by (apply IH; intros x Hx; apply Hext, elem_of_cons; by right).
  destruct (decide (P a)).
  - rewrite !filter_cons_True by tauto. by rewrite Hl.
  - rewrite !filter_cons_False by tauto. exact Hl.
Qed.

Lemma handleCloseColumn_Normal
    (fuel : nat) (st st' : App.t) (columnId : string) :
  handleCloseColumn fuel st columnId = Some (Normal st') →
  ∃ desc,
    getDescendants fuel (App.columns st) columnId = Some desc ∧
    App.columns st'
    = filter (λ c, Column.id c ∉ (list_to_set desc : gset string)) (App.columns st) ∧
    App.nodeHeights st' = delete_all (list_to_set desc) (App.nodeHeights st) ∧
    App.nodeOffsets st' = delete_all (list_to_set desc) (App.nodeOffsets st).
Proof.
  unfold handleCloseColumn.
  destruct (getDescendants fuel (App.columns st) columnId) as [desc|]; [|discriminate].
  cbn [mbind option_bind]. intros H. exists desc. split; [reflexivity|].
  destruct (bool_decide _).
  - destruct (find_col columnId (App.columns st)) as [col|];
      [destruct (Column.parentId col) as [p|]; [destruct (truthy p)|]|];
      try (destruct (App.columns st) as [|c0 rest]; [discriminate|]);
      injection H as <-; repeat split; reflexivity.
  - injection H as <-. repeat split; reflexivity.
Qed.

Section Prune.
Variable columns : list Column.t.
Variable D : gset string.
Hypothesis unique_ids : NoDup (ids columns).
Hypothesis present : parents_exist columns.
Hypothesis no_cycle : acyclic columns.
(** The removed set holds, with a column, the children of that column. *)
Hypothesis closed :
  ∀ c p, c ∈ columns → Column.parentId c = Some p → p ∈ D → Column.id c ∈ D.

Let kept := filter (λ c, Column.id c ∉ D) columns.

Lemma find_col_kept (k : string) :
  find_col k kept = if decide (k ∈ D) then None else find_col k columns.
Proof.
  unfold kept, find_col. clear unique_ids present no_cycle closed.
  induction columns as [|c cs IH]; [by destruct (decide _)|].
  rewrite filter_cons. cbn [find].
  destruct (decide (Column.id c ∉ D)) as [Hc|Hc]; cbn [find];
    destruct (String.eqb_spec (Column.id c) k) as [Heq|Hne].
  - subst k. by rewrite decide_False.
  - exact IH.
  - subst k. rewrite IH. destruct (decide (Column.id c ∈ D)); tauto.
  - exact IH.
Qed.

Lemma ancestor_at_kept (e : nat) (k : string) :
  k ∉ D → ancestor_at kept e k = ancestor_at columns e k.
Proof.
  revert k. induction e as [|e IH]; intros k Hk; [reflexivity|].
  cbn [ancestor_at]. rewrite find_col_kept, decide_False by exact Hk.
  destruct (find_col k columns) as [c|] eqn:Hc; [|reflexivity].
  destruct (Column.parentId c) as [p|] eqn:Hp; [|reflexivity].
  apply find_col_Some in Hc as [Hc <-]. apply IH.
  intros HpD. apply Hk. exact (closed c p Hc Hp HpD).
Qed.

Lemma kept_well_formed : well_formed kept.
Proof.
  split; [|split].
  - apply (sublist_NoDup _ (ids columns)); [exact unique_ids|].
    unfold ids, kept. apply fmap_sublist, sublist_filter.
  - intros c p Hc Hp. apply list_elem_of_filter in Hc as [HcD Hc].
    apply kept_column; [exact (present c p Hc Hp)|].
    intros HpD. apply HcD. exact (closed c p Hc Hp HpD).
  - intros k [|e] He Hcyc; [lia|]. destruct (decide (k ∈ D)) as [Hk|Hk].
    + cbn [ancestor_at] in Hcyc. rewrite find_col_kept, decide_True in Hcyc by exact Hk.
      discriminate.
    + rewrite ancestor_at_kept in Hcyc by exact Hk. exact (no_cycle k (S e) He Hcyc).
Qed.

Lemma getChildren_kept (p : option string) :
  getChildren kept p = filter (λ c, Column.id c ∉ D) (getChildren columns p).
Proof.
  unfold getChildren, kept. rewrite !list_filter_filter.
  apply list_filter_iff. tauto.
Qed.

End Prune.

(** X13: closing a column keeps the store a forest.  Whenever the handler
    completes on a well-formed column list, the remaining list is well formed;
    a remaining column keeps its messages and its whole chain of ancestors;
    the roots and the children of a remaining column are the former ones, in
    the same order, without the closed column; and if heights and offsets
    were recorded for listed columns only, this is still so. *)
Theorem handleCloseColumn_keeps_forest
    (fuel : nat) (st st' : App.t) (columnId : string) :
  well_formed (App.columns st) →
  handleCloseColumn fuel st columnId = Some (Normal st') →
  let columns := App.columns st in
  let columns' := App.columns st' in
  well_formed columns' ∧
  (∀ c, c ∈ columns' → c ∈ columns) ∧
  (∀ k e, k ∈ ids columns' → ancestor_at columns' e k = ancestor_at columns e k) ∧
  (∀ p, p = None ∨ (∃ k, p = Some k ∧ k ∈ ids columns') →
        getChildren columns' p
        = filter (λ c, Column.id c ≠ columnId) (getChildren columns p)) ∧
  ((∀ k, is_Some (App.nodeHeights st !! k) → k ∈ ids columns) →
   ∀ k, is_Some (App.nodeHeights st' !! k) → k ∈ ids columns') ∧
  ((∀ k, is_Some (App.nodeOffsets st !! k) → k ∈ ids columns) →
   ∀ k, is_Some (App.nodeOffsets st' !! k) → k ∈ ids columns').
Proof.
  intros (Hnd & Hpe & Hac) Hrun columns columns'.
  destruct (handleCloseColumn_Normal _ _ _ _ Hrun) as (desc & Hdesc & Hcols & Hh & Ho).
  fold columns in Hdesc, Hcols. fold columns' in Hcols.
  set (D := (list_to_set desc : gset string)) in *.
  assert (HD : ∀ k, k ∈ D ↔ in_subtree columns columnId k).
  { intros k. unfold D. rewrite elem_of_list_to_set.
    exact (getDescendants_sound columns Hnd fuel columnId desc Hdesc k). }
  assert (Hclosed : ∀ c p, c ∈ columns → Column.parentId c = Some p →
                           p ∈ D → Column.id c ∈ D).
  { intros c p Hc Hp HpD. apply HD. apply HD in HpD as [e He]. exists (S e).
    cbn [ancestor_at]. by rewrite (find_col_NoDup columns c Hnd Hc), Hp. }
  assert (Hkept : ∀ k, k ∈ ids columns' → k ∉ D).
  { intros k Hk. rewrite Hcols in Hk. unfold ids in Hk.
    apply list_elem_of_fmap in Hk as (c & -> & Hc).
    by apply list_elem_of_filter in Hc as [HcD _]. }
  assert (Hmaps : ∀ {V} (m : gmap string V),
            (∀ k, is_Some (m !! k) → k ∈ ids columns) →
            ∀ k, is_Some (delete_all D m !! k) → k ∈ ids columns').
  { intros V m Hm k Hk. rewrite delete_all_lookup in Hk.
    destruct (decide (k ∈ D)) as [HkD|HkD]; [by destruct Hk|].
    rewrite Hcols. apply kept_column; [exact (Hm k Hk)|exact HkD]. }
  split; [|split; [|split; [|split; [|split]]]].
  - rewrite Hcols. by apply kept_well_formed.
  - intros c Hc. rewrite Hcols in Hc. by apply list_elem_of_filter in Hc as [_ Hc].
  - intros k e Hk. rewrite Hcols. apply ancestor_at_kept; [exact Hclosed|].
    apply Hkept. exact Hk.
  - intros p Hp. rewrite Hcols, getChildren_kept.
    apply filter_ext_elem. intros c Hc.
    apply list_elem_of_filter in Hc as [Hcp Hc]. split.
    + intros HcD Heq. apply HcD, HD. rewrite Heq. by exists 0%nat.
    + intros Hne HcD. apply HD in HcD as [[|e] He].
      * cbn in He. congruence.
      * cbn [ancestor_at] in He.
        rewrite (find_col_NoDup columns c Hnd Hc), Hcp in He.
        destruct Hp as [->|(k & -> & Hk)]; [discriminate|].
        apply (Hkept k Hk), HD. by exists e.
  - rewrite Hh. apply Hmaps.
  - rewrite Ho. apply Hmaps.
Qed.

Lemma handleCloseColumn_keeps_forest_witness :
  ∃ st', handleCloseColumn 4 SampleClose.tree_state "a" = Some (Normal st') ∧
         well_formed (App.columns st') ∧
         getChildren (App.columns st') (Some "r")
         = filter (λ c, Column.id c ≠ "a") (getChildren SampleLayout.columns (Some "r")).
Proof.
  destruct (handleCloseColumn 4 SampleClose.tree_state "a") as [[st'|]|] eqn:Hrun;
    [|discriminate Hrun..].
  exists st'. split; [reflexivity|].
  destruct (handleCloseColumn_keeps_forest 4 SampleClose.tree_state st' "a")
    as (Hwf & _ & _ & Hkids & _).
  - split; [exact sample_unique_ids|].
    split; [exact sample_parents_exist|exact sample_acyclic].
  - exact Hrun.
  - split; [exact Hwf|]. apply Hkids. right. exists "r". split; [reflexivity|].
    vm_compute in Hrun. injection Hrun as <-.
    apply (bool_decide_unpack _). vm_compute. exact I.
Defined.

(** ** The history builder beyond resolved paths *)

(** The messages an ancestor contributes, whether or not the fork point is
    found: [findIndex] then [slice], or everything. *)
Lemma relevant_prefix (pmid : option string) (msgs : list Message.t) :
  match findIndex (λ m, strict_eq (Some (Message.id m)) pmid) msgs with
  | Some branchIndex => slice0 (branchIndex + 1) msgs
  | None => msgs
  end
  = match pmid with
    | Some mid => prefix_through mid msgs
    | None => msgs
    end.
Proof.
  destruct pmid as [mid|].
  - induction msgs as [|m msgs IH]; [reflexivity|].
    cbn [findIndex prefix_through]. unfold strict_eq in *.
    destruct (String.eqb_spec (Message.id m) mid) as [Heq|Hne].
    + rewrite bool_decide_eq_true_2 by congruence. reflexivity.
    + rewrite bool_decide_eq_false_2 by congruence.
      destruct (findIndex _ msgs) as [i|]; cbn [fmap option_fmap option_map].
      * unfold slice0 in *. cbn [Nat.add take]. f_equal. exact IH.
      * f_equal. exact IH.
  - replace (findIndex _ msgs) with (@None nat); [reflexivity|].
    induction msgs as [|m msgs IH]; [reflexivity|].
    cbn [findIndex]. unfold strict_eq at 1.
    rewrite bool_decide_eq_false_2 by discriminate. by rewrite <- IH.
Qed.

Lemma pushed_linearized (pre suf : list Column.t) :
  concat (imap (λ i, pushed (pre ++ suf) (length pre + i)) suf) = linearized suf.
Proof.
  revert pre. induction suf as [|col rest IH]; intros pre; [reflexivity|].
  rewrite imap_cons. cbn [concat].
  assert (Hrest : concat (imap ((λ i, pushed (pre ++ col :: rest) (length pre + i)) ∘ S) rest)
                  = linearized rest).
  { rewrite <- (IH (pre ++ [col])).
    f_equal. apply imap_ext. intros i x _. cbn [compose].
    rewrite <- app_assoc, length_app. cbn [length app]. f_equal. lia. }
  rewrite Hrest. clear Hrest IH.
  unfold pushed. rewrite Nat.add_0_r, length_app. cbn [length].
  destruct rest as [|next rest'].
  - cbn [length]. replace (length pre =? length pre + 1 - 1)%nat with true
      by (symmetry; apply Nat.eqb_eq; lia).
    cbn [negb andb linearized]. rewrite !app_nil_r. reflexivity.
  - cbn [length]. replace (length pre =? length pre + S (S (length rest')) - 1)%nat
      with false by (symmetry; apply Nat.eqb_neq; lia).
    replace (length pre + 1 <? length pre + S (S (length rest')))%nat with true
      by (symmetry; apply Nat.ltb_lt; lia).
    cbn [negb andb].
    replace ((pre ++ col :: next :: rest') !! (length pre + 1)%nat) with (Some next).
    2:{ rewrite lookup_app_r by lia.
        replace (length pre + 1 - length pre)%nat with 1%nat by lia. reflexivity. }
    rewrite relevant_prefix. cbn [linearized].
    rewrite <- app_assoc. f_equal. f_equal.
    unfold fork_span. destruct (Column.contextSnippet next) as [s|]; [|reflexivity].
    destruct (truthy s); reflexivity.
Qed.

Lemma walk_total (columns : list Column.t) (d : nat) :
  ∀ k, reaches_root columns k d →
  ∀ fuel acc, (d < fuel)%nat →
    ∃ path, walk fuel columns (Some k) acc = Some (path ++ acc) ∧
            (∀ c, c ∈ path → c ∈ columns) ∧
            (∀ c, truthy k = true → find_col k columns = Some c →
                  ∃ above, path = above ++ [c]).
Proof.
  induction d as [|d IH]; intros k (r & c & Hr & Hc & Hp) fuel acc Hfuel;
    (destruct fuel as [|fuel]; [lia|]); cbn [walk].
  - cbn in Hr. injection Hr as ->.
    destruct (truthy r) eqn:Ht.
    + rewrite Hc, Hp. exists [c]. split; [by destruct fuel|]. split.
      * intros c' Hc'. apply list_elem_of_singleton in Hc' as ->.
        by apply find_col_Some in Hc as [Hc _].
      * intros c' _ [= <-]. by exists [].
    + exists []. split; [reflexivity|]. split; [|discriminate].
      intros c' Hc'. by apply elem_of_nil in Hc'.
  - cbn [ancestor_at] in Hr.
    destruct (find_col k columns) as [ck|] eqn:Hk; [|discriminate].
    destruct (Column.parentId ck) as [p|] eqn:Hpar; [|discriminate].
    destruct (truthy k) eqn:Ht.
    + destruct (IH p (ex_intro _ r (ex_intro _ c (conj Hr (conj Hc Hp))))
                  fuel (ck :: acc)) as (path & Hwalk & Hin & _); [lia|].
      exists (path ++ [ck]). split; [by rewrite Hwalk, <- app_assoc|]. split.
      * intros c' Hc'. apply elem_of_app in Hc' as [Hc'|Hc']; [by apply Hin|].
        apply list_elem_of_singleton in Hc' as ->.
        by apply find_col_Some in Hk as [Hk _].
      * intros c' _ [= <-]. by exists path.
    + exists []. split; [reflexivity|]. split; [|discriminate].
      intros c' Hc'. by apply elem_of_nil in Hc'.
Qed.

Lemma linearized_cons (col next : Column.t) (rest : list Column.t) :
  linearized (col :: next :: rest)
  = (context_item <$>
       match Column.parentMessageId next with
       | Some mid => prefix_through mid (Column.messages col)
       | None => Column.messages col
       end)
    ++ match fork_span next with
       | Some span => [transition_message span]
       | None => []
       end
    ++ linearized (next :: rest).
Proof. reflexivity. Qed.

Lemma linearized_last (above : list Column.t) (c : Column.t) :
  ∃ pre, linearized (above ++ [c]) = pre ++ (context_item <$> Column.messages c).
Proof.
  induction above as [|a above [pre IH]]; [by exists []|].
  assert (Hcons : ∃ next rest, above ++ [c] = next :: rest)
    by (destruct above; cbn; eauto).
  destruct Hcons as (next & rest & Heq).
  rewrite <- app_comm_cons, Heq, linearized_cons, <- Heq, IH.
  eexists. rewrite !app_assoc. reflexivity.
Qed.

(** X14: on a well-formed store the history builder always answers, for a
    known target and for an unknown one: every run with more fuel than there
    are columns returns the same history, the linearization of the path the
    loop collected, whether or not the fork points are found.  The path
    consists of columns of the store; it is empty for an unknown target; for
    a known one it ends with the target, and the history ends with the
    target's messages in full. *)
Theorem buildHistoryForColumn_defined
    (columns : list Column.t) (targetColumnId : string) :
  well_formed columns →
  ∃ path,
    (∀ fuel, (length columns < fuel)%nat →
       walk fuel columns (Some targetColumnId) [] = Some path ∧
       buildHistoryForColumn fuel targetColumnId columns = Some (linearized path)) ∧
    (∀ c, c ∈ path → c ∈ columns) ∧
    (find_col targetColumnId columns = None → path = []) ∧
    (∀ c, truthy targetColumnId = true →
          find_col targetColumnId columns = Some c →
          ∃ above pre,
            path = above ++ [c] ∧
            linearized path
            = pre ++ ((λ m, {| HistoryItem.role := Message.role m;
                               HistoryItem.parts := [Message.text m] |})
                      <$> Column.messages c)).
Proof.
  intros (Hnd & Hpe & Hac).
  assert (Hbuild : ∀ fuel path,
            walk fuel columns (Some targetColumnId) [] = Some path →
            buildHistoryForColumn fuel targetColumnId columns
            = Some (linearized path)).
  { intros fuel path Hwalk. unfold buildHistoryForColumn. rewrite Hwalk.
    cbn [mbind option_bind]. f_equal. exact (pushed_linearized [] path). }
  destruct (find_col targetColumnId columns) as [c|] eqn:Hc.
  - pose proof (find_col_Some _ _ _ Hc) as [Hin Hid].
    assert (Hk : targetColumnId ∈ ids columns) by (rewrite <- Hid; by apply in_ids).
    destruct (well_formed_reaches_root columns Hnd _ Hpe Hac Hk) as [d Hd].
    pose proof (reaches_root_bound columns _ d Hd) as Hbound.
    destruct (walk_total columns d _ Hd (S d) []) as (path & Hwalk & Hpath & Hlast);
      [lia|].
    rewrite app_nil_r in Hwalk. exists path. split; [|split; [exact Hpath|split]].
    + intros fuel Hfuel.
      destruct (walk_total columns d _ Hd fuel []) as (path' & Hwalk' & _); [lia|].
      rewrite app_nil_r in Hwalk'.
      assert (path' = path) as ->.
      { revert Hwalk Hwalk'. clear -Hfuel Hbound.
        generalize (@nil Column.t) (Some targetColumnId).
        assert (Hmono : ∀ f1 f2 cur (acc r : list Column.t), (f1 ≤ f2)%nat →
                  walk f1 columns cur acc = Some r → walk f2 columns cur acc = Some r).
        { induction f1 as [|f1 IH]; intros f2 cur acc r Hle H1.
          - destruct cur as [cid|]; cbn [walk] in H1; [|by destruct f2].
            destruct (truthy cid) eqn:Ht; [discriminate|].
            destruct f2; cbn [walk]; by rewrite Ht.
          - destruct f2 as [|f2]; [lia|]. destruct cur as [cid|]; [|exact H1].
            cbn [walk] in H1 |- *. destruct (truthy cid); [|exact H1].
            destruct (find_col cid columns) as [col|]; [|exact H1].
            apply (IH f2); [lia|exact H1]. }
        intros acc cur H1 H2.
        destruct (Nat.le_ge_cases (S d) fuel) as [Hle|Hle].
        - pose proof (Hmono _ _ _ _ _ Hle H1). congruence.
        - pose proof (Hmono _ _ _ _ _ Hle H2). congruence. }
      split; [exact Hwalk'|]. by apply Hbuild.
    + discriminate.
    + intros c' Ht [= <-]. destruct (Hlast c Ht Hc) as [above ->].
      destruct (linearized_last above c) as [pre Hpre]. by exists above, pre.
  - exists []. split; [|split; [|split]].
    + intros [|fuel] Hfuel; [lia|]. split; [|apply Hbuild]; cbn [walk];
        rewrite Hc; by destruct (truthy targetColumnId).
    + intros c' Hc'. by apply elem_of_nil in Hc'.
    + reflexivity.
    + discriminate.
Qed.

Lemma sample_tree_well_formed : well_formed Sample.tree.
Proof.
  assert (Hnd : NoDup (ids Sample.tree))
    by (apply (bool_decide_unpack _); vm_compute; exact I).
  split; [exact Hnd|]. split.
  - intros c p Hc Hp. unfold Sample.tree in Hc.
    repeat (apply elem_of_cons in Hc as [->|Hc]);
      try (by apply elem_of_nil in Hc);
      cbn in Hp; try discriminate; injection Hp as <-;
      apply (bool_decide_unpack _); vm_compute; exact I.
  - apply reaches_root_acyclic. intros c Hc. unfold Sample.tree in Hc.
    repeat (apply elem_of_cons in Hc as [->|Hc]); try (by apply elem_of_nil in Hc).
    + exists 0%nat. do 2 eexists. repeat split; reflexivity.
    + exists 1%nat. do 2 eexists. repeat split; reflexivity.
Qed.

Lemma buildHistoryForColumn_defined_witness :
  buildHistoryForColumn 3 "B" Sample.tree
  = Some [ {| HistoryItem.role := user; HistoryItem.parts := ["What is a monad?"] |};
           {| HistoryItem.role := model;
              HistoryItem.parts := ["A monoid in the category of X."] |};
           {| HistoryItem.role := user;
              HistoryItem.parts :=
                ["I want to branch off and discuss specifically about: "
                   +:+ String "034"%char ("X" +:+ String "034"%char EmptyString)] |};
           {| HistoryItem.role := user; HistoryItem.parts := ["Tell me more."] |};
           {| HistoryItem.role := model;
              HistoryItem.parts := ["X is short for endofunctors."] |} ].
Proof.
  destruct (buildHistoryForColumn_defined Sample.tree "B")
    as (path & Hrun & _ & _ & _).
  - exact sample_tree_well_formed.
  - destruct (Hrun 3%nat) as [Hwalk Hbuild]; [cbn; lia|].
    assert (Hpath : walk 3 Sample.tree (Some "B") [] = Some [Sample.root; Sample.B])
      by reflexivity.
    rewrite Hpath in Hwalk. injection Hwalk as <-. exact Hbuild.
Defined.

(** X15: the loop of the history builder does not end on a cyclic parent
    chain: when the target is its own ancestor, through columns with
    non-empty ids, no amount of fuel yields a history. *)
Theorem buildHistoryForColumn_cycle
    (columns : list Column.t) (targetColumnId : string) (e : nat) :
  (0 < e)%nat →
  ancestor_at columns e targetColumnId = Some targetColumnId →
  Forall (λ c, truthy (Column.id c) = true) columns →
  ∀ fuel, buildHistoryForColumn fuel targetColumnId columns = None.
Proof.
  intros He Hcyc Hids fuel.
  assert (Hwalk : ∀ fuel k acc,
            (∃ e, (0 < e)%nat ∧ ancestor_at columns e k = Some k) →
            walk fuel columns (Some k) acc = None).
  { clear -Hids. intros fuel'.
    induction fuel' as [|fuel' IH]; intros k acc (e' & He' & Hk).
    all: destruct e' as [|e']; [lia|].
    all: pose proof Hk as Hk'; cbn [ancestor_at] in Hk'.
    all: destruct (find_col k columns) as [c|] eqn:Hc; [|discriminate].
    all: destruct (Column.parentId c) as [p|] eqn:Hp; [|discriminate].
    all: pose proof (find_col_Some _ _ _ Hc) as [Hin Hid].
    all: assert (Ht : truthy k = true)
        by (rewrite <- Hid; exact (proj1 (Forall_forall _ _) Hids c Hin)).
    1: (cbn [walk]; rewrite Ht; reflexivity).
    cbn [walk]. rewrite Ht, Hc, Hp. apply IH. exists (e' + 1)%nat. split; [lia|].
    rewrite ancestor_at_add, Hk'. cbn [mbind option_bind ancestor_at].
    by rewrite Hc, Hp. }
  unfold buildHistoryForColumn. rewrite Hwalk; [reflexivity|eauto].
Qed.

Lemma buildHistoryForColumn_cycle_witness :
  buildHistoryForColumn 1000 "p" SampleLayout.broken = None.
Proof.
  apply (buildHistoryForColumn_cycle SampleLayout.broken "p" 2).
  - lia.
  - reflexivity.
  - repeat constructor.
Defined.

(** ** Updates seen column by column *)

Lemma apply_op_fmap (columns : list Column.t) (op : StoreOp) :
  apply_op columns op = (λ col, op_step col op) <$> columns.
Proof.
  destruct op as [cid m|cid ch|cid b|cid]; cbn [apply_op];
    [|apply updateLastMessage_spec| |]; reflexivity.
Qed.

Lemma op_step_id (col : Column.t) (op : StoreOp) :
  Column.id (op_step col op) = Column.id col.
Proof.
  unfold op_step. destruct (String.eqb (Column.id col) (op_target op)); [|reflexivity].
  by destruct op.
Qed.

Lemma foldl_op_step_id (ops : list StoreOp) (col : Column.t) :
  Column.id (foldl op_step col ops) = Column.id col.
Proof.
  revert col. induction ops as [|op ops IH]; intros col; [reflexivity|].
  cbn [foldl]. by rewrite IH, op_step_id.
Qed.

Lemma foldl_apply_op_fmap (ops : list StoreOp) (columns : list Column.t) :
  foldl apply_op columns ops = (λ col, foldl op_step col ops) <$> columns.
Proof.
  revert columns. induction ops as [|op ops IH]; intros columns.
  - cbn [foldl]. by rewrite list_fmap_id.
  - cbn [foldl]. rewrite IH, apply_op_fmap, <- list_fmap_compose. reflexivity.
Qed.

Lemma foldl_op_step_filter (ops : list StoreOp) (col : Column.t) :
  foldl op_step col ops
  = foldl op_step col (filter (λ op, op_target op = Column.id col) ops).
Proof.
  revert col. induction ops as [|op ops IH]; intros col; [reflexivity|].
  cbn [foldl]. rewrite IH, op_step_id.
  destruct (String.eqb_spec (Column.id col) (op_target op)) as [Heq|Hne].
  - rewrite filter_cons_True by congruence. reflexivity.
  - rewrite filter_cons_False by congruence.
    apply String.eqb_neq in Hne. unfold op_step at 2. by rewrite Hne.
Qed.

(** X16: the store after a run of updates depends, column by column, only
    on the updates addressed to that column and their order: two runs with
    the same updates per column - streams into different columns interleaved
    in any way - end in the same column list. *)
Theorem store_ops_per_column (columns : list Column.t) (ops ops' : list StoreOp) :
  (∀ columnId, filter (λ op, op_target op = columnId) ops
               = filter (λ op, op_target op = columnId) ops') →
  foldl apply_op columns ops = foldl apply_op columns ops'.
Proof.
  intros Hsame. rewrite !foldl_apply_op_fmap. apply list_fmap_ext.
  intros i col _. rewrite (foldl_op_step_filter ops), (foldl_op_step_filter ops').
  by rewrite Hsame.
Qed.

Lemma store_ops_per_column_witness :
  foldl apply_op Sample.tree
    [AddMessage "B" (Message.mk "a4" model EmptyString 8);
     SetThinking "root" true; UpdateLast "B" "So"; UpdateLast "root" "!";
     UpdateLast "B" " it is."]
  = foldl apply_op Sample.tree
      [SetThinking "root" true; UpdateLast "root" "!";
       AddMessage "B" (Message.mk "a4" model EmptyString 8);
       UpdateLast "B" "So"; UpdateLast "B" " it is."].
Proof.
  apply store_ops_per_column. intros columnId.
  rewrite !filter_cons, !filter_nil. cbn [op_target].
  destruct (decide ("B" = columnId)) as [HB|HB];
    destruct (decide ("root" = columnId)) as [Hr|Hr];
    [congruence|reflexivity..].
Defined.

(** X17: updates addressed to a column that is not in the store change
    nothing; in particular the whole callback of a submission - model
    message, chunks, error notice, reset of the flag - is without effect once
    its column has been closed. *)
Theorem run_deferred_closed_column
    (columns : list Column.t) (d : Deferred.t) (chunks : list (option string))
    (failed : bool) (ops : list StoreOp) :
  Deferred.columnId d ∉ ids columns →
  Forall (λ op, op_target op ∉ ids columns) ops →
  foldl apply_op columns (run_deferred d chunks failed) = columns ∧
  foldl apply_op columns ops = columns.
Proof.
  assert (Hgen : ∀ l, Forall (λ op, op_target op ∉ ids columns) l →
                      foldl apply_op columns l = columns).
  { intros l Hl. rewrite foldl_apply_op_fmap. rewrite <- (list_fmap_id columns) at 2.
    apply list_fmap_ext. intros i col Hcol. cbn.
    apply list_elem_of_lookup_2 in Hcol. apply in_ids in Hcol.
    rewrite foldl_op_step_filter.
    replace (filter _ l) with (@nil StoreOp); [reflexivity|].
    symmetry. apply elem_of_nil_inv. intros op Hop.
    apply list_elem_of_filter in Hop as [Ht Hop].
    apply (proj1 (Forall_forall _ _) Hl op Hop). by rewrite Ht. }
  intros Hd Hops. split; [|by apply Hgen].
  apply Hgen. unfold run_deferred. constructor; [exact Hd|].
  apply Forall_app. split; [|by repeat constructor].
  apply Forall_fmap, Forall_forall. intros t _. exact Hd.
Qed.

Lemma run_deferred_closed_column_witness :
  foldl apply_op Sample.tree
    (run_deferred
       (Deferred.mk "gone" (Message.mk "a9" model EmptyString 9) "a question"
          Sample.tree)
       [Some "late"; None; Some " answer"] true)
  = Sample.tree.
Proof.
  apply (run_deferred_closed_column Sample.tree
           (Deferred.mk "gone" (Message.mk "a9" model EmptyString 9) "a question"
              Sample.tree)
           [Some "late"; None; Some " answer"] true [ToggleCollapse "gone"]).
  - apply (bool_decide_unpack _). vm_compute. exact I.
  - repeat constructor. apply (bool_decide_unpack _). vm_compute. exact I.
Defined.

(** ** A whole exchange *)

Lemma foldl_op_step_other (ops : list StoreOp) (col : Column.t) (sel : string) :
  Forall (λ op, op_target op = sel) ops → Column.id col ≠ sel →
  foldl op_step col ops = col.
Proof.
  intros Hops Hne. induction Hops as [|op ops Hop _ IH]; [reflexivity|].
  cbn [foldl]. unfold op_step at 2. rewrite Hop.
  apply String.eqb_neq in Hne. rewrite Hne. exact IH.
Qed.

Lemma foldl_update_last (calls : list string) (col : Column.t) (sel : string) :
  Column.id col = sel →
  foldl op_step col (UpdateLast sel <$> calls)
  = set_messages col
      (append_to_last (foldr String.append EmptyString calls) (Column.messages col))
      (Column.title col).
Proof.
  intros Hid. revert col Hid. induction calls as [|t calls IH]; intros col Hid.
  - cbn [fmap list_fmap foldl foldr]. rewrite append_to_last_nil. by destruct col.
  - rewrite fmap_cons. cbn [foldl foldr]. unfold op_step at 2. cbn [op_target].
    apply String.eqb_eq in Hid. rewrite Hid. apply String.eqb_eq in Hid.
    rewrite IH by exact Hid. cbn [op_on]. unfold set_messages. cbn.
    by rewrite append_to_last_compose.
Qed.

Lemma append_to_last_model (pre : list Message.t) (m : Message.t) (t : string) :
  Message.role m = model →
  append_to_last t (pre ++ [m]) = pre ++ [append_text m t].
Proof.
  intros Hm. induction pre as [|x pre IH].
  - cbn. by rewrite bool_decide_eq_true_2.
  - assert (Hcons : ∃ y ys, pre ++ [m] = y :: ys) by (destruct pre; cbn; eauto).
    destruct Hcons as (y & ys & Heq). rewrite <- !app_comm_cons.
    rewrite Heq. change (append_to_last t (x :: y :: ys))
      with (x :: append_to_last t (y :: ys)).
    by rewrite <- Heq, IH.
Qed.

Lemma streamGeminiResponse_text (chunks : list (option string)) (failed : bool) :
  foldr String.append EmptyString (streamGeminiResponse chunks failed)
  = foldr (λ chunk rest, match chunk with
                         | Some text => text +:+ rest
                         | None => rest
                         end)
      (if failed
       then String "010"%char (String "010"%char
              "[Error: Unable to fetch response. Please check your connection or API key.]")
       else EmptyString)
      chunks.
Proof.
  unfold streamGeminiResponse.
  induction chunks as [|[text|] chunks IH]; cbn [omap list_omap app foldr].
  - by destruct failed.
  - destruct text as [|c text]; cbn [truthy]; [exact IH|].
    cbn [app foldr]. by rewrite IH.
  - exact IH.
Qed.

(** X18: a whole exchange.  After an accepted submission and the run of its
    callback, with nothing else in between, the selected column has gained
    exactly two messages - the typed text as user message and one model
    message whose text is the texts of the chunks, in order, a chunk without
    text adding nothing, followed when the stream failed by two line feeds
    and the bracketed error sentence - and is expanded and no longer
    thinking; its place in the tree is as before and every other column is
    untouched. *)
Theorem exchange_completes
    (st st1 : App.t) (uuid1 uuid2 : string) (now1 now2 : Z) (d : Deferred.t)
    (chunks : list (option string)) (failed : bool) :
  NoDup (ids (App.columns st)) →
  handleGlobalSubmit st uuid1 uuid2 now1 now2 = (st1, Some d) →
  let sel := App.selectedColumnId st in
  let answer :=
    foldr (λ chunk rest, match chunk with
                         | Some text => text +:+ rest
                         | None => rest
                         end)
      (if failed
       then String "010"%char (String "010"%char
              "[Error: Unable to fetch response. Please check your connection or API key.]")
       else EmptyString)
      chunks in
  Forall2
    (λ col col',
       if String.eqb (Column.id col) sel then
         Column.messages col'
         = Column.messages col
           ++ [Message.mk uuid1 user (App.globalInput st) now1;
               Message.mk uuid2 model answer now2] ∧
         Column.isThinking col' = false ∧
         Column.isCollapsed col' = false ∧
         (Column.id col', Column.parentId col', Column.parentMessageId col',
          Column.contextSnippet col', Column.inputValue col')
         = (Column.id col, Column.parentId col, Column.parentMessageId col,
            Column.contextSnippet col, Column.inputValue col)
       else col' = col)
    (App.columns st)
    (foldl apply_op (App.columns st1) (run_deferred d chunks failed)).
Proof.
  intros Hnd Hfirst sel answer.
  assert (Hanswer : answer = foldr String.append EmptyString
                               (streamGeminiResponse chunks failed))
    by (symmetry; apply streamGeminiResponse_text).
  clearbody answer. subst answer.
  destruct (handleGlobalSubmit_accepted _ _ _ _ _ _ _ Hfirst)
    as (target & Hf & Hth & _ & _ & Hcols & Hd).
  fold sel in Hf, Hcols, Hd. rewrite Hcols, <- foldl_app, foldl_apply_op_fmap.
  apply Forall2_fmap_r, Forall_Forall2_diag, Forall_forall. intros col Hcol.
  unfold compose. cbv beta. subst d. unfold run_deferred. cbn [Deferred.columnId
    Deferred.modelMsg].
  destruct (String.eqb_spec (Column.id col) sel) as [Hid|Hid].
  - assert (col = target) as ->.
    { pose proof (find_col_NoDup _ col Hnd Hcol) as Hc. rewrite Hid in Hc. congruence. }
    rewrite <- app_assoc. cbn [app foldl]. rewrite foldl_app.
    apply String.eqb_eq in Hid.
    assert (Hstep : ∀ c op, Column.id c = Column.id target → op_target op = sel →
                            op_step c op = op_on op c).
    { intros c op Hc Hop. unfold op_step. by rewrite Hc, Hop, Hid. }
    set (c1 := op_step target (AddMessage sel _)).
    set (c2 := op_step c1 (SetThinking sel true)).
    assert (Hc2 : Column.messages c2
                  = Column.messages target
                    ++ [Message.mk uuid1 user (App.globalInput st) now1]
                  ∧ Column.isThinking c2 = true
                  ∧ Column.isCollapsed c2 = Column.isCollapsed target
                  ∧ (Column.id c2, Column.parentId c2, Column.parentMessageId c2,
                     Column.contextSnippet c2, Column.inputValue c2)
                    = (Column.id target, Column.parentId target,
                       Column.parentMessageId target,
                       Column.contextSnippet target, Column.inputValue target)).
    { subst c2 c1. rewrite (Hstep target) by reflexivity.
      rewrite Hstep by reflexivity. repeat split; reflexivity. }
    clearbody c2. clear c1. destruct Hc2 as (Hm2 & Ht2 & Hk2 & Hf2).
    set (c3 := foldl op_step c2
                 (if Column.isCollapsed target then [ToggleCollapse sel] else [])).
    assert (Hc3 : Column.messages c3 = Column.messages c2
                  ∧ Column.isCollapsed c3 = false
                  ∧ (Column.id c3, Column.parentId c3, Column.parentMessageId c3,
                     Column.contextSnippet c3, Column.inputValue c3)
                    = (Column.id c2, Column.parentId c2, Column.parentMessageId c2,
                       Column.contextSnippet c2, Column.inputValue c2)).
    { subst c3. destruct (Column.isCollapsed target) eqn:Hk; cbn [foldl].
      - rewrite Hstep by (congruence || reflexivity). cbn. rewrite Hk2.
        repeat split; reflexivity.
      - repeat split; [exact Hk2]. }
    clearbody c3. destruct Hc3 as (Hm3 & Hk3 & Hf3).
    assert (Hid3 : Column.id c3 = Column.id target) by congruence.
    cbn [foldl]. rewrite foldl_app.
    rewrite (Hstep c3) by (exact Hid3 || reflexivity).
    rewrite foldl_update_last by (cbn; apply String.eqb_eq in Hid; congruence).
    cbn [foldl]. rewrite Hstep by (cbn; congruence || reflexivity).
    cbn. rewrite Hm3, Hm2.
    rewrite (append_to_last_model _ (Message.mk uuid2 model EmptyString now2))
      by reflexivity.
    unfold append_text. cbn. rewrite <- app_assoc. cbn [app].
    split; [reflexivity|]. split; [reflexivity|]. split; [exact Hk3|]. congruence.
  - rewrite foldl_op_step_other with (sel := sel); [reflexivity| |exact Hid].
    apply Forall_app. split.
    + apply Forall_app. split; [by repeat constructor|].
      destruct (Column.isCollapsed target); by repeat constructor.
    + constructor; [reflexivity|]. apply Forall_app. split; [|by repeat constructor].
      apply Forall_fmap, Forall_forall. intros t _. reflexivity.
Qed.

Lemma exchange_completes_witness :
  let chunks := [Some "It"; None; Some EmptyString; Some " is."] in
  let d := Deferred.mk "B" (Message.mk "a4" model EmptyString 8) "next question"
             Sample.tree in
  Forall2
    (λ col col',
       if String.eqb (Column.id col) "B" then
         Column.messages col'
         = Column.messages col
           ++ [Message.mk "u4" user "next question" 7;
               Message.mk "a4" model
                 ("It is."
                  +:+ String "010"%char (String "010"%char
                        "[Error: Unable to fetch response. Please check your connection or API key.]"))
                 8] ∧
         Column.isThinking col' = false ∧
         Column.isCollapsed col' = false ∧
         (Column.id col', Column.parentId col', Column.parentMessageId col',
          Column.contextSnippet col', Column.inputValue col')
         = (Column.id col, Column.parentId col, Column.parentMessageId col,
            Column.contextSnippet col, Column.inputValue col)
       else col' = col)
    Sample.tree
    (foldl apply_op
       (App.columns (fst (handleGlobalSubmit Sample.state "u4" "a4" 7 8)))
       (run_deferred d chunks true)).
Proof.
  intros chunks d.
  apply (exchange_completes Sample.state
           (fst (handleGlobalSubmit Sample.state "u4" "a4" 7 8))
           "u4" "a4" 7 8 d chunks true).
  - apply (bool_decide_unpack _). vm_compute. exact I.
  - reflexivity.
Defined.

(** ** The minimap *)

Lemma fit_inside (world ratio lo p s map : Q) :
  (0 <= ratio → world * ratio <= map → 0 <= s →
   lo <= p → p + s <= lo + world →
   0 <= (map - world * ratio) / 2 + (p - lo) * ratio ∧
   (map - world * ratio) / 2 + (p - lo) * ratio + s * ratio <= map ∧
   0 <= s * ratio)%Q.
Proof.
  intros Hr Hfit Hs Hlo Hhi.
  assert (H1 : (0 <= (p - lo) * ratio)%Q) by (apply Qmult_le_0_compat; lra).
  assert (H2 : (0 <= (lo + world - p - s) * ratio)%Q)
    by (apply Qmult_le_0_compat; lra).
  assert (H3 : (0 <= s * ratio)%Q) by (apply Qmult_le_0_compat; lra).
  unfold Qdiv. change (/ 2)%Q with (1 # 2)%Q.
  repeat split; lra.
Qed.

Lemma ratio_fits (mapW mapH worldW worldH : Q) :
  (0 < mapW → 0 < mapH → 0 < worldW → 0 < worldH →
   let ratio := Qmin (mapW / worldW) (mapH / worldH) in
   0 < ratio ∧ worldW * ratio <= mapW ∧ worldH * ratio <= mapH)%Q.
Proof.
  intros HmW HmH HW HH ratio.
  assert (HX : (0 < mapW / worldW)%Q) by (apply Qlt_shift_div_l; lra).
  assert (HY : (0 < mapH / worldH)%Q) by (apply Qlt_shift_div_l; lra).
  assert (HrX : (ratio <= mapW / worldW)%Q) by apply Q.le_min_l.
  assert (HrY : (ratio <= mapH / worldH)%Q) by apply Q.le_min_r.
  split; [|split].
  - unfold ratio.
    destruct (Q.min_spec (mapW / worldW) (mapH / worldH)) as [[_ ->]|[_ ->]];
      assumption.
  - apply (Qmult_le_l _ _ worldW) in HrX; [|exact HW].
    assert (E : (worldW * (mapW / worldW) == mapW)%Q) by (field; lra).
    rewrite E in HrX. exact HrX.
  - apply (Qmult_le_l _ _ worldH) in HrY; [|exact HH].
    assert (E : (worldH * (mapH / worldH) == mapH)%Q) by (field; lra).
    rewrite E in HrY. exact HrY.
Qed.

(** The bounds after the loop enclose every node the loop has seen. *)
Lemma bounds_fold (nodeOffsets : gmap string Vec.t) (layout : list (string * Pos.t)) :
  ∀ acc,
    match foldl (bounds_step nodeOffsets) acc layout with
    | None => acc = None ∧ layout = []
    | Some (minX, maxX, minY, maxY) =>
        (∀ e, e ∈ layout →
           let '(x, y) := minimap_xy nodeOffsets e in
           (minX <= x ∧ x + NODE_WIDTH <= maxX ∧
            minY <= y ∧ y + Pos.height (snd e) <= maxY)%Q) ∧
        (∀ a b c d, acc = Some (a, b, c, d) →
           (minX <= a ∧ b <= maxX ∧ minY <= c ∧ d <= maxY)%Q)
    end.
Proof.
  induction layout as [|e layout IH]; intros acc.
  - cbn [foldl]. destruct acc as [[[[a b] c] d]|]; [|done].
    split; [intros e He; by apply elem_of_nil in He|].
    intros ? ? ? ? [= <- <- <- <-]. repeat split; lra.
  - cbn [foldl]. specialize (IH (bounds_step nodeOffsets acc e)).
    destruct (foldl _ _ layout) as [[[[minX maxX] minY] maxY]|].
    2:{ destruct IH as [IH _]. unfold bounds_step in IH.
        destruct (minimap_xy nodeOffsets e), acc as [[[[? ?] ?] ?]|]; discriminate. }
    destruct IH as [Hin Hacc]. unfold bounds_step in Hacc.
    destruct (minimap_xy nodeOffsets e) as [x y] eqn:Hxy.
    assert (He : (minX <= x ∧ x + NODE_WIDTH <= maxX ∧
                  minY <= y ∧ y + Pos.height (snd e) <= maxY)%Q
                 ∧ ∀ a b c d, acc = Some (a, b, c, d) →
                     (minX <= a ∧ b <= maxX ∧ minY <= c ∧ d <= maxY)%Q).
    { destruct acc as [[[[a b] c] d]|].
      - destruct (Hacc _ _ _ _ eq_refl) as (H1 & H2 & H3 & H4).
        pose proof (Q.le_min_l a x). pose proof (Q.le_min_r a x).
        pose proof (Q.le_min_l c y). pose proof (Q.le_min_r c y).
        pose proof (Q.le_max_l b (x + NODE_WIDTH)).
        pose proof (Q.le_max_r b (x + NODE_WIDTH)).
        pose proof (Q.le_max_l d (y + Pos.height (snd e))).
        pose proof (Q.le_max_r d (y + Pos.height (snd e))).
        split; [repeat split; lra|].
        intros ? ? ? ? [= <- <- <- <-]. repeat split; lra.
      - split; [exact (Hacc _ _ _ _ eq_refl)|]. discriminate. }
    destruct He as [He Hwider]. split; [|exact Hwider].
    intros e' He'. apply elem_of_cons in He' as [->|He'].
    + rewrite Hxy. exact He.
    + by apply Hin.
Qed.

(** X19: the minimap shows every node, inside the map.  The component
    renders nothing exactly when the layout is empty; otherwise it draws one
    thumbnail per layout entry, in order, and - heights being non-negative -
    every thumbnail lies within the 200 by 150 map. *)
Theorem Minimap_nodes_inside
    (layout : list (string * Pos.t)) (nodeOffsets : gmap string Vec.t)
    (pan : Vec.t) (scale : Q) (viewportSize : Q * Q) :
  Forall (λ e, (0 <= Pos.height (snd e))%Q) layout →
  match Minimap layout nodeOffsets pan scale viewportSize with
  | None => layout = []
  | Some view =>
      layout ≠ [] ∧
      fst <$> MinimapView.nodes view = fst <$> layout ∧
      Forall (λ n, let r := snd n in
                   (0 <= Rect.left r ∧ Rect.left r + Rect.width r <= 200 ∧
                    0 <= Rect.top r ∧ Rect.top r + Rect.height r <= 150 ∧
                    0 <= Rect.width r ∧ 0 <= Rect.height r)%Q)
        (MinimapView.nodes view)
  end.
Proof.
  intros Hheights. unfold Minimap.
  pose proof (bounds_fold nodeOffsets layout None) as Hb.
  destruct (foldl _ None layout) as [[[[minX0 maxX0] minY0] maxY0]|] eqn:Hfold;
    [|by destruct Hb]. destruct Hb as [Hb _]. cbv zeta.
  assert (Hne : layout ≠ []) by (intros ->; discriminate).
  split; [exact Hne|]. cbn [MinimapView.nodes].
  split.
  { rewrite <- list_fmap_compose. apply list_fmap_ext. intros i e _. cbn.
    by destruct (minimap_xy nodeOffsets e). }
  assert (Hworld : (0 < maxX0 + 500 - (minX0 - 500) ∧ 0 < maxY0 + 500 - (minY0 - 500))%Q).
  { destruct layout as [|e0 rest]; [done|].
    pose proof (Hb e0 (list_elem_of_here _ _)) as H0.
    apply Forall_cons in Hheights as [Hh0 _].
    destruct (minimap_xy nodeOffsets e0) as [x0 y0]. unfold NODE_WIDTH in H0.
    split; lra. }
  destruct Hworld as [HW HH].
  destruct (ratio_fits 200 150 _ _ (eq_refl : (0 < 200)%Q) (eq_refl : (0 < 150)%Q) HW HH)
    as (Hr & HfitW & HfitH).
  set (ratio := Qmin _ _) in *. clearbody ratio.
  apply Forall_fmap, Forall_forall. intros e He. unfold compose.
  pose proof (Hb e He) as Hcover.
  pose proof (proj1 (Forall_forall _ _) Hheights e He) as Hh. cbv beta in Hh.
  destruct (minimap_xy nodeOffsets e) as [x y]. cbv zeta.
  cbn [snd Rect.left Rect.top Rect.width Rect.height].
  destruct Hcover as (Hx1 & Hx2 & Hy1 & Hy2). unfold NODE_WIDTH in *.
  destruct (fit_inside (maxX0 + 500 - (minX0 - 500)) ratio (minX0 - 500) x 450 200)
    as (A1 & A2 & A3); [lra..|].
  destruct (fit_inside (maxY0 + 500 - (minY0 - 500)) ratio (minY0 - 500) y
              (Pos.height (snd e)) 150) as (B1 & B2 & B3); [lra..|].
  repeat split; assumption.
Qed.

Lemma Minimap_nodes_inside_witness :
  match Minimap [("r", Pos.mk 0 0 300); ("a", Pos.mk 600 (-75) 100)]
          (<["a" := Vec.mk 40 (-20)]> ∅) (Vec.mk 100 0) 1 (1280, 720)%Q with
  | None => False
  | Some view =>
      Forall (λ n, let r := snd n in
                   (0 <= Rect.left r ∧ Rect.left r + Rect.width r <= 200 ∧
                    0 <= Rect.top r ∧ Rect.top r + Rect.height r <= 150 ∧
                    0 <= Rect.width r ∧ 0 <= Rect.height r)%Q)
        (MinimapView.nodes view)
  end.
Proof.
  pose proof (Minimap_nodes_inside
                [("r", Pos.mk 0 0 300); ("a", Pos.mk 600 (-75) 100)]
                (<["a" := Vec.mk 40 (-20)]> ∅) (Vec.mk 100 0) 1 (1280, 720)%Q) as H.
  destruct (Minimap _ _ _ _ _) as [view|].
  - apply H. repeat constructor; discriminate.
  - discriminate H. repeat constructor; discriminate.
Defined.

(** ** The grid of the layout *)

Lemma column_x_step (d1 d2 : nat) :
  (d1 < d2)%nat → (column_x d1 + NODE_WIDTH + NODE_GAP_X <= column_x d2)%Q.
Proof.
  induction 1 as [|d2 _ IH]; cbn [column_x]; unfold NODE_WIDTH, NODE_GAP_X in *; lra.
Qed.

(** X20: the layout is a grid.  For unique ids and measured heights, a node
    whose chain reaches a root after [d] steps is placed [d] columns to the
    right of the roots, with the measured height or the default one, and
    nowhere above the top of the canvas; and the rectangles of any two
    distinct nodes are apart: a horizontal gap of at least 150 between
    different columns, a vertical gap of at least 50 within one column. *)
Theorem calculateLayout_grid
    (columns : list Column.t) (nodeHeights : gmap string Q) :
  NoDup (ids columns) → measured nodeHeights →
  ∃ layout,
    (∀ fuel, (length columns ≤ fuel)%nat →
       calculateLayout fuel columns nodeHeights = Some layout) ∧
    (∀ k d, reaches_root columns k d →
       ∃ p, layout !! k = Some p ∧ Pos.x p == column_x d ∧
            Pos.height p = height_of nodeHeights k ∧ (0 <= rect_top p)%Q) ∧
    (∀ a b pa pb, a ≠ b → layout !! a = Some pa → layout !! b = Some pb →
       (Pos.x pa + NODE_WIDTH + NODE_GAP_X <= Pos.x pb)%Q ∨
       (Pos.x pb + NODE_WIDTH + NODE_GAP_X <= Pos.x pa)%Q ∨
       (Pos.x pa == Pos.x pb ∧ separated pa pb)).
Proof.
  intros Hnd Hm.
  destruct (calculateLayout_total columns nodeHeights Hnd (length columns) (le_n _))
    as (top' & layout & Hstack & Hcalc).
  pose proof (calculateLayout_placed columns nodeHeights Hnd Hm _ top' layout Hstack)
    as (P & D & _).
  pose proof (calculateLayout_frame columns nodeHeights Hnd _ layout Hcalc) as Hdom.
  assert (Hplace : ∀ k d, reaches_root columns k d →
            ∃ p, layout !! k = Some p ∧ Pos.x p == column_x d ∧
                 Pos.height p = height_of nodeHeights k ∧ (0 <= rect_top p)%Q).
  { intros k d (r & c & Hr & Hc & Hp). apply find_col_Some in Hc as [Hin <-].
    destruct (P (Column.id c) k d) as (p & Hk & Hx & Hh & Ht & _); [|exact Hr|].
    - apply in_ids. apply list_elem_of_filter. auto.
    - exists p. split; [exact Hk|]. split; [rewrite Hx; ring|]. auto. }
  exists layout. split; [intros fuel Hfuel; by eapply calculateLayout_mono|].
  split; [exact Hplace|].
  intros a b pa pb Hab Ha Hb.
  destruct (proj1 (Hdom a)) as [da Hda]; [by eexists|].
  destruct (proj1 (Hdom b)) as [db Hdb]; [by eexists|].
  destruct (Hplace a da Hda) as (pa' & Ha' & Hxa & _).
  destruct (Hplace b db Hdb) as (pb' & Hb' & Hxb & _).
  assert (pa' = pa) as -> by congruence. assert (pb' = pb) as -> by congruence.
  destruct (Nat.lt_trichotomy da db) as [Hlt|[Heq|Hlt]].
  - left. rewrite Hxa, Hxb. by apply column_x_step.
  - right. right. subst db. split; [by rewrite Hxa, Hxb|].
    apply (D a b pa pb); try assumption;
      try (eapply reaches_root_within_roots; eassumption).
    split; intros [e He].
    + pose proof (reaches_root_up columns _ _ _ _ He Hda) as Hb2.
      pose proof (depth_unique columns _ _ _ Hdb Hb2) as Hd.
      assert (e = 0)%nat as -> by lia. cbn in He. congruence.
    + pose proof (reaches_root_up columns _ _ _ _ He Hdb) as Ha2.
      pose proof (depth_unique columns _ _ _ Hda Ha2) as Hd.
      assert (e = 0)%nat as -> by lia. cbn in He. congruence.
  - right. left. rewrite Hxa, Hxb. by apply column_x_step.
Qed.

Lemma calculateLayout_grid_witness :
  ∃ layout,
    calculateLayout 4 SampleLayout.columns SampleLayout.nodeHeights = Some layout ∧
    ∃ p, layout !! "a1" = Some p ∧ Pos.x p == 1200 ∧ Pos.height p = 400%Q.
Proof.
  destruct (calculateLayout_grid SampleLayout.columns SampleLayout.nodeHeights)
    as (layout & Hrun & Hplace & _).
  - exact sample_unique_ids.
  - exact sample_measured.
  - exists layout. split; [apply Hrun; cbn; lia|].
    destruct (Hplace "a1" 2%nat) as (p & Hp & Hx & Hh & _).
    + do 2 eexists. repeat split; reflexivity.
    + exists p. split; [exact Hp|]. split; [rewrite Hx; reflexivity|exact Hh].
Defined.

(** ** The invariant of the running application *)

Lemma well_formed_shape (cols1 cols2 : list Column.t) :
  shape cols2 = shape cols1 → well_formed cols1 → well_formed cols2.
Proof.
  intros Hshape (Hnd & Hpe & Hac).
  assert (Hids : ids cols2 = ids cols1) by (by rewrite !shape_ids, Hshape).
  split; [by rewrite Hids|]. split.
  - intros c p Hc Hp. rewrite Hids.
    assert (Hin : (Column.id c, Some p) ∈ shape cols1).
    { rewrite <- Hshape. unfold shape. apply list_elem_of_fmap.
      exists c. by rewrite Hp. }
    unfold shape in Hin. apply list_elem_of_fmap in Hin as (c0 & Heq & Hc0).
    injection Heq as _ Hp0. by apply (Hpe c0 p).
  - intros k e He. rewrite (ancestor_at_shape cols2 cols1 e k Hshape).
    by apply Hac.
Qed.

Lemma root_first_shape (cols1 cols2 : list Column.t) :
  shape cols2 = shape cols1 → root_first cols1 → root_first cols2.
Proof.
  intros Hshape (c0 & rest & -> & Hp).
  destruct cols2 as [|c0' rest']; [discriminate|].
  injection Hshape as _ Hp' _. exists c0', rest'. split; [reflexivity|congruence].
Qed.

Lemma singleton_well_formed (c0 : Column.t) :
  Column.parentId c0 = None → well_formed [c0].
Proof.
  intros Hp. split; [apply NoDup_singleton|]. split.
  - intros c p Hc Hcp. apply list_elem_of_singleton in Hc as ->. congruence.
  - intros k [|e] He Hcyc; [lia|]. cbn in Hcyc.
    destruct (String.eqb (Column.id c0) k); [|discriminate].
    rewrite Hp in Hcyc. discriminate.
Qed.

Lemma snoc_well_formed (columns : list Column.t) (n : Column.t) :
  well_formed columns → Column.id n ∉ ids columns →
  (∀ p, Column.parentId n = Some p → p ∈ ids columns) →
  well_formed (columns ++ [n]).
Proof.
  intros (Hnd & Hpe & Hac) Hfresh Hparent.
  assert (Hids : ids (columns ++ [n]) = ids columns ++ [Column.id n])
    by (unfold ids; by rewrite fmap_app).
  split; [|split].
  - rewrite Hids. apply NoDup_app. split; [exact Hnd|]. split.
    + intros x Hx Hx'. apply list_elem_of_singleton in Hx'. by subst.
    + apply NoDup_singleton.
  - intros c p Hc Hp. rewrite Hids. apply elem_of_app. left.
    apply elem_of_app in Hc as [Hc|Hc]; [exact (Hpe c p Hc Hp)|].
    apply list_elem_of_singleton in Hc. subst c. by apply Hparent.
  - intros k [|e] He Hcyc; [lia|].
    destruct (find_col k columns) as [c|] eqn:Hc.
    + apply find_col_Some in Hc as [Hc <-].
      rewrite ancestor_at_grow in Hcyc by (exact Hpe || by apply in_ids).
      exact (Hac _ (S e) He Hcyc).
    + cbn [ancestor_at] in Hcyc. rewrite find_col_grow, Hc in Hcyc.
      destruct (String.eqb_spec (Column.id n) k) as [<-|Hk]; [|discriminate].
      destruct (Column.parentId n) as [p|] eqn:Hp; [|discriminate].
      rewrite ancestor_at_grow in Hcyc by (exact Hpe || by apply Hparent).
      apply Hfresh.
      exact (ancestor_at_closed columns e p _ Hpe (Hparent p eq_refl) Hcyc).
Qed.

Lemma viewport_step_columns (st : App.t) (ev : ViewportEvent) :
  App.columns (viewport_step st ev) = App.columns st.
Proof.
  destruct ev as [e b c|e c|e| |e| |]; cbn [viewport_step]; try reflexivity.
  - unfold handleMouseDown. destruct (_ || _); [destruct c|]; reflexivity.
  - unfold handleMouseMove.
    destruct (App.dragRef st) as [[[] sx sy [tid|] [ip|] [io|]]|];
      cbn; try destruct (truthy tid); reflexivity.
  - unfold handleWheel. by destruct (negb (App.hasStarted st)).
Qed.

Lemma focusNode_keeps (st : App.t) (layout : gmap string Pos.t)
    (viewport : option (Q * Q)) (nodeId : string) :
  App.columns (focusNode st layout viewport nodeId) = App.columns st ∧
  App.scale (focusNode st layout viewport nodeId) = App.scale st.
Proof.
  unfold focusNode. destruct (layout !! nodeId); [|auto].
  destruct viewport as [[w h]|]; auto.
Qed.

Lemma handleGlobalSubmit_keeps (st st' : App.t) (uuid1 uuid2 : string)
    (now1 now2 : Z) (d : option Deferred.t) :
  handleGlobalSubmit st uuid1 uuid2 now1 now2 = (st', d) →
  shape (App.columns st') = shape (App.columns st) ∧ App.scale st' = App.scale st.
Proof.
  destruct d as [d|].
  - intros H. destruct (handleGlobalSubmit_accepted _ _ _ _ _ _ _ H)
      as (target & _ & _ & _ & _ & Hcols & _).
    split.
    + rewrite Hcols. generalize (App.columns st).
      generalize ([AddMessage (App.selectedColumnId st)
                     (Message.mk uuid1 user (App.globalInput st) now1);
                   SetThinking (App.selectedColumnId st) true]
                  ++ (if Column.isCollapsed target
                      then [ToggleCollapse (App.selectedColumnId st)] else [])).
      intros ops. induction ops as [|op ops IH]; intros cols; [reflexivity|].
      cbn [foldl]. rewrite IH. apply apply_op_shape.
    + unfold handleGlobalSubmit in H.
      destruct (_ || _); [discriminate|].
      destruct (find_col _ _) as [t|]; [|discriminate].
      destruct (Column.isThinking t); [discriminate|].
      injection H as <- _. by destruct (Column.isCollapsed t).
  - unfold handleGlobalSubmit.
    destruct (_ || _); [by intros [= <-]|].
    destruct (find_col _ _) as [t|]; [|by intros [= <-]].
    destruct (Column.isThinking t); [by intros [= <-]|discriminate].
Qed.

Lemma startSession_keeps (st st' : App.t) (landingInput uuid1 uuid2 : string)
    (now1 now2 : Z) (d : option Deferred.t) :
  startSession st landingInput uuid1 uuid2 now1 now2 = Normal (st', d) →
  shape (App.columns st') = shape (App.columns st) ∧ App.scale st' = App.scale st.
Proof.
  unfold startSession. destruct (negb _); [by intros [= <- _]|].
  destruct (App.columns st) as [|c0 rest] eqn:Hcols; [discriminate|].
  intros [= <- _]. cbn [App.columns App.scale setColumns setPan setHasStarted].
  split; [|reflexivity]. rewrite Hcols.
  set (userMsg := Message.mk uuid1 user landingInput now1).
  etrans;
    [exact (apply_op_shape (addMessageToColumn (Column.id c0) userMsg (c0 :: rest))
              (SetThinking (Column.id c0) true))|].
  exact (apply_op_shape (c0 :: rest) (AddMessage (Column.id c0) userMsg)).
Qed.

(** Closing a column that the nodes layer offers to close completes. *)
Lemma handleCloseColumn_completes (st : App.t) (col : Column.t) :
  well_formed (App.columns st) → col ∈ App.columns st →
  onClose_offered col = true →
  ∃ st', ∀ fuel, (length (App.columns st) ≤ fuel)%nat →
    handleCloseColumn fuel st (Column.id col) = Some (Normal st').
Proof.
  intros (Hnd & Hpe & Hac) Hcol Hoffer.
  pose proof (find_col_NoDup _ col Hnd Hcol) as Hfind.
  destruct (well_formed_reaches_root _ Hnd (Column.id col) Hpe Hac (in_ids _ _ Hcol))
    as [d Hd].
  destruct (getDescendants_total (App.columns st) Hnd (length (App.columns st))
              (Column.id col) d Hd) as [desc Hdesc]; [lia|].
  unfold onClose_offered, truthy_opt in Hoffer.
  destruct (Column.parentId col) as [p|] eqn:Hp; [|discriminate].
  exists (match handleCloseColumn (length (App.columns st)) st (Column.id col) with
          | Some (Normal s) => s
          | _ => st
          end).
  intros fuel Hfuel. unfold handleCloseColumn.
  rewrite (getDescendants_mono _ _ fuel _ _ Hfuel Hdesc), Hdesc.
  cbn [mbind option_bind]. rewrite Hfind, Hp, Hoffer.
  destruct (bool_decide _); reflexivity.
Qed.

Lemma ui_step_invariant (st st' : App.t) :
  ui_step st st' →
  well_formed (App.columns st) ∧ root_first (App.columns st) ∧
  (0.1 <= App.scale st <= 3)%Q →
  well_formed (App.columns st') ∧ root_first (App.columns st') ∧
  (0.1 <= App.scale st' <= 3)%Q.
Proof.
  intros Hstep (Hwf & Hroot & Hscale).
  assert (Hshape : ∀ s, shape (App.columns s) = shape (App.columns st) →
                        App.scale s = App.scale st →
                        well_formed (App.columns s) ∧ root_first (App.columns s) ∧
                        (0.1 <= App.scale s <= 3)%Q).
  { intros s Hs Hsc. split; [by eapply well_formed_shape|].
    split; [by eapply root_first_shape|]. by rewrite Hsc. }
  destruct Hstep as [st landingInput uuid1 uuid2 now1 now2 st' d Hstart
                    |st st' Hreset
                    |st input
                    |st col Hcol
                    |st uuid1 uuid2 now1 now2 st' d Hsubmit
                    |st col newColId mid text custom Hcol Hfresh
                    |st col fuel st' Hcol Hoffer Hclose
                    |st op
                    |st id height
                    |st layout viewport nodeId
                    |st ev].
  - apply Hshape; by eapply startSession_keeps.
  - destruct Hroot as (c0 & rest & Hcols & Hp). unfold resetClick in Hreset.
    rewrite Hcols in Hreset. injection Hreset as <-.
    cbn [App.columns App.scale setGlobalInput setColumns setHasStarted].
    split; [by apply singleton_well_formed|].
    split; [by exists c0, []|exact Hscale].
  - by apply Hshape.
  - by apply Hshape.
  - apply Hshape; by eapply handleGlobalSubmit_keeps.
  - cbn [fst handleBranch App.columns App.scale setColumns setSelectedColumnId].
    split; [|split; [|exact Hscale]].
    + apply snoc_well_formed; [exact Hwf|exact Hfresh|].
      intros p [= <-]. by apply in_ids.
    + destruct Hroot as (c0 & rest & -> & Hp). eexists c0, _.
      split; [reflexivity|exact Hp].
  - destruct Hwf as (Hnd & Hpe & Hac).
    destruct (handleCloseColumn_Normal _ _ _ _ Hclose)
      as (desc & Hdesc & Hcols & _).
    set (D := (list_to_set desc : gset string)) in *.
    assert (HD : ∀ k, k ∈ D ↔ in_subtree (App.columns st) (Column.id col) k).
    { intros k. unfold D. rewrite elem_of_list_to_set.
      exact (getDescendants_sound _ Hnd fuel _ desc Hdesc k). }
    assert (Hclosed : ∀ c p, c ∈ App.columns st → Column.parentId c = Some p →
                             p ∈ D → Column.id c ∈ D).
    { intros c p Hc Hp HpD. apply HD. apply HD in HpD as [e He]. exists (S e).
      cbn [ancestor_at]. by rewrite (find_col_NoDup _ c Hnd Hc), Hp. }
    split; [rewrite Hcols; by apply kept_well_formed|].
    split.
    + destruct Hroot as (c0 & rest & Hst & Hp). rewrite Hcols, Hst.
      assert (Hc0 : c0 ∈ App.columns st) by (rewrite Hst; apply list_elem_of_here).
      rewrite filter_cons_True; [by eexists _, _|].
      intros HcD. apply HD in HcD as [[|e] He].
      * cbn in He. injection He as He.
        pose proof (find_col_NoDup _ c0 Hnd Hc0) as H0.
        pose proof (find_col_NoDup _ col Hnd Hcol) as H1.
        rewrite He, H1 in H0. injection H0 as ->.
        unfold onClose_offered in Hoffer. by rewrite Hp in Hoffer.
      * cbn [ancestor_at] in He.
        rewrite (find_col_NoDup _ c0 Hnd Hc0), Hp in He. discriminate.
    + unfold handleCloseColumn in Hclose. rewrite Hdesc in Hclose.
      cbn [mbind option_bind] in Hclose.
      destruct (bool_decide _);
        [destruct (find_col _ _) as [c|];
         [destruct (Column.parentId c) as [p|]; [destruct (truthy p)|]|];
         try (destruct (App.columns st); [discriminate|])|];
        injection Hclose as <-; exact Hscale.
  - apply Hshape; [apply apply_op_shape|reflexivity].
  - by apply Hshape.
  - destruct (focusNode_keeps st layout viewport nodeId) as [Hc Hs].
    apply Hshape; [by rewrite Hc|exact Hs].
  - split; [by rewrite viewport_step_columns|].
    split; [by rewrite viewport_step_columns|by apply viewport_step_scale].
Qed.

(** X21: the invariant of the running application.  From the first render
    on, through every sequence of events - start, reset, typing, selecting,
    submitting, branching under a fresh id, closing a column that offers it,
    stream and timer callbacks, height reports, focus, pointer, wheel and
    zoom events - the column list is a forest with unique ids whose first
    column is a root, and the zoom factor is in [0.1, 3].  Hence in every
    such state the layout is computed and every column is rendered,
    [startSession] finds its root, and closing an offered column
    completes. *)
Theorem reachable_invariant (st : App.t) :
  reachable st →
  let columns := App.columns st in
  well_formed columns ∧ root_first columns ∧ (0.1 <= App.scale st <= 3)%Q ∧
  (∃ layout,
     (∀ fuel, (length columns ≤ fuel)%nat →
        calculateLayout fuel columns (App.nodeHeights st) = Some layout) ∧
     renderedColumns columns layout = columns) ∧
  (∀ landingInput uuid1 uuid2 now1 now2,
     startSession st landingInput uuid1 uuid2 now1 now2 ≠ TypeError) ∧
  (∀ col, col ∈ columns → onClose_offered col = true →
     ∃ st', ∀ fuel, (length columns ≤ fuel)%nat →
       handleCloseColumn fuel st (Column.id col) = Some (Normal st')).
Proof.
  intros Hreach. cbv zeta.
  assert (Hinv : well_formed (App.columns st) ∧ root_first (App.columns st) ∧
                 (0.1 <= App.scale st <= 3)%Q).
  { induction Hreach as [rootId|st st' _ IH Hstep].
    - cbn [initial App.columns App.scale].
      split; [by apply singleton_well_formed|].
      split; [by eexists _, _|]. split; discriminate.
    - by eapply ui_step_invariant. }
  destruct Hinv as (Hwf & Hroot & Hscale).
  split; [exact Hwf|]. split; [exact Hroot|]. split; [exact Hscale|].
  split; [|split].
  - destruct Hwf as (Hnd & Hpe & Hac).
    destruct (calculateLayout_total _ (App.nodeHeights st) Hnd
                (length (App.columns st)) (le_n _)) as (top' & layout & _ & Hcalc).
    pose proof (calculateLayout_frame _ _ Hnd _ layout Hcalc) as Hdom.
    exists layout. split; [intros fuel Hfuel; by eapply calculateLayout_mono|].
    assert (Hall : ∀ c, c ∈ App.columns st → is_Some (layout !! Column.id c)).
    { intros c Hc. apply Hdom.
      apply (well_formed_reaches_root _ Hnd); auto. by apply in_ids. }
    unfold renderedColumns. clear -Hall.
    induction (App.columns st) as [|c cs IH]; [reflexivity|].
    rewrite filter_cons_True by (apply Hall, elem_of_cons; by left).
    f_equal. apply IH. intros c' Hc'. apply Hall, elem_of_cons. by right.
  - intros landingInput uuid1 uuid2 now1 now2. unfold startSession.
    destruct Hroot as (c0 & rest & -> & _). by destruct (negb _).
  - intros col Hcol Hoffer. by apply handleCloseColumn_completes.
Qed.

Lemma reachable_invariant_witness :
  let st := fst (handleBranch (initial "r") "b" "r" "m1" "solar sails" None) in
  well_formed (App.columns st) ∧ root_first (App.columns st).
Proof.
  destruct (reachable_invariant
              (fst (handleBranch (initial "r") "b" "r" "m1" "solar sails" None)))
    as (Hwf & Hroot & _).
  - apply (reachable_step (initial "r")); [apply reachable_initial|].
    apply (step_branch (initial "r")
             (Column.mk "r" "Root" None None None [] EmptyString false false)).
    + apply list_elem_of_here.
    + apply (bool_decide_unpack _). vm_compute. exact I.
  - split; [exact Hwf|exact Hroot].
Defined.

(** ** Reset *)

Lemma find_col_absent (columns : list Column.t) (k : string) :
  k ∉ ids columns → find_col k columns = None.
Proof.
  intros Hk. destruct (find_col k columns) as [c|] eqn:Hc; [|reflexivity].
  exfalso. apply Hk. apply find_col_Some in Hc as [Hc <-]. by apply in_ids.
Qed.

Lemma foldl_apply_op_shape (ops : list StoreOp) (columns : list Column.t) :
  shape (foldl apply_op columns ops) = shape columns.
Proof.
  revert columns. induction ops as [|op ops IH]; intros columns; [reflexivity|].
  cbn [foldl]. rewrite IH. apply apply_op_shape.
Qed.

(** X22: Reset keeps the first column, with its messages, and nothing else
    of the tree, and goes back to the landing view with an empty input; the
    selection, the heights, the offsets, the pan and the scale stay.  So
    when another column than the first was selected, the selection names no
    column afterwards, and after the next [startSession] every submission is
    dropped without any change, whatever is typed and whatever the stream of
    the session does. *)
Theorem resetClick_keeps_selection (st st1 : App.t) :
  resetClick st = Some st1 →
  ∃ c0 rest,
    App.columns st = c0 :: rest ∧
    App.columns st1 = [c0] ∧
    App.hasStarted st1 = false ∧
    App.globalInput st1 = EmptyString ∧
    (App.selectedColumnId st1, App.nodeHeights st1, App.nodeOffsets st1,
     App.pan st1, App.scale st1)
    = (App.selectedColumnId st, App.nodeHeights st, App.nodeOffsets st,
       App.pan st, App.scale st) ∧
    (App.selectedColumnId st ≠ Column.id c0 →
     (App.selectedColumnId st1 ∉ ids (App.columns st1)) ∧
     ∀ landingInput uuid1 uuid2 now1 now2 st2 d ops input uuid3 uuid4 now3 now4,
       startSession st1 landingInput uuid1 uuid2 now1 now2 = Normal (st2, d) →
       let st3 := setGlobalInput
                    (setColumns st2 (foldl apply_op (App.columns st2) ops)) input in
       handleGlobalSubmit st3 uuid3 uuid4 now3 now4 = (st3, None)).
Proof.
  unfold resetClick. destruct (App.columns st) as [|c0 rest] eqn:Hcols; [discriminate|].
  intros [= <-]. exists c0, rest.
  cbn [App.columns App.hasStarted App.globalInput App.selectedColumnId
       App.nodeHeights App.nodeOffsets App.pan App.scale
       setGlobalInput setColumns setHasStarted].
  do 5 (split; [reflexivity|]). intros Hsel. split.
  { cbn. intros Hin. apply list_elem_of_singleton in Hin. contradiction. }
  intros landingInput uuid1 uuid2 now1 now2 st2 d ops input uuid3 uuid4 now3 now4
    Hstart.
  set (st3 := setGlobalInput _ input).
  assert (Hsel2 : App.selectedColumnId st2 = App.selectedColumnId st).
  { unfold startSession in Hstart. destruct (negb _); [by injection Hstart as <- _|].
    cbn [App.columns setGlobalInput setColumns setHasStarted] in Hstart.
    by injection Hstart as <- _. }
  pose proof (startSession_keeps _ _ _ _ _ _ _ _ Hstart) as [Hshape _].
  cbn [App.columns setGlobalInput setColumns setHasStarted] in Hshape.
  assert (Hfind : find_col (App.selectedColumnId st3) (App.columns st3) = None).
  { apply find_col_absent. subst st3.
    cbn [App.columns App.selectedColumnId setGlobalInput setColumns].
    rewrite shape_ids, foldl_apply_op_shape, Hshape, Hsel2. cbn.
    intros Hin. apply list_elem_of_singleton in Hin. contradiction. }
  unfold handleGlobalSubmit. destruct (_ || _); [reflexivity|]. by rewrite Hfind.
Qed.

Lemma resetClick_keeps_selection_witness :
  ∃ st1, resetClick Sample.state = Some st1 ∧
         App.selectedColumnId st1 ∉ ids (App.columns st1).
Proof.
  destruct (resetClick Sample.state) as [st1|] eqn:Hreset; [|discriminate Hreset].
  exists st1. split; [reflexivity|].
  destruct (resetClick_keeps_selection Sample.state st1 Hreset)
    as (c0 & rest & Hcols & _ & _ & _ & _ & Hdangling).
  apply Hdangling. injection Hcols as <- _. discriminate.
Defined.

(** ** Connector lines *)

Lemma calculateLayout_places
    (columns : list Column.t) (nodeHeights : gmap string Q) (fuel : nat)
    (layout : gmap string Pos.t) :
  NoDup (ids columns) → measured nodeHeights → (length columns ≤ fuel)%nat →
  calculateLayout fuel columns nodeHeights = Some layout →
  ∀ k d, reaches_root columns k d →
    ∃ p, layout !! k = Some p ∧ Pos.x p == column_x d ∧
         Pos.height p = height_of nodeHeights k ∧ (0 <= rect_top p)%Q.
Proof.
  intros Hnd Hm Hfuel Hcalc.
  destruct (calculateLayout_total columns nodeHeights Hnd fuel Hfuel)
    as (top' & layout' & Hstack & Hcalc').
  assert (layout' = layout) as -> by congruence.
  pose proof (calculateLayout_placed columns nodeHeights Hnd Hm _ top' layout Hstack)
    as (P & _).
  intros k d (r & c & Hr & Hc & Hp). apply find_col_Some in Hc as [Hin <-].
  destruct (P (Column.id c) k d) as (p & Hk & Hx & Hh & Ht & _); [|exact Hr|].
  - apply in_ids. apply list_elem_of_filter. auto.
  - exists p. split; [exact Hk|]. split; [rewrite Hx; ring|]. auto.
Qed.

Lemma omap_filter_Forall2 {A B} (f : A → option B) (l : list A) :
  Forall2 (λ a b, a ∈ l ∧ f a = Some b) (filter (λ a, is_Some (f a)) l) (omap f l).
Proof.
  induction l as [|a l IH]; [constructor|].
  assert (IH' : Forall2 (λ x b, x ∈ a :: l ∧ f x = Some b)
                  (filter (λ x, is_Some (f x)) l) (omap f l)).
  { eapply Forall2_impl; [exact IH|]. intros x b [Hx Hb].
    split; [apply elem_of_cons; by right|exact Hb]. }
  cbn [omap list_omap]. destruct (f a) as [b|] eqn:Hfa.
  - rewrite filter_cons_True by (rewrite Hfa; by eexists).
    constructor; [|exact IH']. split; [apply list_elem_of_here|exact Hfa].
  - rewrite filter_cons_False; [exact IH'|]. rewrite Hfa. by intros [? ?].
Qed.

(** X23: every branch gets its connector.  On a well-formed store whose
    ids are non-empty, with the computed layout, [calculateLines] yields one
    line per column that has a parent, in the order of the columns, and
    none for a root.  Each line ends at the left edge, vertical centre, of
    its column, moved by the entry the offset map holds for the column
    (not moved when it holds none); without a measured source element
    it starts at the right edge of the parent, so that it spans the gap of
    150 between the two columns, corrected by the difference of the manual
    offsets; and the Bezier control points are symmetric and coincide when
    the line runs left to right. *)
Theorem calculateLines_connectors
    (columns : list Column.t) (nodeHeights : gmap string Q)
    (nodeOffsets : gmap string Vec.t) (scale : Q)
    (contentRect : option (Q * Q)) (sourceVisual : string → option (Q * Q))
    (layout : gmap string Pos.t) :
  well_formed columns →
  Forall (λ c, truthy (Column.id c) = true) columns →
  measured nodeHeights →
  columns ≠ [] →
  calculateLayout (length columns) columns nodeHeights = Some layout →
  ∃ lines,
    calculateLines layout columns nodeOffsets scale contentRect sourceVisual
    = Some lines ∧
    Forall2
      (λ col line,
         ConnectorLine.id line = Column.id col ∧
         ∃ parentId pos parentPos cp1X cp2X,
           Column.parentId col = Some parentId ∧
           layout !! Column.id col = Some pos ∧
           layout !! parentId = Some parentPos ∧
           let manual id := match nodeOffsets !! id with
                            | Some offset => offset
                            | None => Vec.mk 0 0
                            end in
           let childOffset := manual (Column.id col) in
           let parentOffset := manual parentId in
           let startX := ConnectorLine.startX line in
           let startY := ConnectorLine.startY line in
           let endX := ConnectorLine.endX line in
           let endY := ConnectorLine.endY line in
           (endX == Pos.x pos + Vec.x childOffset ∧
            endY == Pos.y pos + Vec.y childOffset ∧
            (contentRect = None ∨ sourceVisual (Column.id col) = None →
             startX == Pos.x parentPos + Vec.x parentOffset + NODE_WIDTH ∧
             endX - startX == NODE_GAP_X + Vec.x childOffset - Vec.x parentOffset) ∧
            ConnectorLine.path line
            = ((startX, startY), (cp1X, startY), (cp2X, endY), (endX, endY)) ∧
            cp1X - startX == endX - cp2X ∧
            (startX <= endX → cp1X == cp2X))%Q)
      (filter (λ c, is_Some (Column.parentId c)) columns) lines.
Proof.
  intros Hwf Hids Hm Hne Hcalc.
  pose proof Hwf as (Hnd & Hpe & Hac).
  pose proof (calculateLayout_places columns nodeHeights _ layout Hnd Hm (le_n _) Hcalc)
    as Hplace.
  assert (Hdepth : ∀ c, c ∈ columns → ∃ d, reaches_root columns (Column.id c) d).
  { intros c Hc. apply (well_formed_reaches_root columns Hnd); auto. by apply in_ids. }
  assert (Hsize : (size layout =? 0)%nat = false).
  { destruct columns as [|c0 rest]; [done|].
    destruct (Hdepth c0 (list_elem_of_here _ _)) as [d Hd].
    destruct (Hplace _ _ Hd) as (p & Hp & _).
    apply Nat.eqb_neq. intros Hz. apply map_size_empty_iff in Hz.
    rewrite Hz, lookup_empty in Hp. discriminate. }
  unfold calculateLines. rewrite Hsize. eexists. split; [reflexivity|].
  match goal with |- Forall2 _ _ (omap ?f columns) => set (line_of := f) end.
  assert (Hfilter : filter (λ c, is_Some (Column.parentId c)) columns
                    = filter (λ c, is_Some (line_of c)) columns).
  { apply filter_ext_elem. intros c Hc. unfold line_of.
    destruct (Column.parentId c) as [p|] eqn:Hp.
    2:{ split; intros [? ?]; discriminate. }
    pose proof (Hpe c p Hc Hp) as Hpin. unfold ids in Hpin.
    apply list_elem_of_fmap in Hpin as (pc & -> & Hpc).
    rewrite (proj1 (Forall_forall _ _) Hids pc Hpc).
    destruct (Hdepth c Hc) as [d Hd]. destruct (Hplace _ _ Hd) as (pos & -> & _).
    destruct (Hdepth pc Hpc) as [dp Hdp]. destruct (Hplace _ _ Hdp) as (ppos & -> & _).
    split; intros _; [|by eexists].
    destruct contentRect as [[cl ct]|]; [destruct (sourceVisual _) as [[vt vr]|]|];
      by eexists. }
  rewrite Hfilter.
  eapply Forall2_impl; [apply omap_filter_Forall2|].
  intros c line [Hc Hline]. unfold line_of in Hline.
  destruct (Column.parentId c) as [p|] eqn:Hp; [|discriminate].
  destruct (truthy p); [|discriminate].
  destruct (layout !! Column.id c) as [pos|] eqn:Hpos; [|discriminate].
  destruct (layout !! p) as [ppos|] eqn:Hppos; [|discriminate].
  assert (Hx : Pos.x pos == (Pos.x ppos + NODE_WIDTH + NODE_GAP_X)%Q).
  { pose proof (Hpe c p Hc Hp) as Hpin. unfold ids in Hpin.
    apply list_elem_of_fmap in Hpin as (pc & -> & Hpc).
    destruct (Hdepth pc Hpc) as [dp Hdp].
    pose proof (reaches_root_child columns Hnd c _ dp Hc Hp Hdp) as Hd.
    destruct (Hplace _ _ Hdp) as (ppos' & Hppos' & Hpx & _).
    destruct (Hplace _ _ Hd) as (pos' & Hpos' & Hcx & _).
    assert (ppos' = ppos) as -> by congruence.
    assert (pos' = pos) as -> by congruence.
    rewrite Hcx, Hpx. reflexivity. }
  assert (Hoff : ∀ k, offset_or_zero nodeOffsets k
                      = match nodeOffsets !! k with
                        | Some offset => offset | None => Vec.mk 0 0 end).
  { intros k. unfold offset_or_zero. by destruct (nodeOffsets !! k). }
  rewrite !Hoff in Hline. clear Hoff.
  set (co := match nodeOffsets !! Column.id c with
             | Some offset => offset | None => Vec.mk 0 0 end) in *.
  set (po := match nodeOffsets !! p with
             | Some offset => offset | None => Vec.mk 0 0 end) in *.
  assert (Hbezier : ∀ sx ex : Q,
            ((sx + Qabs (ex - sx) * 0.5) - sx == ex - (ex - Qabs (ex - sx) * 0.5) ∧
             (sx <= ex → sx + Qabs (ex - sx) * 0.5 == ex - Qabs (ex - sx) * 0.5))%Q).
  { intros sx ex. split; [ring|]. intros Hle.
    rewrite (Qabs_pos (ex - sx)) by lra. field. }
  destruct contentRect as [[cl ct]|];
    [destruct (sourceVisual (Column.id c)) as [[vt vr]|] eqn:Hsv|];
    apply (inj Some) in Hline; rewrite <- Hline;
    cbv beta iota delta [ConnectorLine.id ConnectorLine.path ConnectorLine.startX
      ConnectorLine.startY ConnectorLine.endX ConnectorLine.endY];
    (split; [reflexivity|]);
    eexists p, pos, ppos, _, _;
    (split; [reflexivity|]); (split; [reflexivity|]); (split; [exact Hppos|]);
    cbv beta zeta;
    (split; [reflexivity|]); (split; [reflexivity|]);
    (split; [|split; [reflexivity|apply Hbezier]]).
  - intros [?|?]; discriminate.
  - intros _. split; [reflexivity|]. subst co po. lra.
  - intros _. split; [reflexivity|]. subst co po. lra.
Qed.

Lemma calculateLines_connectors_witness :
  ∃ layout lines,
    calculateLayout 4 SampleLayout.columns SampleLayout.nodeHeights = Some layout ∧
    calculateLines layout SampleLayout.columns
      {["r" := Vec.mk 1 2; "a" := Vec.mk 5 7]} 2 None (λ _, None) = Some lines ∧
    Forall2
      (λ line e,
         ConnectorLine.id line = e.1.1.1 ∧
         (ConnectorLine.startX line == e.1.1.2 ∧
          ConnectorLine.endX line == e.1.2 ∧
          ConnectorLine.endY line == e.2)%Q)
      lines
      [("a", 451, 605, 57); ("b", 451, 600, 550); ("a1", 1055, 1200, 200)]%Q.
Proof.
  destruct (calculateLayout 4 SampleLayout.columns SampleLayout.nodeHeights)
    as [layout|] eqn:Hcalc; [|discriminate Hcalc].
  destruct (calculateLines_connectors SampleLayout.columns SampleLayout.nodeHeights
              {["r" := Vec.mk 1 2; "a" := Vec.mk 5 7]} 2 None (λ _, None) layout)
    as (lines & Hlines & Hall).
  - split; [exact sample_unique_ids|].
    split; [exact sample_parents_exist|exact sample_acyclic].
  - repeat constructor.
  - exact sample_measured.
  - discriminate.
  - exact Hcalc.
  - exists layout, lines. split; [reflexivity|]. split; [exact Hlines|].
    clear Hlines.
    assert (Hf : filter (λ c, is_Some (Column.parentId c)) SampleLayout.columns
                 = [SampleLayout.col "a" (Some "r"); SampleLayout.col "b" (Some "r");
                    SampleLayout.col "a1" (Some "a")]) by reflexivity.
    rewrite Hf in Hall. clear Hf.
    vm_compute in Hcalc. injection Hcalc as <-.
    repeat match goal with
           | H : Forall2 _ (_ :: _) _ |- _ =>
               apply Forall2_cons_inv_l in H as (? & ? & ? & H & ->)
           | H : Forall2 _ [] _ |- _ => apply Forall2_nil_inv_l in H as ->
           end.
    repeat match goal with
           | H : ConnectorLine.id _ = _ ∧ _ |- _ =>
               let Hid := fresh "Hid" in
               let Hpar := fresh "Hpar" in
               let Hpos := fresh "Hpos" in
               let Hppos := fresh "Hppos" in
               let Hex := fresh "Hex" in
               let Hey := fresh "Hey" in
               let Hst := fresh "Hst" in
               let Hsx := fresh "Hsx" in
               cbv zeta beta in H;
               destruct H as (Hid & ? & ? & ? & ? & ? & Hpar & Hpos & Hppos
                              & Hex & Hey & Hst & _);
               cbn in Hpar; injection Hpar as <-;
               vm_compute in Hpos; injection Hpos as <-;
               vm_compute in Hppos; injection Hppos as <-;
               destruct (Hst (or_introl eq_refl)) as [Hsx _]; clear Hst
           end.
    repeat constructor; cbn [fst snd]; try assumption;
      match goal with
      | H : (?a == _)%Q |- (?a == _)%Q => rewrite H; vm_compute; reflexivity
      end.
Defined.

(** ** Highlighting the fork spans *)

Lemma substring_split (s : string) (a n m : nat) :
  substring a n s +:+ substring (a + n) m s = substring a (n + m) s.
Proof.
  revert s n. induction a as [|a IHa]; intros s n.
  - revert s. induction n as [|n IHn]; intros s.
    + cbn [Nat.add]. by destruct s.
    + destruct s as [|c s]; [by destruct m|].
      cbn [Nat.add substring]. rewrite string_app_cons. f_equal. apply IHn.
  - destruct s as [|c s]; [by destruct n, m|].
    cbn [Nat.add substring]. apply IHa.
Qed.

Lemma substring_all (s : string) : substring 0 (String.length s) s = s.
Proof. induction s as [|c s IH]; [reflexivity|]. cbn. by rewrite IH. Qed.

Lemma substring_length (s : string) (a n : nat) :
  String.length (substring a n s) = Nat.min n (String.length s - a).
Proof.
  revert s n. induction a as [|a IHa]; intros s n.
  - revert s. induction n as [|n IHn]; intros s; destruct s as [|c s]; cbn; try reflexivity.
    rewrite IHn. f_equal. f_equal. lia.
  - destruct s as [|c s]; [by destruct n|]. cbn. apply IHa.
Qed.

Lemma slice_split (text : string) (a b c : nat) :
  (a ≤ b)%nat → (b ≤ c)%nat → slice text a b +:+ slice text b c = slice text a c.
Proof.
  intros Hab Hbc. unfold slice.
  replace b with (a + (b - a))%nat at 2 by lia.
  rewrite substring_split. f_equal. lia.
Qed.

Lemma index_ge (n m : nat) (s1 s2 : string) :
  String.index n s1 s2 = Some m → (n ≤ m)%nat.
Proof.
  revert n m. induction s2 as [|c s2 IH]; intros n m.
  - cbn. destruct n; [|discriminate]. destruct s1; [|discriminate]. intros [= <-]. lia.
  - cbn [String.index]. destruct n as [|n]; [lia|].
    destruct (String.index n s1 s2) as [k|] eqn:Hk; [|discriminate].
    intros [= <-]. apply IH in Hk. lia.
Qed.

Lemma pairwise_apart_snoc (ms : list Match.t) (m : Match.t) :
  pairwise_apart ms → Forall (λ x, apart x m) ms → pairwise_apart (ms ++ [m]).
Proof.
  induction ms as [|x ms IH]; intros Hpw Hm; [by split|].
  destruct Hpw as [Hx Hpw]. apply Forall_cons in Hm as [Hxm Hm].
  cbn [app pairwise_apart]. split; [|by apply IH].
  apply Forall_app. split; [exact Hx|by constructor].
Qed.

Lemma occurrence_bounds (text : string) (snips : list (string * string)) (m : Match.t) :
  occurrence text snips m →
  (Match.start m < Match.end_ m ∧ Match.end_ m ≤ String.length text)%nat.
Proof.
  intros (snippet & _ & Hpos & Hend & Hsub).
  apply (f_equal String.length) in Hsub. rewrite substring_length in Hsub. lia.
Qed.

(** For a match no longer than the recorded ones the test of the loop is
    exact: it fails only when the new match is apart from all of them. *)
Lemma isOverlapping_false (idx len : nat) (ms : list Match.t) (colId : string) :
  (0 < len)%nat →
  Forall (λ m, (len ≤ Match.end_ m - Match.start m)%nat) ms →
  isOverlapping idx len ms = false →
  Forall (λ m, apart m (Match.mk idx (idx + len) colId)) ms.
Proof.
  intros Hlen Hlong Hno. unfold isOverlapping in Hno.
  induction Hlong as [|m ms Hm _ IH]; [constructor|].
  cbn [existsb] in Hno. apply orb_false_iff in Hno as [Hm' Hno].
  constructor; [|by apply IH].
  unfold apart. cbn [Match.start Match.end_].
  apply orb_false_iff in Hm' as [H1 H2].
  apply andb_false_iff in H1. apply andb_false_iff in H2.
  rewrite Nat.leb_gt, Nat.ltb_ge in H1. rewrite Nat.ltb_ge, Nat.leb_gt in H2. lia.
Qed.

Lemma scan_ok (text snippet colId : string) (snips : list (string * string)) :
  (0 < String.length snippet)%nat → (colId, snippet) ∈ snips →
  ∀ fuel idx ms,
    matches_ok text snips ms →
    Forall (λ m, (String.length snippet ≤ Match.end_ m - Match.start m)%nat) ms →
    (∀ i, idx = Some i →
       substring i (String.length snippet) text = snippet ∧
       (String.length text < i + fuel)%nat) →
    ∃ ms', scan fuel text snippet colId idx ms = Some ms' ∧
           matches_ok text snips ms' ∧
           Forall (λ m, (String.length snippet ≤ Match.end_ m - Match.start m)%nat) ms'.
Proof.
  intros Hpos Hin. induction fuel as [|fuel IH]; intros idx ms Hok Hlong Hidx.
  - destruct idx as [i|]; [|by exists ms].
    destruct (Hidx i eq_refl) as [Hsub Hfuel].
    apply (f_equal String.length) in Hsub. rewrite substring_length in Hsub. lia.
  - destruct idx as [i|]; [|by exists ms]. cbn [scan].
    destruct (Hidx i eq_refl) as [Hsub Hfuel].
    apply IH.
    + destruct (isOverlapping i (String.length snippet) ms) eqn:Hov; [exact Hok|].
      destruct Hok as [Hpw Hocc]. split.
      * apply pairwise_apart_snoc; [exact Hpw|]. by apply isOverlapping_false.
      * apply Forall_app. split; [exact Hocc|]. constructor; [|constructor].
        exists snippet. cbn [Match.start Match.end_ Match.colId]. auto.
    + destruct (isOverlapping i (String.length snippet) ms); [exact Hlong|].
      apply Forall_app. split; [exact Hlong|]. constructor; [|constructor].
      cbn [Match.start Match.end_]. lia.
    + intros i' Hi'. unfold indexOf in Hi'. split.
      * by apply index_correct1 in Hi'.
      * apply index_ge in Hi'. lia.
Qed.

Lemma scan_mono (text snippet colId : string) (fuel fuel' : nat) :
  (fuel ≤ fuel')%nat →
  ∀ idx ms r, scan fuel text snippet colId idx ms = Some r →
              scan fuel' text snippet colId idx ms = Some r.
Proof.
  revert fuel'. induction fuel as [|fuel IH]; intros fuel' Hle idx ms r Hr.
  - destruct idx; [discriminate|]. by destruct fuel'.
  - destruct fuel' as [|fuel']; [lia|]. destruct idx as [i|]; [|exact Hr].
    cbn [scan] in Hr |- *. apply IH; [lia|exact Hr].
Qed.

Lemma collect_as_snippets (fuel : nat) (text : string) (childColumns : list Column.t) :
  collect fuel text childColumns
  = collect_snippets fuel text (snippets childColumns) (Some []).
Proof.
  unfold collect, collect_snippets, snippets. generalize (Some (@nil Match.t)).
  induction childColumns as [|col cols IH]; intros acc; [reflexivity|].
  cbn [foldl omap list_omap].
  destruct (effective_snippet col) as [s|]; cbn [fmap option_fmap option_map].
  - cbn [foldl]. rewrite IH. reflexivity.
  - rewrite IH. f_equal. by destruct acc.
Qed.

Lemma snippets_elem (childColumns : list Column.t) (colId snippet : string) :
  (colId, snippet) ∈ snippets childColumns →
  ∃ col, col ∈ childColumns ∧ Column.id col = colId ∧
         effective_snippet col = Some snippet.
Proof.
  unfold snippets. intros Hin. apply list_elem_of_omap in Hin as (col & Hcol & Heq).
  destruct (effective_snippet col) as [s|] eqn:Hs; [|discriminate].
  cbn in Heq. injection Heq as <- <-. eauto.
Qed.

Lemma effective_snippet_nonempty (col : Column.t) (snippet : string) :
  effective_snippet col = Some snippet → (0 < String.length snippet)%nat.
Proof.
  unfold effective_snippet. destruct (Column.contextSnippet col) as [s|]; [|discriminate].
  destruct (truthy s); [|discriminate]. cbv zeta.
  destruct (trim s) as [|c t] eqn:Ht; [discriminate|].
  intros [= <-]. cbn. lia.
Qed.

Lemma collect_snippets_ok (text : string) (all : list (string * string)) (fuel : nat) :
  (String.length text < fuel)%nat →
  ∀ snips ms,
    (∀ cs, cs ∈ snips → cs ∈ all ∧ (0 < String.length (snd cs))%nat) →
    longest_first snips →
    matches_ok text all ms →
    Forall (λ m, Forall (λ cs, (String.length (snd cs)
                                ≤ Match.end_ m - Match.start m)%nat) snips) ms →
    ∃ ms', collect_snippets fuel text snips (Some ms) = Some ms' ∧
           matches_ok text all ms'.
Proof.
  intros Hfuel. induction snips as [|[cid snip] snips IH]; intros ms Hall Hsorted Hok Hlong.
  - by exists ms.
  - unfold collect_snippets. cbn [foldl mbind option_bind fst snd].
    destruct Hsorted as [Hhd Hsorted].
    destruct (Hall (cid, snip)) as [Hin Hpos]; [apply list_elem_of_here|].
    cbn [snd] in Hpos.
    destruct (scan_ok text snip cid all Hpos Hin fuel (indexOf text snip 0) ms Hok)
      as (ms1 & Hscan & Hok1 & Hlong1).
    + eapply Forall_impl; [exact Hlong|]. intros m Hm.
      by apply Forall_cons in Hm as [Hm _].
    + intros i Hi. unfold indexOf in Hi. split; [by apply index_correct1 in Hi|lia].
    + rewrite Hscan. apply IH; [| exact Hsorted | exact Hok1 |].
      * intros cs Hcs. apply Hall. apply elem_of_cons. by right.
      * eapply Forall_impl; [exact Hlong1|]. intros m Hm. cbv beta in Hm.
        eapply Forall_impl; [exact Hhd|]. intros cs Hcs. cbn [snd] in Hcs. lia.
Qed.

Lemma collect_snippets_None (fuel : nat) (text : string) (snips : list (string * string)) :
  collect_snippets fuel text snips None = None.
Proof. unfold collect_snippets. induction snips as [|cs snips IH]; [reflexivity|exact IH]. Qed.

Lemma collect_snippets_mono (text : string) (fuel fuel' : nat) :
  (fuel ≤ fuel')%nat →
  ∀ snips acc r, collect_snippets fuel text snips acc = Some r →
                 collect_snippets fuel' text snips acc = Some r.
Proof.
  intros Hle. induction snips as [|cs snips IH]; intros acc r Hr; [exact Hr|].
  destruct acc as [ms|]; [|by rewrite collect_snippets_None in Hr].
  unfold collect_snippets in Hr |- *. cbn [foldl mbind option_bind] in Hr |- *.
  destruct (scan fuel text (snd cs) (fst cs) _ ms) as [ms1|] eqn:Hscan.
  - rewrite (scan_mono _ _ _ fuel fuel' Hle _ _ _ Hscan). by apply IH.
  - fold (collect_snippets fuel text snips None) in Hr.
    by rewrite collect_snippets_None in Hr.
Qed.

Lemma insert_by_start_elem (m x : Match.t) (l : list Match.t) :
  x ∈ insert_by_start m l ↔ x = m ∨ x ∈ l.
Proof.
  induction l as [|y l IH]; cbn [insert_by_start].
  - rewrite list_elem_of_singleton. split; [auto|]. intros [?|H]; [done|].
    by apply elem_of_nil in H.
  - destruct (Match.start m <=? Match.start y)%nat.
    + by rewrite elem_of_cons.
    + rewrite !elem_of_cons, IH. tauto.
Qed.

Lemma insert_by_start_chain (m : Match.t) (l : list Match.t) :
  chain l → Forall (apart m) l →
  (Match.start m < Match.end_ m)%nat →
  Forall (λ x, (Match.start x < Match.end_ x)%nat) l →
  chain (insert_by_start m l).
Proof.
  induction l as [|y l IH]; intros Hch Hap Hm Hl; [by split|].
  destruct Hch as [Hy Hch]. apply Forall_cons in Hap as [Hmy Hap].
  apply Forall_cons in Hl as [Hyv Hl]. cbn [insert_by_start].
  destruct (Match.start m <=? Match.start y)%nat eqn:Hcmp.
  - apply Nat.leb_le in Hcmp. split; [|by split].
    assert (Hfirst : (Match.end_ m ≤ Match.start y)%nat) by (unfold apart in Hmy; lia).
    constructor; [exact Hfirst|].
    rewrite Forall_forall in Hy |- *. intros x Hx. specialize (Hy x Hx). lia.
  - apply Nat.leb_gt in Hcmp. split; [|by apply IH].
    apply Forall_forall. intros x Hx. apply insert_by_start_elem in Hx as [->|Hx].
    + unfold apart in Hmy. lia.
    + exact (proj1 (Forall_forall _ _) Hy x Hx).
Qed.

Lemma sort_by_start_elem (x : Match.t) (ms : list Match.t) :
  x ∈ sort_by_start ms ↔ x ∈ ms.
Proof.
  induction ms as [|m ms IH]; [reflexivity|].
  cbn [sort_by_start foldr]. fold (sort_by_start ms).
  by rewrite insert_by_start_elem, elem_of_cons, IH.
Qed.

Lemma sort_by_start_chain (ms : list Match.t) :
  pairwise_apart ms → Forall (λ x, (Match.start x < Match.end_ x)%nat) ms →
  chain (sort_by_start ms).
Proof.
  induction ms as [|m ms IH]; intros Hpw Hv; [exact I|].
  destruct Hpw as [Hm Hpw]. apply Forall_cons in Hv as [Hmv Hv].
  cbn [sort_by_start foldr]. fold (sort_by_start ms).
  apply insert_by_start_chain; [by apply IH| |exact Hmv|].
  - apply Forall_forall. intros x Hx. rewrite sort_by_start_elem in Hx.
    exact (proj1 (Forall_forall _ _) Hm x Hx).
  - apply Forall_forall. intros x Hx. rewrite sort_by_start_elem in Hx.
    exact (proj1 (Forall_forall _ _) Hv x Hx).
Qed.

Lemma rendered_app (a b : list Part) : rendered (a ++ b) = rendered a +:+ rendered b.
Proof.
  induction a as [|p a IH]; [reflexivity|].
  cbn [app rendered foldr]. fold (rendered (a ++ b)). fold (rendered a).
  by rewrite IH, string_app_assoc.
Qed.

Lemma rendered_singleton (p : Part) : rendered [p] = part_text p.
Proof. cbn. apply string_app_nil_r. Qed.

Lemma slice_empty (text : string) (a : nat) : slice text a a = EmptyString.
Proof.
  unfold slice. rewrite Nat.sub_diag. revert text.
  induction a as [|a IH]; intros [|c text]; cbn; auto.
Qed.

Lemma emit_chain (text : string) (l : list Match.t) :
  ∀ cursor parts,
    chain l →
    Forall (λ m, (cursor ≤ Match.start m ∧ Match.start m < Match.end_ m
                  ∧ Match.end_ m ≤ String.length text)%nat) l →
    (cursor ≤ String.length text)%nat →
    ∃ cursor' parts',
      foldl (emit text) (cursor, parts) l = (cursor', parts') ∧
      (cursor ≤ cursor' ∧ cursor' ≤ String.length text)%nat ∧
      rendered parts' = rendered parts +:+ slice text cursor cursor' ∧
      (∀ p, p ∈ parts' →
         p ∈ parts ∨
         (∃ a b, p = Plain (slice text a b)) ∨
         ∃ m, m ∈ l ∧
              p = Highlight (Match.colId m)
                    (slice text (Match.start m) (Match.end_ m))).
Proof.
  induction l as [|m l IH]; intros cursor parts Hch Hv Hc.
  - exists cursor, parts. split; [reflexivity|]. split; [lia|].
    split; [by rewrite slice_empty, string_app_nil_r|]. auto.
  - destruct Hch as [Hm Hch]. apply Forall_cons in Hv as [(H1 & H2 & H3) Hv].
    cbn [foldl emit].
    set (parts1 := if (cursor <? Match.start m)%nat
                   then parts ++ [Plain (slice text cursor (Match.start m))]
                   else parts).
    assert (Hr1 : rendered parts1
                  = rendered parts +:+ slice text cursor (Match.start m)).
    { subst parts1. destruct (cursor <? Match.start m)%nat eqn:Hlt.
      - by rewrite rendered_app, rendered_singleton.
      - apply Nat.ltb_ge in Hlt. assert (cursor = Match.start m) as -> by lia.
        by rewrite slice_empty, string_app_nil_r. }
    assert (Hp1 : ∀ p, p ∈ parts1 → p ∈ parts ∨ ∃ a b, p = Plain (slice text a b)).
    { subst parts1. intros p Hp. destruct (cursor <? Match.start m)%nat; [|by left].
      apply elem_of_app in Hp as [Hp|Hp]; [by left|].
      apply list_elem_of_singleton in Hp as ->. right. eauto. }
    destruct (IH (Match.end_ m)
                (parts1 ++ [Highlight (Match.colId m)
                              (slice text (Match.start m) (Match.end_ m))]))
      as (cursor' & parts' & Hfold & Hbound & Hrender & Hparts);
      [exact Hch| |exact H3|].
    { rewrite Forall_forall in Hv, Hm |- *. intros x Hx.
      specialize (Hv x Hx). specialize (Hm x Hx). lia. }
    exists cursor', parts'. split; [exact Hfold|]. split; [lia|]. split.
    + rewrite Hrender, rendered_app, rendered_singleton, Hr1. cbn [part_text].
      rewrite !string_app_assoc. f_equal.
      rewrite <- (slice_split text cursor (Match.start m) cursor') by lia.
      f_equal. apply slice_split; lia.
    + intros p Hp. destruct (Hparts p Hp) as [Hp'|[Hp'|(x & Hx & ->)]].
      * apply elem_of_app in Hp' as [Hp'|Hp'].
        -- destruct (Hp1 p Hp'); auto.
        -- apply list_elem_of_singleton in Hp' as ->. right. right.
           exists m. split; [apply list_elem_of_here|reflexivity].
      * auto.
      * right. right. exists x. split; [apply elem_of_cons; by right|reflexivity].
Qed.

Lemma scan_incl (text snippet colId : string) (fuel : nat) :
  ∀ idx ms ms', scan fuel text snippet colId idx ms = Some ms' →
    (∀ m, m ∈ ms → m ∈ ms') ∧
    (∀ i, idx = Some i → isOverlapping i (String.length snippet) ms = false →
          Match.mk i (i + String.length snippet) colId ∈ ms').
Proof.
  induction fuel as [|fuel IH]; intros idx ms ms' Hscan.
  - destruct idx; [discriminate|]. injection Hscan as <-. split; [auto|discriminate].
  - destruct idx as [i|]; [|injection Hscan as <-; split; [auto|discriminate]].
    cbn [scan] in Hscan. apply IH in Hscan as [Hincl _]. split.
    + intros m Hm. apply Hincl.
      destruct (isOverlapping i (String.length snippet) ms); [exact Hm|].
      apply elem_of_app. by left.
    + intros i' [= <-] Hov. apply Hincl. rewrite Hov.
      apply elem_of_app. right. apply list_elem_of_here.
Qed.

Lemma collect_snippets_incl (text : string) (fuel : nat) :
  ∀ snips ms ms', collect_snippets fuel text snips (Some ms) = Some ms' →
                  ∀ m, m ∈ ms → m ∈ ms'.
Proof.
  induction snips as [|cs snips IH]; intros ms ms' Hc m Hm.
  - injection Hc as <-. exact Hm.
  - unfold collect_snippets in Hc. cbn [foldl mbind option_bind] in Hc.
    destruct (scan fuel text (snd cs) (fst cs) _ ms) as [ms1|] eqn:Hscan.
    + apply (IH ms1 ms' Hc). by apply (scan_incl _ _ _ _ _ _ _ Hscan).
    + fold (collect_snippets fuel text snips None) in Hc.
      by rewrite collect_snippets_None in Hc.
Qed.

Lemma emit_highlights (text : string) (l : list Match.t) :
  ∀ cursor parts cursor' parts',
    foldl (emit text) (cursor, parts) l = (cursor', parts') →
    (∀ p, p ∈ parts → p ∈ parts') ∧
    (∀ m, m ∈ l →
       Highlight (Match.colId m) (slice text (Match.start m) (Match.end_ m))
       ∈ parts').
Proof.
  induction l as [|m l IH]; intros cursor parts cursor' parts' Hfold.
  - injection Hfold as <- <-. split; [auto|]. intros m Hm. by apply elem_of_nil in Hm.
  - cbn [foldl emit] in Hfold. apply IH in Hfold as [Hincl Hhigh]. split.
    + intros p Hp. apply Hincl. apply elem_of_app. left.
      destruct (cursor <? Match.start m)%nat; [apply elem_of_app; by left|exact Hp].
    + intros x Hx. apply elem_of_cons in Hx as [->|Hx]; [|by apply Hhigh].
      apply Hincl. apply elem_of_app. right. apply list_elem_of_here.
Qed.

Lemma processText_parts (childColumns : list Column.t) (text : string) :
  longest_first (snippets childColumns) →
  ∃ parts,
    (∀ fuel, (String.length text < fuel)%nat →
       processText fuel childColumns text = Some parts) ∧
    rendered parts = text ∧
    (∀ colId s, Highlight colId s ∈ parts →
       ∃ col, col ∈ childColumns ∧ Column.id col = colId ∧
              effective_snippet col = Some s) ∧
    (∀ colId s rest, snippets childColumns = (colId, s) :: rest →
       is_Some (indexOf text s 0) → Highlight colId s ∈ parts).
Proof.
  intros Hlongest. unfold processText.
  destruct (truthy text) eqn:Htext; cbn [negb].
  2:{ exists [Plain text]. split; [reflexivity|].
      split; [apply rendered_singleton|]. split.
      - intros colId s Hin. apply list_elem_of_singleton in Hin. discriminate.
      - intros colId s rest Hfirst [i Hi]. exfalso.
        assert (Hs : (colId, s) ∈ snippets childColumns)
          by (rewrite Hfirst; apply list_elem_of_here).
        destruct (snippets_elem _ _ _ Hs) as (col & _ & _ & Heff).
        apply effective_snippet_nonempty in Heff.
        destruct text; [|discriminate]. unfold indexOf in Hi. cbn in Hi.
        destruct s; [cbn in Heff; lia|discriminate]. }
  set (snips := snippets childColumns) in *.
  destruct (collect_snippets_ok text snips (S (String.length text)) (Nat.lt_succ_diag_r _)
              snips []) as (ms & Hcollect & Hpw & Hocc).
  { intros [cid snip] Hcs. split; [exact Hcs|].
    destruct (snippets_elem _ _ _ Hcs) as (col & _ & _ & Hs).
    by eapply effective_snippet_nonempty. }
  { exact Hlongest. }
  { split; [exact I|constructor]. }
  { constructor. }
  assert (Hfirst : ∀ colId s rest, snips = (colId, s) :: rest →
            is_Some (indexOf text s 0) →
            ∃ m, m ∈ ms ∧ Match.colId m = colId ∧
                 slice text (Match.start m) (Match.end_ m) = s).
  { intros colId s rest Hsn [i Hi]. rewrite Hsn in Hcollect.
    unfold collect_snippets in Hcollect.
    cbn [foldl mbind option_bind fst snd] in Hcollect. rewrite Hi in Hcollect.
    destruct (scan (S (String.length text)) text s colId (Some i) [])
      as [ms1|] eqn:Hscan.
    2:{ fold (collect_snippets (S (String.length text)) text rest None) in Hcollect.
        by rewrite collect_snippets_None in Hcollect. }
    destruct (scan_incl _ _ _ _ _ _ _ Hscan) as [_ Hpush].
    exists (Match.mk i (i + String.length s) colId). split; [|split; [reflexivity|]].
    - eapply collect_snippets_incl; [exact Hcollect|]. by apply Hpush.
    - cbn [Match.start Match.end_]. unfold slice.
      replace (i + String.length s - i)%nat with (String.length s) by lia.
      unfold indexOf in Hi. by apply index_correct1 in Hi. }
  assert (Hrun : ∀ fuel, (String.length text < fuel)%nat →
                         collect fuel text childColumns = Some ms).
  { intros fuel Hfuel. rewrite collect_as_snippets.
    eapply collect_snippets_mono; [|exact Hcollect]. lia. }
  destruct (length ms =? 0)%nat eqn:Hlen.
  { exists [Plain text]. split.
    - intros fuel Hfuel. rewrite (Hrun fuel Hfuel). cbn [mbind option_bind].
      by rewrite Hlen.
    - split; [apply rendered_singleton|]. split.
      + intros colId s Hin. apply list_elem_of_singleton in Hin. discriminate.
      + intros colId s rest Hsn Hi. exfalso.
        destruct (Hfirst colId s rest Hsn Hi) as (m & Hm & _).
        apply Nat.eqb_eq in Hlen. destruct ms; [by apply elem_of_nil in Hm|].
        discriminate. }
  assert (Hvalid : Forall (λ m, (Match.start m < Match.end_ m
                                 ∧ Match.end_ m ≤ String.length text)%nat) ms).
  { eapply Forall_impl; [exact Hocc|]. intros m Hm. by eapply occurrence_bounds. }
  destruct (emit_chain text (sort_by_start ms) 0 [])
    as (cursor & parts & Hfold & Hbound & Hrender & Hparts).
  { apply sort_by_start_chain; [exact Hpw|].
    eapply Forall_impl; [exact Hvalid|]. by intros m [? _]. }
  { apply Forall_forall. intros m Hm. rewrite sort_by_start_elem in Hm.
    pose proof (proj1 (Forall_forall _ _) Hvalid m Hm) as Hv. cbv beta in Hv. lia. }
  { lia. }
  exists (if (cursor <? String.length text)%nat
          then parts ++ [Plain (slice text cursor (String.length text))]
          else parts).
  split; [|split; [|split]].
  - intros fuel Hfuel. rewrite (Hrun fuel Hfuel). cbn [mbind option_bind].
    by rewrite Hlen, Hfold.
  - assert (Hall : rendered parts +:+ slice text cursor (String.length text) = text).
    { rewrite Hrender.
      change (rendered [] +:+ slice text 0 cursor) with (slice text 0 cursor).
      rewrite slice_split by lia. unfold slice. rewrite Nat.sub_0_r.
      apply substring_all. }
    destruct (cursor <? String.length text)%nat eqn:Hlt.
    + by rewrite rendered_app, rendered_singleton.
    + apply Nat.ltb_ge in Hlt. assert (cursor = String.length text) as Heq by lia.
      rewrite Heq, slice_empty, string_app_nil_r in Hall. exact Hall.
  - intros colId s Hin.
    assert (Hin' : Highlight colId s ∈ parts).
    { destruct (cursor <? String.length text)%nat; [|exact Hin].
      apply elem_of_app in Hin as [Hin|Hin]; [exact Hin|].
      apply list_elem_of_singleton in Hin. discriminate. }
    destruct (Hparts _ Hin') as [Hnil|[(a & b & Hplain)|(m & Hm & Heq)]].
    + by apply elem_of_nil in Hnil.
    + discriminate.
    + injection Heq as -> ->. rewrite sort_by_start_elem in Hm.
      destruct (proj1 (Forall_forall _ _) Hocc m Hm)
        as (snippet & Hsnip & _ & Hend & Hsub).
      destruct (snippets_elem _ _ _ Hsnip) as (col & Hcol & Hid & Heff).
      exists col. split; [exact Hcol|]. split; [exact Hid|].
      rewrite Heff. f_equal. unfold slice. rewrite Hend.
      replace (Match.start m + String.length snippet - Match.start m)%nat
        with (String.length snippet) by lia.
      by rewrite Hsub.
  - intros colId s rest Hsn Hi.
    destruct (Hfirst colId s rest Hsn Hi) as (m & Hm & <- & <-).
    destruct (emit_highlights _ _ _ _ _ _ Hfold) as [_ Hhigh].
    assert (Hin : Highlight (Match.colId m)
                    (slice text (Match.start m) (Match.end_ m)) ∈ parts)
      by (apply Hhigh; by rewrite sort_by_start_elem).
    destruct (cursor <? String.length text)%nat; [|exact Hin].
    apply elem_of_app. by left.
Qed.

(** X24: highlighting never changes the text.  When no searched snippet is
    longer than one searched before it - in particular with a single child
    column - [processText] returns, the same parts whenever the fuel exceeds
    the length of the text; the parts, read one after the other, are the
    text; every highlighted part is the trimmed snippet of the child column
    whose id it carries; and the first searched child is highlighted
    whenever its snippet occurs in the text. *)
Theorem processText_round_trip (childColumns : list Column.t) (text : string) :
  longest_first (snippets childColumns) →
  ∃ parts,
    (∀ fuel, (String.length text < fuel)%nat →
       processText fuel childColumns text = Some parts) ∧
    rendered parts = text ∧
    (∀ colId s, Highlight colId s ∈ parts →
       ∃ col, col ∈ childColumns ∧ Column.id col = colId ∧
              effective_snippet col = Some s) ∧
    (∀ colId s rest, snippets childColumns = (colId, s) :: rest →
       is_Some (indexOf text s 0) → Highlight colId s ∈ parts).
Proof.
  intros Hlongest.
  destruct (processText_parts childColumns text Hlongest)
    as (parts & Hrun & Hrendered & Hhighlight & Hfirst).
  exists parts. split; [exact Hrun|]. split; [exact Hrendered|].
  split; [exact Hhighlight|exact Hfirst].
Qed.

(** Without the condition on the lengths a later, longer snippet may
    contain an earlier match, which the overlap test lets pass; then text is
    shown twice. *)
Example processText_containment_duplicates :
  let col id snippet := Column.mk id id (Some "p") (Some "m") (Some snippet) []
                          EmptyString false false in
  ∃ parts, processText 4 [col "c1" "b"; col "c2" "abc"] "abc" = Some parts ∧
           rendered parts = "abcbc".
Proof. eexists. split; reflexivity. Qed.

Lemma processText_round_trip_witness :
  let col id snippet := Column.mk id id (Some "root") (Some "a1") (Some snippet) []
                          EmptyString false false in
  ∃ parts,
    processText 40 [col "c1" " monoid "; col "c2" "X"]
      "A monoid in the category of X."
    = Some parts ∧
    rendered parts = "A monoid in the category of X." ∧
    Highlight "c1" "monoid" ∈ parts.
Proof.
  intros col.
  destruct (processText_round_trip [col "c1" " monoid "; col "c2" "X"]
              "A monoid in the category of X.")
    as (parts & Hrun & Hrendered & _ & Hfirst).
  - split; [|split; [constructor|exact I]]. repeat constructor.
  - exists parts. split; [apply Hrun; cbn; lia|]. split; [exact Hrendered|].
    apply (Hfirst "c1" "monoid" [("c2", "X")]); [reflexivity|].
    by eexists.
Defined.

(** X25: the first branch from a message is highlighted in it.  After
    [handleBranch] on a message from which no column branched before, the
    bubble of that message gets exactly the new column as child column; and
    in every text in which the trimmed selection occurs, [processText] shows
    the text unchanged with the selection highlighted under the id of the new
    column - the anchor from which the connector of the new column starts. *)
Theorem branch_is_highlighted
    (st : App.t) (newColId sourceColumnId sourceMessageId selectedText : string)
    (customPrompt : option string) (text : string) :
  messageChildren (App.columns st) sourceColumnId sourceMessageId = [] →
  truthy (trim selectedText) = true →
  is_Some (indexOf text (trim selectedText) 0) →
  let st' := fst (handleBranch st newColId sourceColumnId sourceMessageId
                    selectedText customPrompt) in
  let childColumns := messageChildren (App.columns st') sourceColumnId sourceMessageId in
  ∃ newColumn parts,
    childColumns = [newColumn] ∧
    Column.id newColumn = newColId ∧
    (∀ fuel, (String.length text < fuel)%nat →
       processText fuel childColumns text = Some parts) ∧
    rendered parts = text ∧
    Highlight newColId (trim selectedText) ∈ parts.
Proof.
  intros Hnone Htrim Hocc st' childColumns.
  set (newColumn :=
         Column.mk newColId
           (if truthy_opt customPrompt then default EmptyString customPrompt
            else substring 0 20 selectedText +:+ "...")
           (Some sourceColumnId) (Some sourceMessageId) (Some selectedText)
           [] EmptyString false false).
  assert (Hchildren : childColumns = [newColumn]).
  { subst childColumns st'. unfold messageChildren in *.
    cbn [fst handleBranch App.columns setColumns setSelectedColumnId].
    rewrite !filter_app, Hnone. cbn [app].
    rewrite filter_cons_True by (unfold strict_eq; by apply bool_decide_eq_true_2).
    rewrite filter_nil.
    rewrite filter_cons_True by (unfold strict_eq; by apply bool_decide_eq_true_2).
    reflexivity. }
  assert (Heff : effective_snippet newColumn = Some (trim selectedText)).
  { unfold effective_snippet. cbn [Column.contextSnippet newColumn].
    assert (Hs : truthy selectedText = true).
    { destruct selectedText; [discriminate Htrim|reflexivity]. }
    by rewrite Hs, Htrim. }
  assert (Hsnips : snippets childColumns = [(newColId, trim selectedText)]).
  { rewrite Hchildren. unfold snippets. cbn [omap list_omap]. by rewrite Heff. }
  destruct (processText_parts childColumns text)
    as (parts & Hrun & Hrendered & _ & Hfirst).
  { rewrite Hsnips. split; [constructor|exact I]. }
  exists newColumn, parts. split; [exact Hchildren|]. split; [reflexivity|].
  split; [exact Hrun|]. split; [exact Hrendered|].
  by apply (Hfirst newColId (trim selectedText) []).
Qed.

Lemma branch_is_highlighted_witness :
  let st' := fst (handleBranch Sample.state "C" "B" "a3" " endofunctors " None) in
  ∃ parts,
    processText 40 (messageChildren (App.columns st') "B" "a3")
      "X is short for endofunctors."
    = Some parts ∧
    Highlight "C" "endofunctors" ∈ parts.
Proof.
  destruct (branch_is_highlighted Sample.state "C" "B" "a3" " endofunctors " None
              "X is short for endofunctors.")
    as (newColumn & parts & _ & _ & Hrun & _ & Hin).
  - reflexivity.
  - reflexivity.
  - by eexists.
  - exists parts. split; [apply Hrun; cbn; lia|exact Hin].
Defined.

(** ** The requests of a message bubble *)

Lemma string_rev_involutive (s : string) : string_rev (string_rev s) = s.
Proof.
  unfold string_rev.
  by rewrite list_ascii_of_string_of_list_ascii, rev_involutive,
    string_of_list_ascii_of_string.
Qed.

Lemma trim_start_head (s : string) :
  trim_start s = EmptyString ∨
  ∃ c r, trim_start s = String c r ∧ is_space c = false.
Proof.
  induction s as [|c s IH]; [by left|].
  cbn [trim_start]. destruct (is_space c) eqn:Hc; [exact IH|]. right. eauto.
Qed.

(** What [trim_start] removes is white space. *)
Lemma trim_start_suffix (s : string) :
  ∃ pre, list_ascii_of_string s = pre ++ list_ascii_of_string (trim_start s) ∧
         Forall (λ c, is_space c = true) pre.
Proof.
  induction s as [|c s (pre & Hpre & Hsp)]; [by exists []|].
  cbn [trim_start]. destruct (is_space c) eqn:Hc.
  - exists (c :: pre). cbn. rewrite Hpre. split; [reflexivity|by constructor].
  - by exists [].
Qed.

Lemma trim_head (s : string) :
  trim s = EmptyString ∨
  ∃ c r, trim s = String c r ∧ is_space c = false ∧
         ∃ d u, string_rev (trim s) = String d u ∧ is_space d = false.
Proof.
  unfold trim. destruct (trim_start_head s) as [->|(c & r & Ht & Hc)]; [by left|].
  right. rewrite Ht.
  set (t := String c r). set (u := trim_start (string_rev t)).
  destruct (trim_start_suffix (string_rev t)) as (pre & Hpre & Hsp). fold u in Hpre.
  assert (Hrev : list_ascii_of_string (string_rev t)
                 = rev (list_ascii_of_string r) ++ [c]).
  { unfold string_rev, t. rewrite list_ascii_of_string_of_list_ascii. reflexivity. }
  destruct (trim_start_head (string_rev t)) as [Hu|(d & u' & Hu & Hd)]; fold u in Hu.
  - exfalso. rewrite Hu, app_nil_r in Hpre. rewrite Hrev in Hpre.
    assert (Hin : c ∈ pre) by (rewrite <- Hpre; apply elem_of_app; right; apply list_elem_of_here).
    pose proof (proj1 (Forall_forall _ _) Hsp c Hin) as Hc'. cbv beta in Hc'. congruence.
  - assert (Hlast : ∃ v, list_ascii_of_string u = v ++ [c]).
    { rewrite Hrev in Hpre. rewrite Hu in Hpre |- *. cbn [list_ascii_of_string] in *.
      destruct (list_ascii_of_string u') as [|x xs] eqn:Hxs using rev_ind.
      - apply app_inj_tail in Hpre as [_ ->]. by exists [].
      - rewrite app_comm_cons, app_assoc in Hpre.
        apply app_inj_tail in Hpre as [_ ->]. exists (d :: xs). reflexivity. }
    destruct Hlast as [v Hv].
    assert (Hru : string_rev u = String c (string_of_list_ascii (rev v))).
    { unfold string_rev. rewrite Hv, rev_app_distr. reflexivity. }
    exists c, (string_of_list_ascii (rev v)). split; [exact Hru|]. split; [exact Hc|].
    rewrite string_rev_involutive. exists d, u'. auto.
Qed.

Lemma trim_idempotent (s : string) : trim (trim s) = trim s.
Proof.
  destruct (trim_head s) as [->|(c & r & Ht & Hc & d & u & Hrev & Hd)]; [reflexivity|].
  unfold trim at 1. rewrite Ht. cbn [trim_start]. rewrite Hc.
  rewrite <- Ht, Hrev. cbn [trim_start]. rewrite Hd.
  by rewrite <- Hrev, string_rev_involutive.
Qed.

Lemma bubble_selection_trimmed (b : Bubble.t) :
  bubble_reachable b →
  ∀ sel, Bubble.selection b = Some sel →
    trim (Selection.text sel) = Selection.text sel ∧
    truthy (Selection.text sel) = true.
Proof.
  induction 1 as [|b ws Hb IH|b inside Hb IH|b v Hb IH|b q Hb IH
                  |b cid m Hb IH|b cid m Hb IH]; intros sel Hsel.
  - discriminate.
  - unfold bubble_handleMouseUp in Hsel.
    destruct ws as [ws|]; [|eauto].
    destruct (WindowSelection.rangeCount ws =? 0)%nat; [eauto|].
    pose proof (trim_idempotent (WindowSelection.toString ws)) as Hidem.
    destruct (trim (WindowSelection.toString ws)) as [|ch rest] eqn:Htrim;
      cbn in Hsel; [eauto|].
    destruct (WindowSelection.anchorInText ws); cbn in Hsel; [|eauto].
    injection Hsel as <-. cbn [Selection.text]. split; [exact Hidem|reflexivity].
  - unfold clearSelection in Hsel. destruct inside; [eauto|discriminate].
  - cbn in Hsel. eauto.
  - cbn in Hsel. eauto.
  - unfold handleDeepDive in Hsel.
    destruct (Bubble.selection b) eqn:Hb'; cbn in Hsel; [discriminate|].
    rewrite Hb' in Hsel. discriminate.
  - unfold handleCustomAskSubmit in Hsel.
    destruct (Bubble.selection b) eqn:Hb'; [|cbn in Hsel; rewrite Hb' in Hsel; discriminate].
    destruct (truthy (trim (Bubble.customQuery b))); cbn in Hsel; [discriminate|].
    apply IH. congruence.
Qed.

(** X26: one request per selection, and a clean one.  A request issued by
    a message bubble, by either button, carries the ids of the bubble's column
    and message and a selection that is non-empty and already trimmed, and a
    custom prompt only if it is not blank; issuing it clears the selection, so
    that both buttons issue nothing more until a new selection is made; and a
    press or a wheel event outside the tooltip clears the selection, one
    inside keeps the bubble as it is. *)
Theorem bubble_request_once
    (b : Bubble.t) (columnId : string) (message : Message.t)
    (b' : Bubble.t) (req : BranchRequest.t) :
  bubble_reachable b →
  handleDeepDive b columnId message = (b', Some req)
  ∨ handleCustomAskSubmit b columnId message = (b', Some req) →
  (BranchRequest.sourceColumnId req = columnId ∧
   BranchRequest.sourceMessageId req = Message.id message ∧
   trim (BranchRequest.selectedText req) = BranchRequest.selectedText req ∧
   truthy (BranchRequest.selectedText req) = true ∧
   (∀ q, BranchRequest.customPrompt req = Some q → truthy (trim q) = true)) ∧
  (Bubble.selection b' = None ∧
   ∀ columnId' message',
     handleDeepDive b' columnId' message' = (b', None) ∧
     handleCustomAskSubmit b' columnId' message' = (b', None)) ∧
  (Bubble.selection (clearSelection b false) = None ∧ clearSelection b true = b).
Proof.
  intros Hb Hreq. pose proof (bubble_selection_trimmed b Hb) as Hsel.
  assert (Hcore : ∃ sel, Bubble.selection b = Some sel ∧
            b' = Bubble.mk None (Bubble.inputMode b) (Bubble.customQuery b) ∧
            BranchRequest.sourceColumnId req = columnId ∧
            BranchRequest.sourceMessageId req = Message.id message ∧
            BranchRequest.selectedText req = Selection.text sel ∧
            ∀ q, BranchRequest.customPrompt req = Some q → truthy (trim q) = true).
  { unfold handleDeepDive, handleCustomAskSubmit in Hreq.
    destruct (Bubble.selection b) as [sel|]; [|destruct Hreq; discriminate].
    exists sel. split; [reflexivity|]. destruct Hreq as [Hreq|Hreq].
    - injection Hreq as <- <-. repeat split. discriminate.
    - destruct (truthy (trim (Bubble.customQuery b))) eqn:Hq; [|discriminate].
      injection Hreq as <- <-. repeat split. cbn. by intros q [= <-]. }
  destruct Hcore as (sel & Hs & -> & Hc & Hm & Ht & Hq).
  destruct (Hsel sel Hs) as [Htrim Hne].
  split; [|split].
  - rewrite Ht. auto.
  - split; [reflexivity|]. intros columnId' message'. split; reflexivity.
  - split; reflexivity.
Qed.

Lemma bubble_request_once_witness :
  let ws := WindowSelection.mk 1 "  endofunctors " true 10 20 80 in
  let b := bubble_handleMouseUp SampleBubble.idle (Some ws) in
  ∃ b' req, handleDeepDive b "B" Sample.a3 = (b', Some req) ∧
            BranchRequest.selectedText req = "endofunctors" ∧
            handleDeepDive b' "B" Sample.a3 = (b', None).
Proof.
  intros ws b.
  destruct (handleDeepDive b "B" Sample.a3) as [b' [req|]] eqn:Hdive;
    [|discriminate Hdive].
  destruct (bubble_request_once b "B" Sample.a3 b' req) as (_ & (_ & Hnone) & _).
  - apply br_mouseUp. apply br_init.
  - left. exact Hdive.
  - exists b', req. split; [reflexivity|]. split.
    + injection Hdive as _ <-. reflexivity.
    + apply Hnone.
Defined.

(** ** Titles *)

Lemma append_to_last_length (textChunk : string) (msgs : list Message.t) :
  length (append_to_last textChunk msgs) = length msgs.
Proof.
  induction msgs as [|m [|m' rest] IH]; [reflexivity| |].
  - cbn. by destruct (bool_decide _).
  - change (append_to_last textChunk (m :: m' :: rest))
      with (m :: append_to_last textChunk (m' :: rest)).
    cbn [length] in *. by rewrite IH.
Qed.

Lemma op_step_title (col : Column.t) (op : StoreOp) :
  (length (Column.messages col) ≤ length (Column.messages (op_step col op)))%nat ∧
  Column.parentId (op_step col op) = Column.parentId col ∧
  ((0 < length (Column.messages col))%nat ∨ truthy_opt (Column.parentId col) = true →
   Column.title (op_step col op) = Column.title col).
Proof.
  unfold op_step. destruct (String.eqb (Column.id col) (op_target op)); [|auto].
  destruct op as [cid m|cid ch|cid b|cid]; cbn [op_on].
  - cbn [Column.messages Column.parentId Column.title set_messages].
    rewrite length_app. cbn [length]. split; [lia|]. split; [reflexivity|].
    intros [Hlen|Hpar].
    + destruct (length (Column.messages col)) as [|n]; [lia|reflexivity].
    + rewrite Hpar. cbn [negb]. by rewrite andb_false_r.
  - cbn [Column.messages Column.parentId Column.title set_messages].
    rewrite append_to_last_length. auto.
  - cbn. auto.
  - cbn. auto.
Qed.

(** X27: titles are stable.  Through every sequence of store updates a
    column keeps its parent and never loses a message; a column that has a
    parent, or already has a message, keeps its title; so only a root
    changes its title, and at most once: with its first message. *)
Theorem title_set_once (columns : list Column.t) (ops : list StoreOp) :
  Forall2
    (λ col col',
       (length (Column.messages col) ≤ length (Column.messages col'))%nat ∧
       Column.parentId col' = Column.parentId col ∧
       ((0 < length (Column.messages col))%nat
        ∨ truthy_opt (Column.parentId col) = true →
        Column.title col' = Column.title col))
    columns (foldl apply_op columns ops).
Proof.
  rewrite foldl_apply_op_fmap. apply Forall2_fmap_r, Forall_Forall2_diag, Forall_forall.
  intros col _. unfold compose. cbv beta.
  revert col. induction ops as [|op ops IH]; intros col; [auto|].
  cbn [foldl]. destruct (op_step_title col op) as (Hlen & Hpar & Htitle).
  destruct (IH (op_step col op)) as (Hlen' & Hpar' & Htitle').
  split; [lia|]. split; [congruence|].
  intros Hcond. rewrite Htitle'; [by apply Htitle|].
  destruct Hcond as [Hpos|Hp]; [left; lia|right; by rewrite Hpar].
Qed.

(** ** The selection *)

Lemma handleCloseColumn_offered
    (fuel : nat) (st st' : App.t) (col : Column.t) :
  find_col (Column.id col) (App.columns st) = Some col →
  onClose_offered col = true →
  handleCloseColumn fuel st (Column.id col) = Some (Normal st') →
  ∃ desc p,
    getDescendants fuel (App.columns st) (Column.id col) = Some desc ∧
    Column.parentId col = Some p ∧
    App.columns st'
    = filter (λ c, Column.id c ∉ (list_to_set desc : gset string)) (App.columns st) ∧
    App.selectedColumnId st'
    = if bool_decide (App.selectedColumnId st ∈ (list_to_set desc : gset string))
      then p else App.selectedColumnId st.
Proof.
  intros Hfind Hoffer. unfold handleCloseColumn.
  destruct (getDescendants fuel (App.columns st) (Column.id col)) as [desc|];
    [|discriminate].
  cbn [mbind option_bind]. rewrite Hfind.
  unfold onClose_offered, truthy_opt in Hoffer.
  destruct (Column.parentId col) as [p|]; [|discriminate]. rewrite Hoffer.
  intros Hrun. exists desc, p. split; [reflexivity|]. split; [reflexivity|].
  destruct (bool_decide _); injection Hrun as <-; split; reflexivity.
Qed.

(** X28: the selection keeps naming a column.  On a well-formed store,
    every event other than Reset - start, typing, selecting a column,
    submitting, branching under a fresh id, closing a column that offers
    it, store updates, height reports, focus and viewport events - leaves the
    selected id the id of a column of the list, if it was one before. *)
Theorem selection_stays_valid (st st' : App.t) :
  ui_step st st' →
  resetClick st ≠ Some st' →
  well_formed (App.columns st) →
  App.selectedColumnId st ∈ ids (App.columns st) →
  App.selectedColumnId st' ∈ ids (App.columns st').
Proof.
  intros Hstep Hnoreset Hwf Hsel.
  assert (Hshape : ∀ s, shape (App.columns s) = shape (App.columns st) →
                        App.selectedColumnId s = App.selectedColumnId st →
                        App.selectedColumnId s ∈ ids (App.columns s)).
  { intros s Hs Hid. by rewrite Hid, shape_ids, Hs, <- shape_ids. }
  destruct Hstep as [st landingInput uuid1 uuid2 now1 now2 st' d Hstart
                    |st st' Hreset
                    |st input
                    |st col Hcol
                    |st uuid1 uuid2 now1 now2 st' d Hsubmit
                    |st col newColId mid text custom Hcol Hfresh
                    |st col fuel st' Hcol Hoffer Hclose
                    |st op
                    |st id height
                    |st layout viewport nodeId
                    |st ev].
  - apply Hshape; [by eapply startSession_keeps|].
    unfold startSession in Hstart. destruct (negb _); [by injection Hstart as <- _|].
    destruct (App.columns st); [discriminate|]. by injection Hstart as <- _.
  - contradiction.
  - by apply Hshape.
  - cbn [App.selectedColumnId App.columns setSelectedColumnId]. by apply in_ids.
  - apply Hshape; [by eapply handleGlobalSubmit_keeps|].
    unfold handleGlobalSubmit in Hsubmit.
    destruct (_ || _); [by injection Hsubmit as <- _|].
    destruct (find_col _ _) as [t|]; [|by injection Hsubmit as <- _].
    destruct (Column.isThinking t); [by injection Hsubmit as <- _|].
    injection Hsubmit as <- _. by destruct (Column.isCollapsed t).
  - cbn [fst handleBranch App.columns App.selectedColumnId setColumns
         setSelectedColumnId].
    unfold ids. rewrite fmap_app. apply elem_of_app. right. apply list_elem_of_here.
  - destruct Hwf as (Hnd & Hpe & Hac).
    pose proof (find_col_NoDup _ col Hnd Hcol) as Hfind.
    destruct (handleCloseColumn_offered _ _ _ _ Hfind Hoffer Hclose)
      as (desc & p & Hdesc & Hp & Hcols & Hselected).
    set (D := (list_to_set desc : gset string)) in *.
    assert (HD : ∀ k, k ∈ D ↔ in_subtree (App.columns st) (Column.id col) k).
    { intros k. unfold D. rewrite elem_of_list_to_set.
      exact (getDescendants_sound _ Hnd fuel _ desc Hdesc k). }
    rewrite Hselected, Hcols.
    destruct (bool_decide (App.selectedColumnId st ∈ D)) eqn:Hin.
    + apply kept_column; [exact (Hpe col p Hcol Hp)|].
      intros HpD. apply HD in HpD as [e He].
      apply (Hac (Column.id col) (S e)); [lia|].
      cbn [ancestor_at]. by rewrite Hfind, Hp.
    + apply bool_decide_eq_false in Hin. by apply kept_column.
  - by apply Hshape; [apply apply_op_shape|].
  - by apply Hshape.
  - destruct (focusNode_keeps st layout viewport nodeId) as [Hc _].
    rewrite Hc. unfold focusNode. destruct (layout !! nodeId); [|exact Hsel].
    by destruct viewport as [[w h]|].
  - rewrite viewport_step_columns.
    assert (Hid : App.selectedColumnId (viewport_step st ev) = App.selectedColumnId st).
    { destruct ev as [e b c|e c|e| |e| |]; cbn [viewport_step]; try reflexivity.
      - unfold handleMouseDown. destruct (_ || _); [destruct c|]; reflexivity.
      - unfold handleMouseMove.
        destruct (App.dragRef st) as [[[] sx sy [tid|] [ip|] [io|]]|];
          cbn; try destruct (truthy tid); reflexivity.
      - unfold handleWheel. by destruct (negb (App.hasStarted st)). }
    by rewrite Hid.
Qed.

Lemma selection_stays_valid_witness :
  ∃ st', handleCloseColumn 4 SampleClose.tree_state "a" = Some (Normal st') ∧
         App.selectedColumnId st' ∈ ids (App.columns st').
Proof.
  destruct (handleCloseColumn 4 SampleClose.tree_state "a") as [[st'|]|] eqn:Hrun;
    [|discriminate Hrun..].
  exists st'. split; [reflexivity|].
  apply (selection_stays_valid SampleClose.tree_state st').
  - apply (step_close SampleClose.tree_state (SampleLayout.col "a" (Some "r")) 4).
    + apply elem_of_cons. right. apply list_elem_of_here.
    + reflexivity.
    + exact Hrun.
  - vm_compute in Hrun. injection Hrun as <-. discriminate.
  - split; [exact sample_unique_ids|].
    split; [exact sample_parents_exist|exact sample_acyclic].
  - apply (bool_decide_unpack _). vm_compute. exact I.
Defined.
